(** * Humor Memory Game: session, scoring and deck generation

    A shallow embedding of the backend's game core:

    - [GameData]: the emoji table, the difficulty configuration, the
      Fisher-Yates shuffle, deck generation and the score calculator
      (backend/utils/gameData.js);
    - [Backend]: the Redis cache helpers (backend/utils/redis.js), the
      Postgres access layer (backend/models/database.js) and the three
      session routes start / match / complete (backend/routes/game.js).

    JavaScript numbers that hold integers are modelled as [Z] (counts that
    index arrays as [nat]); the two places where the score calculator
    multiplies by a fraction (0.5 and 1.5) are computed in [Q], where they
    are exact, as they are in IEEE doubles for the magnitudes a game can
    reach. *)

From Stdlib Require Import ZArith QArith Qround Qminmax Lia Ascii.
From stdpp Require Import base option list strings gmap sorting.

Local Open Scope string_scope.
Local Open Scope list_scope.
Local Open Scope nat_scope.

(** ** Completions: a JavaScript call either returns or throws *)

Inductive Completion (A : Type) : Type :=
| Returned (a : A)
| Thrown (message : string).
Arguments Returned {A} a.
Arguments Thrown {A} message.

(** * backend/utils/gameData.js *)

Module GameData.

(** ** emojiPairs *)

Module Emoji.
Record t := mk { id : string; emoji : string; name : string; category : string }.
End Emoji.

Definition emojiPairs : list Emoji.t :=
  [ Emoji.mk "laughing" "😂" "Crying Laugh" "classic";
    Emoji.mk "wink" "😉" "Winking Face" "classic";
    Emoji.mk "cool" "😎" "Cool Dude" "classic";
    Emoji.mk "heart_eyes" "😍" "Heart Eyes" "love";
    Emoji.mk "thinking" "🤔" "Thinking Face" "thoughtful";
    Emoji.mk "upside_down" "🙃" "Upside Down" "silly";
    Emoji.mk "rolling_eyes" "🙄" "Eye Roll" "sassy";
    Emoji.mk "zany" "🤪" "Zany Face" "silly";
    Emoji.mk "robot" "🤖" "Robot Face" "tech";
    Emoji.mk "ghost" "👻" "Friendly Ghost" "spooky";
    Emoji.mk "alien" "👽" "Alien Friend" "space";
    Emoji.mk "unicorn" "🦄" "Magical Unicorn" "fantasy";
    Emoji.mk "pizza" "🍕" "Pizza Slice" "food";
    Emoji.mk "taco" "🌮" "Taco Tuesday" "food";
    Emoji.mk "donut" "🍩" "Donut Delight" "food";
    Emoji.mk "rainbow" "🌈" "Rainbow Magic" "nature";
    Emoji.mk "rocket" "🚀" "Blast Off" "space";
    Emoji.mk "guitar" "🎸" "Rock Star" "music";
    Emoji.mk "sunglasses" "🕶️" "Shades" "cool";
    Emoji.mk "party" "🎉" "Party Time" "celebration";
    Emoji.mk "detective" "🕵️" "Detective" "mystery";
    Emoji.mk "ninja" "🥷" "Stealth Ninja" "action";
    Emoji.mk "pirate" "🏴‍☠️" "Pirate Flag" "adventure";
    Emoji.mk "fire" "🔥" "On Fire" "hot";
    Emoji.mk "lightning" "⚡" "Lightning Bolt" "energy";
    Emoji.mk "star" "⭐" "Superstar" "space";
    Emoji.mk "diamond" "💎" "Precious Diamond" "luxury";
    Emoji.mk "crown" "👑" "Royal Crown" "luxury";
    Emoji.mk "trophy" "🏆" "Victory Trophy" "achievement";
    Emoji.mk "magic_wand" "🪄" "Magic Wand" "fantasy" ].

(** ** gameConfig *)

Module Config.
Record t := mk {
  cardCount : nat;
  timeLimit : Z;
  pointsPerMatch : Z;
  bonusTimeThreshold : Z;
  bonusPoints : Z;
  gridSize : string
}.
End Config.

Definition easy : Config.t := Config.mk 16 300000 10 10000 5 "4x4".
Definition medium : Config.t := Config.mk 20 480000 15 8000 8 "5x4".
Definition hard : Config.t := Config.mk 24 600000 20 6000 12 "6x4".
Definition expert : Config.t := Config.mk 30 900000 25 5000 15 "6x5".

(** [gameConfig.difficulties], an object used as a map from tier name to
    its configuration. *)
Definition difficulties : gmap string Config.t :=
  <["easy" := easy]> (<["medium" := medium]> (<["hard" := hard]>
    (<["expert" := expert]> ∅))).

Module Scoring.
Record t := mk {
  perfectGameBonus : Z;
  speedBonusMultiplier : Q;
  streakBonus : Z;
  maxStreakBonus : Z
}.
End Scoring.

Definition scoring : Scoring.t := Scoring.mk 50 1.5 3 30.

(** ** Cards *)

Module Card.
Record t := mk {
  id : string;
  pairId : string;
  emoji : string;
  name : string;
  category : string;
  isFlipped : bool;
  isMatched : bool;
  position : option nat        (* [null] until the deck is shuffled *)
}.

Definition set_position (p : option nat) (c : t) : t :=
  mk (id c) (pairId c) (emoji c) (name c) (category c)
     (isFlipped c) (isMatched c) p.

Definition set_isMatched (b : bool) (c : t) : t :=
  mk (id c) (pairId c) (emoji c) (name c) (category c)
     (isFlipped c) b (position c).
End Card.

(** ** Math.random

    A draw of [Math.random()] is a fraction in [0, 1): it is kept as the
    pair (n, d) standing for (n mod (d+1)) / (d+1), so that every draw is
    in range by construction.  The generator is the sequence of its future
    draws. *)

Module Random.
Record draw := mk { num : nat; den_pred : nat }.

Definition rng := nat → draw.

(** [Math.random()]: the next draw and the generator after it. *)
Definition next (g : rng) : draw * rng := (g 0, λ n, g (S n)).

(** [Math.floor(r * n)] for a draw [r]. *)
Definition floor_times (r : draw) (n : nat) : nat :=
  ((num r `mod` S (den_pred r)) * n) `div` S (den_pred r).
End Random.

(** ** shuffleArray (Fisher-Yates) *)

(** [[a[i], a[j]] = [a[j], a[i]]].  Both indices are always inside the
    array when the shuffle calls it; outside, the model leaves the array
    alone. *)
Definition swap {A} (shuffled : list A) (i j : nat) : list A :=
  match shuffled !! i, shuffled !! j with
  | Some x, Some y => <[j := x]> (<[i := y]> shuffled)
  | _, _ => shuffled
  end.

(** The loop [for (let i = length - 1; i > 0; i--)], entered at index [i]. *)
Fixpoint shuffle_loop {A} (i : nat) (shuffled : list A) (g : Random.rng)
  : list A * Random.rng :=
  match i with
  | O => (shuffled, g)
  | S i' =>
      let '(r, g') := Random.next g in
      let j := Random.floor_times r (i + 1) in
      shuffle_loop i' (swap shuffled i j) g'
  end.

Definition shuffleArray {A} (array : list A) (g : Random.rng)
  : list A * Random.rng :=
  shuffle_loop (length array - 1) array g.

(** ** generateCardSet *)

Definition pair_of_cards (e : Emoji.t) : list Card.t :=
  [ Card.mk (Emoji.id e +:+ "_1") (Emoji.id e) (Emoji.emoji e) (Emoji.name e)
            (Emoji.category e) false false None;
    Card.mk (Emoji.id e +:+ "_2") (Emoji.id e) (Emoji.emoji e) (Emoji.name e)
            (Emoji.category e) false false None ].

(** [shuffledCards.forEach((card, index) => { card.position = index })] *)
Definition assign_positions (cards : list Card.t) : list Card.t :=
  imap (λ index card, Card.set_position (Some index) card) cards.

(** [difficulty] and [categories] are [None] when the caller leaves them
    out ([undefined], or [null] for the categories). *)
Definition generateCardSet (difficulty : option string)
    (categories : option (list string)) (g : Random.rng)
  : Completion (list Card.t * Random.rng) :=
  let difficulty := default "easy" difficulty in
  match difficulties !! difficulty with
  | None => Thrown ("Invalid difficulty: " +:+ difficulty)
  | Some config =>
      let pairCount := (Config.cardCount config / 2)%nat in
      let availableEmojis :=
        match categories with
        | Some (c :: cs) =>
            filter (λ e, Emoji.category e ∈ c :: cs) emojiPairs
        | _ => emojiPairs
        end in
      let availableEmojis :=
        if decide (length availableEmojis < pairCount)
        then emojiPairs else availableEmojis in
      let '(shuffledEmojis, g) := shuffleArray availableEmojis g in
      let selectedEmojis := take pairCount shuffledEmojis in
      let cards := selectedEmojis ≫= pair_of_cards in
      let '(shuffledCards, g) := shuffleArray cards g in
      Returned (assign_positions shuffledCards, g)
  end.

(** ** calculateScore *)

Module GameStats.
Record t := mk {
  matches : Z;
  wrongMoves : Z;
  timeElapsed : Z;
  difficulty : option string;          (* defaults to 'easy' *)
  consecutiveMatches : option Z        (* defaults to 0 *)
}.
End GameStats.

Module Breakdown.
Record t := mk {
  baseScore : Z;
  bonusPoints : Z;
  speedBonus : Z;
  perfectGameBonus : Z;
  streakBonus : Z;
  penalties : Z
}.

Definition set_baseScore (v : Z) (b : t) : t :=
  mk v (bonusPoints b) (speedBonus b) (perfectGameBonus b) (streakBonus b)
     (penalties b).
Definition set_speedBonus (v : Z) (b : t) : t :=
  mk (baseScore b) (bonusPoints b) v (perfectGameBonus b) (streakBonus b)
     (penalties b).
Definition set_perfectGameBonus (v : Z) (b : t) : t :=
  mk (baseScore b) (bonusPoints b) (speedBonus b) v (streakBonus b)
     (penalties b).
Definition set_streakBonus (v : Z) (b : t) : t :=
  mk (baseScore b) (bonusPoints b) (speedBonus b) (perfectGameBonus b) v
     (penalties b).
Definition set_penalties (v : Z) (b : t) : t :=
  mk (baseScore b) (bonusPoints b) (speedBonus b) (perfectGameBonus b)
     (streakBonus b) v.
End Breakdown.

(** The returned object.  Its [rating] field (a threshold on a floating
    point percentage) plays no part in the score and is left out. *)
Module Score.
Record t := mk { totalScore : Z; breakdown : Breakdown.t }.
End Score.

(** The accumulator of [calculateScore]: [totalScore] and [breakdown]. *)
Definition score_acc : Type := Z * Breakdown.t.

(** [if (timeElapsed < config.timeLimit * 0.5) { ... }] *)
Definition add_speed_bonus (timeElapsed : Z) (config : Config.t)
    (acc : score_acc) : score_acc :=
  let '(totalScore, breakdown) := acc in
  if Qlt_le_dec (inject_Z timeElapsed) (inject_Z (Config.timeLimit config) * 0.5)
  then
    let breakdown :=
      Breakdown.set_speedBonus
        (Qfloor (inject_Z (Breakdown.baseScore breakdown)
                 * Scoring.speedBonusMultiplier scoring))
        breakdown in
    ((totalScore + Breakdown.speedBonus breakdown)%Z, breakdown)
  else acc.

(** [if (wrongMoves === 0) { ... }] *)
Definition add_perfect_game_bonus (wrongMoves : Z) (acc : score_acc)
  : score_acc :=
  let '(totalScore, breakdown) := acc in
  if decide (wrongMoves = 0%Z)
  then
    let breakdown :=
      Breakdown.set_perfectGameBonus (Scoring.perfectGameBonus scoring)
        breakdown in
    ((totalScore + Breakdown.perfectGameBonus breakdown)%Z, breakdown)
  else acc.

(** [if (consecutiveMatches >= 3) { ... }] *)
Definition add_streak_bonus (consecutiveMatches : Z) (acc : score_acc)
  : score_acc :=
  let '(totalScore, breakdown) := acc in
  if decide (3 ≤ consecutiveMatches)%Z
  then
    let breakdown :=
      Breakdown.set_streakBonus
        (Z.min (consecutiveMatches * Scoring.streakBonus scoring)
               (Scoring.maxStreakBonus scoring))
        breakdown in
    ((totalScore + Breakdown.streakBonus breakdown)%Z, breakdown)
  else acc.

(** [breakdown.penalties = Math.max(0, wrongMoves - 2) * 2;
     totalScore -= breakdown.penalties] *)
Definition subtract_penalties (wrongMoves : Z) (acc : score_acc) : score_acc :=
  let '(totalScore, breakdown) := acc in
  let breakdown :=
    Breakdown.set_penalties (Z.max 0 (wrongMoves - 2) * 2)%Z breakdown in
  ((totalScore - Breakdown.penalties breakdown)%Z, breakdown).

(** The numbers are whole; the arithmetic is exact (see
    [within_double_precision] for the range in which the code's doubles
    compute the same values). *)
Definition calculateScore (gameStats : GameStats.t) : Completion Score.t :=
  let matches := GameStats.matches gameStats in
  let wrongMoves := GameStats.wrongMoves gameStats in
  let timeElapsed := GameStats.timeElapsed gameStats in
  let difficulty := default "easy" (GameStats.difficulty gameStats) in
  let consecutiveMatches :=
    default 0%Z (GameStats.consecutiveMatches gameStats) in
  match difficulties !! difficulty with
  | None =>
      (* [config] is undefined: reading [config.pointsPerMatch] throws *)
      Thrown "TypeError: Cannot read properties of undefined"
  | Some config =>
      let totalScore := 0%Z in
      let breakdown := Breakdown.mk 0 0 0 0 0 0 in
      let breakdown :=
        Breakdown.set_baseScore (matches * Config.pointsPerMatch config)%Z
          breakdown in
      let totalScore := (totalScore + Breakdown.baseScore breakdown)%Z in
      let acc := add_speed_bonus timeElapsed config (totalScore, breakdown) in
      let acc := add_perfect_game_bonus wrongMoves acc in
      let acc := add_streak_bonus consecutiveMatches acc in
      let '(totalScore, breakdown) := subtract_penalties wrongMoves acc in
      let totalScore := Z.max 0 totalScore in
      Returned (Score.mk totalScore breakdown)
  end.

End GameData.

(** * The backend: cache, database and routes *)

Module Backend.
Import GameData.

(** ** Session state held in the cache *)

Module MatchEvent.
Record t := mk {
  card1Id : string;
  card2Id : string;
  matchTime : Z;
  pointsEarned : Z;
  bonusPoints : Z;
  timestamp : Z
}.
End MatchEvent.

Module Session.
Record t := mk {
  gameId : string;
  userId : string;
  username : string;
  difficulty : string;
  cards : list Card.t;
  startTime : Z;
  matches : list MatchEvent.t;
  score : Z;
  moves : Z;
  isCompleted : bool;
  finalScore : option Z;       (* absent until completion *)
  completedAt : option Z       (* absent until completion *)
}.

Definition set_cards (v : list Card.t) (s : t) : t :=
  mk (gameId s) (userId s) (username s) (difficulty s) v (startTime s)
     (matches s) (score s) (moves s) (isCompleted s) (finalScore s)
     (completedAt s).
Definition set_matches (v : list MatchEvent.t) (s : t) : t :=
  mk (gameId s) (userId s) (username s) (difficulty s) (cards s) (startTime s)
     v (score s) (moves s) (isCompleted s) (finalScore s) (completedAt s).
Definition set_score (v : Z) (s : t) : t :=
  mk (gameId s) (userId s) (username s) (difficulty s) (cards s) (startTime s)
     (matches s) v (moves s) (isCompleted s) (finalScore s) (completedAt s).
Definition set_moves (v : Z) (s : t) : t :=
  mk (gameId s) (userId s) (username s) (difficulty s) (cards s) (startTime s)
     (matches s) (score s) v (isCompleted s) (finalScore s) (completedAt s).
Definition set_isCompleted (v : bool) (s : t) : t :=
  mk (gameId s) (userId s) (username s) (difficulty s) (cards s) (startTime s)
     (matches s) (score s) (moves s) v (finalScore s) (completedAt s).
Definition set_finalScore (v : option Z) (s : t) : t :=
  mk (gameId s) (userId s) (username s) (difficulty s) (cards s) (startTime s)
     (matches s) (score s) (moves s) (isCompleted s) v (completedAt s).
Definition set_completedAt (v : option Z) (s : t) : t :=
  mk (gameId s) (userId s) (username s) (difficulty s) (cards s) (startTime s)
     (matches s) (score s) (moves s) (isCompleted s) (finalScore s) v.
End Session.

(** ** The Redis keyspace

    Values are JSON texts; the model keeps the three shapes the backend
    stores: a game session, a counter written by INCR, and any other
    document (leaderboard and user-statistics snapshots).  Expiry times are
    not modelled: no key disappears on its own. *)

Inductive CacheValue :=
| VSession (s : Session.t)
| VNumber (n : Z)
| VJson (text : string).

Inductive RedisOp :=
| OpGet (key : string)
| OpSet (key : string)
| OpDel (key : string)
| OpExpire (key : string)
| OpIncr (key : string).

(** ** The Postgres tables (timestamp columns are left out) *)

Module UserRow.
Record t := mk {
  id : string;
  username : string;
  display_name : string;
  total_games : Z;
  total_score : Z;
  best_score : Z;
  best_time : option Z
}.
End UserRow.

Module GameRow.
Record t := mk {
  id : string;
  user_id : string;
  username : string;
  score : Z;
  moves : Z;
  time_elapsed : Z;
  cards_matched : Z;
  difficulty_level : string;
  game_completed : bool
}.
End GameRow.

Module MatchRow.
Record t := mk {
  game_id : string;
  card1_id : string;
  card2_id : string;
  match_time : Z;
  points_earned : Z;
  bonus_points : Z
}.
End MatchRow.

Module Db.
Record t := mk {
  users : gmap string UserRow.t;          (* keyed by the unique username *)
  games : gmap string GameRow.t;          (* keyed by the primary key id *)
  game_matches : list MatchRow.t
}.
End Db.

(** The statements the routes issue, with their parameters. *)
Inductive Sql :=
| SelectUser (username : string)
| InsertUser (username : string) (display_name : string)
| InsertGame (user_id username difficulty : string)
| UpdateGameCompleted (gameId : string) (score moves timeElapsed cardsMatched : Z)
| InsertMatch (gameId card1Id card2Id : string) (matchTime points bonusPoints : Z)
| UpdateLastPlayed (user_id : string).

Inductive SqlKind :=
| KSelectUser | KInsertUser | KInsertGame | KUpdateGameCompleted
| KInsertMatch | KUpdateLastPlayed.

Definition sql_kind (q : Sql) : SqlKind :=
  match q with
  | SelectUser _ => KSelectUser
  | InsertUser _ _ => KInsertUser
  | InsertGame _ _ _ => KInsertGame
  | UpdateGameCompleted _ _ _ _ _ => KUpdateGameCompleted
  | InsertMatch _ _ _ _ _ _ => KInsertMatch
  | UpdateLastPlayed _ => KUpdateLastPlayed
  end.

Inductive Rows :=
| UserRows (rows : list UserRow.t)
| GameRows (rows : list GameRow.t)
| MatchRows (rows : list MatchRow.t)
| NoRows.

(** ** The world a request runs in *)

Inductive Level := Warn | Error.

#[global] Instance Level_eq_dec : EqDecision Level.
Proof. solve_decision. Defined.

Record World := mkWorld {
  redis : gmap string CacheValue;
  isOpen : bool;                         (* the Redis client's connection *)
  db : Db.t;
  console : list (Level * string)        (* console.warn and console.error *)
}.

(** What the surroundings decide during one request: which Redis commands
    fail, whether connecting fails, how many consecutive attempts of each
    kind of statement fail in the pool, the identifiers Postgres generates,
    the clock and the random generator. *)
Record Env := mkEnv {
  redis_fails : RedisOp → bool;
  connect_fails : bool;
  pool_failures : SqlKind → nat;
  uuid_user : string;
  uuid_game : string;
  now : Z;                               (* Date.now() *)
  now_iso : string;                      (* new Date().toISOString() *)
  random : Random.rng
}.

(** ** Asynchronous code: reader, state and exceptions *)

Definition IO (A : Type) : Type := Env → World → Completion A * World.

Definition ret {A} (a : A) : IO A := λ _ w, (Returned a, w).
Definition throw {A} (message : string) : IO A := λ _ w, (Thrown message, w).
Definition bind {A B} (m : IO A) (k : A → IO B) : IO B :=
  λ env w,
    match m env w with
    | (Returned a, w') => k a env w'
    | (Thrown e, w') => (Thrown e, w')
    end.
Definition try_catch {A} (body : IO A) (handler : string → IO A) : IO A :=
  λ env w,
    match body env w with
    | (Returned a, w') => (Returned a, w')
    | (Thrown e, w') => handler e env w'
    end.
Definition ask : IO Env := λ env w, (Returned env, w).
Definition get_world : IO World := λ _ w, (Returned w, w).
Definition put_world (w : World) : IO unit := λ _ _, (Returned tt, w).

Notation "'let*' x ':=' m 'in' k" := (bind m (λ x, k))
  (at level 10, x pattern, m at level 100, k at level 200).
Notation "m ';;' k" := (bind m (λ _, k))
  (at level 100, k at level 200, right associativity).

Definition console_log (level : Level) (text : string) : IO unit :=
  λ _ w, (Returned tt,
          mkWorld (redis w) (isOpen w) (db w) (console w ++ [(level, text)])).

Definition set_redis (m : gmap string CacheValue) : IO unit :=
  λ _ w, (Returned tt, mkWorld m (isOpen w) (db w) (console w)).
Definition set_isOpen (b : bool) : IO unit :=
  λ _ w, (Returned tt, mkWorld (redis w) b (db w) (console w)).
Definition set_db (d : Db.t) : IO unit :=
  λ _ w, (Returned tt, mkWorld (redis w) (isOpen w) d (console w)).

Definition lift {A} (c : Completion A) : IO A := λ _ w, (c, w).

(** ** backend/utils/redis.js *)

(** One command sent to the server: it fails when the surroundings say so. *)
Definition client_command (op : RedisOp) : IO unit :=
  let* env := ask in
  if redis_fails env op then throw "Redis command failed" else ret tt.

(** [RedisCache.set(key, value, ttl)] *)
Definition redis_set (key : string) (value : CacheValue) : IO unit :=
  try_catch
    (client_command (OpSet key);;
     let* w := get_world in
     set_redis (<[key := value]> (redis w)))
    (λ error,
      console_log Error ("Redis set error for key " +:+ key);;
      throw error).

(** [RedisCache.get(key)]: an error is logged and answered with [null]. *)
Definition redis_get (key : string) : IO (option CacheValue) :=
  try_catch
    (client_command (OpGet key);;
     let* w := get_world in
     ret (redis w !! key))
    (λ error,
      console_log Error ("Redis get error for key " +:+ key);;
      ret None).

(** [RedisCache.del(key)] *)
Definition redis_del (key : string) : IO unit :=
  try_catch
    (client_command (OpDel key);;
     let* w := get_world in
     set_redis (delete key (redis w)))
    (λ error,
      console_log Error ("Redis del error for key " +:+ key);;
      throw error).

(** [RedisCache.expire(key, ttl)]: only the time to live changes. *)
Definition redis_expire (key : string) : IO unit :=
  try_catch
    (client_command (OpExpire key))
    (λ error,
      console_log Error ("Redis expire error for key " +:+ key);;
      throw error).

(** [RedisCache.incr(key)]: INCR starts a missing key at 0 and refuses a
    value that is not an integer. *)
Definition redis_incr (key : string) : IO Z :=
  try_catch
    (client_command (OpIncr key);;
     let* w := get_world in
     match redis w !! key with
     | None => set_redis (<[key := VNumber 1]> (redis w));; ret 1%Z
     | Some (VNumber n) =>
         set_redis (<[key := VNumber (n + 1)]> (redis w));; ret (n + 1)%Z
     | Some _ => throw "ERR value is not an integer or out of range"
     end)
    (λ error,
      console_log Error ("Redis incr error for key " +:+ key);;
      throw error).

(** [RedisCache.connect()] *)
Definition redis_connect : IO unit :=
  try_catch
    (let* w := get_world in
     if isOpen w then ret tt
     else
       let* env := ask in
       if connect_fails env then throw "Redis connection failed"
       else set_isOpen true)
    (λ error,
      console_log Error "Failed to connect to Redis";;
      throw error).

Definition ensureConnection : IO unit :=
  let* w := get_world in
  if isOpen w then ret tt else redis_connect.

(** The exported proxy: every method first ensures the connection. *)
Definition wrapped {A} (method : IO A) : IO A :=
  ensureConnection;; method.

Definition session_key (gameId : string) : string := "game:session:" +:+ gameId.

Definition cacheGameSession (gameId : string) (gameData : Session.t) : IO unit :=
  redis_set (session_key gameId) (VSession gameData).

Definition getCachedGameSession (gameId : string) : IO (option CacheValue) :=
  redis_get (session_key gameId).

(** [s.split('T')[0]] *)
Fixpoint before_T (s : string) : string :=
  match s with
  | EmptyString => EmptyString
  | String c rest =>
      if Ascii.eqb c "T"%char then EmptyString else String c (before_T rest)
  end.

Definition incrementDailyGames : IO Z :=
  let* env := ask in
  let dateKey := before_T (now_iso env) in
  let key := "analytics:daily_games:" +:+ dateKey in
  redis_expire key;;
  redis_incr key.

Definition trackUserActivity (username action : string) : IO Z :=
  let* env := ask in
  let hour := String.substring 0 13 (now_iso env) in
  let key := "activity:" +:+ username +:+ ":" +:+ action +:+ ":" +:+ hour in
  redis_expire key;;
  redis_incr key.

(** ** backend/models/database.js *)

(** [update_user_stats()], the trigger fired after an update of [games]. *)
Definition update_user_stats (old new : GameRow.t)
    (users : gmap string UserRow.t) : gmap string UserRow.t :=
  if GameRow.game_completed new && negb (GameRow.game_completed old)
  then
    (λ u,
      if decide (UserRow.id u = GameRow.user_id new)
      then
        UserRow.mk (UserRow.id u) (UserRow.username u) (UserRow.display_name u)
          (UserRow.total_games u + 1)
          (UserRow.total_score u + GameRow.score new)
          (Z.max (UserRow.best_score u) (GameRow.score new))
          (match UserRow.best_time u with
           | None => Some (GameRow.time_elapsed new)
           | Some best =>
               if decide (GameRow.time_elapsed new < best)%Z
               then Some (GameRow.time_elapsed new) else Some best
           end)
      else u) <$> users
  else users.

(** An INTEGER column holds 32 bits: Postgres raises "integer out of
    range" for a parameter, or for a sum computed by the trigger, that
    lies outside. *)
Definition fits_integer (v : Z) : Prop :=
  (-2147483648 ≤ v ≤ 2147483647)%Z.

#[global] Instance fits_integer_dec (v : Z) : Decision (fits_integer v).
Proof. unfold fits_integer. apply _. Defined.

(** The sums of the trigger stay in range for every user row it updates. *)
Definition user_stats_fit (old new : GameRow.t)
    (users : gmap string UserRow.t) : Prop :=
  GameRow.game_completed new && negb (GameRow.game_completed old) = true →
  map_Forall
    (λ _ u,
      UserRow.id u = GameRow.user_id new →
      fits_integer (UserRow.total_games u + 1) ∧
      fits_integer (UserRow.total_score u + GameRow.score new))
    users.

#[global] Instance user_stats_fit_dec old new users :
  Decision (user_stats_fit old new users).
Proof. unfold user_stats_fit. apply _. Defined.

(** What one statement does to the tables; [None] is an error raised by
    Postgres (a violated unique, primary-key or foreign-key constraint, or
    an integer out of range): the statement then changes nothing. *)
Definition pool_execute (env : Env) (q : Sql) (d : Db.t) : option (Rows * Db.t) :=
  match q with
  | SelectUser username =>
      Some (UserRows (option_list (Db.users d !! username)), d)
  | InsertUser username display_name =>
      match Db.users d !! username with
      | Some _ => None
      | None =>
          let row := UserRow.mk (uuid_user env) username display_name 0 0 0 None in
          Some (UserRows [row],
                Db.mk (<[username := row]> (Db.users d)) (Db.games d)
                      (Db.game_matches d))
      end
  | InsertGame user_id username difficulty =>
      match Db.games d !! uuid_game env with
      | Some _ => None
      | None =>
          let row :=
            GameRow.mk (uuid_game env) user_id username 0 0 0 0 difficulty false in
          Some (GameRows [row],
                Db.mk (Db.users d) (<[uuid_game env := row]> (Db.games d))
                      (Db.game_matches d))
      end
  | UpdateGameCompleted gameId score moves timeElapsed cardsMatched =>
      if decide (fits_integer score ∧ fits_integer moves ∧
                 fits_integer timeElapsed ∧ fits_integer cardsMatched)
      then
        match Db.games d !! gameId with
        | None => Some (GameRows [], d)
        | Some old =>
            let new :=
              GameRow.mk (GameRow.id old) (GameRow.user_id old)
                (GameRow.username old) score moves timeElapsed cardsMatched
                (GameRow.difficulty_level old) true in
            if decide (user_stats_fit old new (Db.users d))
            then
              Some (GameRows [new],
                    Db.mk (update_user_stats old new (Db.users d))
                          (<[gameId := new]> (Db.games d)) (Db.game_matches d))
            else None
        end
      else None
  | InsertMatch gameId card1Id card2Id matchTime points bonusPoints =>
      if decide (fits_integer matchTime ∧ fits_integer points ∧
                 fits_integer bonusPoints)
      then
        match Db.games d !! gameId with
        | None => None
        | Some _ =>
            let row :=
              MatchRow.mk gameId card1Id card2Id matchTime points bonusPoints in
            Some (MatchRows [row],
                  Db.mk (Db.users d) (Db.games d) (Db.game_matches d ++ [row]))
        end
      else None
  | UpdateLastPlayed _ => Some (NoRows, d)
  end.

(** [this.pool.query(text, params)] at the given attempt. *)
Definition pool_query (q : Sql) (attempt : nat) : IO Rows :=
  let* env := ask in
  if decide (attempt ≤ pool_failures env (sql_kind q))%nat
  then throw "Connection terminated unexpectedly"
  else
    let* w := get_world in
    match pool_execute env q (db w) with
    | None => throw "Constraint violated"
    | Some (rows, d) => set_db d;; ret rows
    end.

Definition maxRetries : nat := 3.

(** The retry loop of [query], entered at [attempt] with [remaining]
    iterations left. *)
Fixpoint query_loop (q : Sql) (remaining attempt : nat) (lastError : string)
  : IO Rows :=
  match remaining with
  | O => throw lastError
  | S remaining' =>
      try_catch
        (pool_query q attempt)
        (λ error,
          console_log Error "Database query error";;
          if decide (attempt < maxRetries)%nat
          then query_loop q remaining' (attempt + 1) error
          else
            console_log Error "Query:";;
            console_log Error "Params:";;
            throw error)
  end.

Definition query (q : Sql) : IO Rows := query_loop q maxRetries 1 "".

Definition user_rows (r : Rows) : list UserRow.t :=
  match r with UserRows rows => rows | _ => [] end.
Definition game_rows (r : Rows) : list GameRow.t :=
  match r with GameRows rows => rows | _ => [] end.

(** [rows[0]] of a statement that returns its row. *)
Definition first_row {A} (rows : list A) : IO A :=
  match rows with
  | row :: _ => ret row
  | [] => throw "TypeError: Cannot read properties of undefined"
  end.

Definition createOrGetUser (username : string) : IO UserRow.t :=
  try_catch
    (let* existingUser := query (SelectUser username) in
     match user_rows existingUser with
     | row :: _ => ret row
     | [] =>
         let* newUser := query (InsertUser username username) in
         first_row (user_rows newUser)
     end)
    (λ error, console_log Error "Error creating/getting user";; throw error).

Definition createGame (userId username difficulty : string) : IO GameRow.t :=
  try_catch
    (let* game := query (InsertGame userId username difficulty) in
     first_row (game_rows game))
    (λ error, console_log Error "Error creating game";; throw error).

Definition completeGame (gameId : string)
    (score moves timeElapsed cardsMatched : Z) : IO GameRow.t :=
  try_catch
    (let* game :=
       query (UpdateGameCompleted gameId score moves timeElapsed cardsMatched) in
     match game_rows game with
     | [] => throw "Game not found"
     | row :: _ => ret row
     end)
    (λ error, console_log Error "Error completing game";; throw error).

Definition recordMatch (gameId card1Id card2Id : string)
    (matchTime points bonusPoints : Z) : IO unit :=
  try_catch
    (query (InsertMatch gameId card1Id card2Id matchTime points bonusPoints);;
     ret tt)
    (λ error, console_log Error "Error recording match";; throw error).

Definition updateLastPlayed (userId : string) : IO unit :=
  try_catch
    (query (UpdateLastPlayed userId);; ret tt)
    (λ error, console_log Error "Error updating last played";; throw error).

(** ** backend/routes/game.js *)

(** *** calculateConsecutiveMatches *)

(** [matches.sort((a, b) => a.timestamp - b.timestamp)] sorts the array in
    place and is stable: it is modelled by a stable insertion sort. *)
Fixpoint insert_by_timestamp (m : MatchEvent.t) (sorted : list MatchEvent.t)
  : list MatchEvent.t :=
  match sorted with
  | [] => [m]
  | m' :: rest =>
      if decide (MatchEvent.timestamp m ≤ MatchEvent.timestamp m')%Z
      then m :: sorted
      else m' :: insert_by_timestamp m rest
  end.

Definition sort_by_timestamp (matches : list MatchEvent.t) : list MatchEvent.t :=
  foldr insert_by_timestamp [] matches.

(** The loop [for (let i = 1; i < sortedMatches.length; i++)], with
    [previous] standing for [sortedMatches[i - 1]] and [rest] for the
    elements from index [i] on. *)
Fixpoint streak_loop (previous : MatchEvent.t) (rest : list MatchEvent.t)
    (maxStreak currentStreak : Z) : Z :=
  match rest with
  | [] => maxStreak
  | current :: rest' =>
      let timeDiff :=
        (MatchEvent.timestamp current - MatchEvent.timestamp previous)%Z in
      if decide (timeDiff ≤ 30000)%Z
      then
        let currentStreak := (currentStreak + 1)%Z in
        streak_loop current rest' (Z.max maxStreak currentStreak) currentStreak
      else streak_loop current rest' maxStreak 1
  end.

(** Returns the streak and the array as the call leaves it (sorted). *)
Definition calculateConsecutiveMatches (matches : list MatchEvent.t)
  : Z * list MatchEvent.t :=
  match matches with
  | [] => (0%Z, matches)
  | _ :: _ =>
      let sortedMatches := sort_by_timestamp matches in
      match sortedMatches with
      | [] => (1%Z, sortedMatches)
      | first :: rest => (streak_loop first rest 1 1, sortedMatches)
      end
  end.

(** *** Requests and responses *)

Module StartBody.
Record t := mk {
  username : string;
  difficulty : option string;
  categories : option (list string)
}.
End StartBody.

Module MatchBody.
Record t := mk {
  gameId : string;
  card1Id : string;
  card2Id : string;
  matchTime : option Z
}.
End MatchBody.

Module CompleteBody.
Record t := mk {
  gameId : string;
  timeElapsed : Z;
  finalScore : option Z
}.
End CompleteBody.

(** A card as the start response shows it (no pair identifier). *)
Module PublicCard.
Record t := mk {
  id : string;
  position : option nat;
  emoji : string;
  name : string;
  category : string;
  isFlipped : bool;
  isMatched : bool
}.
End PublicCard.

(** The JSON bodies, without their decorative messages, the formatted
    accuracy and the achievements list. *)
Inductive Payload :=
| GameStarted (gameId difficulty : string) (cards : list PublicCard.t)
    (config : option Config.t)
| MatchProcessed (isMatch : bool) (pointsEarned score moves : Z)
    (matchesFound : nat) (isComplete : bool)
| GameCompleted (finalScore : Z) (scoreBreakdown : Breakdown.t)
    (timeElapsed totalMoves : Z) (matchesFound : nat) (difficulty : string)
| Failed (error : string).

Record Response := mkResponse { status : nat; payload : Payload }.

Definition failure (code : nat) (error : string) : IO Response :=
  ret (mkResponse code (Failed error)).

(** The metrics helper [updateGameMetrics] is never imported by the routes
    module: naming it throws inside the surrounding [try]. *)
Definition updateGameMetrics : IO unit :=
  throw "updateGameMetrics is not defined".

(** *** POST /start *)

Definition start (body : StartBody.t) : IO Response :=
  try_catch
    (let username := StartBody.username body in
     let difficulty := default "easy" (StartBody.difficulty body) in
     let categories := StartBody.categories body in
     let* user := createOrGetUser username in
     let* env := ask in
     let* (cards, _) :=
       lift (generateCardSet (Some difficulty) categories (random env)) in
     let* game := createGame (UserRow.id user) username difficulty in
     wrapped
       (cacheGameSession (GameRow.id game)
          (Session.mk (GameRow.id game) (UserRow.id user) username difficulty
             cards (now env) [] 0 0 false None None));;
     wrapped incrementDailyGames;;
     wrapped (trackUserActivity username "game_start");;
     updateLastPlayed (UserRow.id user);;
     ret (mkResponse 201
            (GameStarted (GameRow.id game) difficulty
               ((λ card,
                  PublicCard.mk (Card.id card) (Card.position card)
                    (Card.emoji card) (Card.name card) (Card.category card)
                    false false) <$> cards)
               (difficulties !! difficulty))))
    (λ error,
      console_log Error "Error starting game";;
      failure 500 "Failed to start game").

(** *** POST /match *)

(** [cards.find((card) => card.id === cardId)], with the index at which the
    card sits: the handler later writes through the reference it got. *)
Definition find_card (cardId : string) (cards : list Card.t)
  : option (nat * Card.t) :=
  list_find (λ card, Card.id card = cardId) cards.

(** The branch [if (isMatch) { ... }]: yields the session as mutated, the
    points and the bonus. *)
Definition score_match (body : MatchBody.t) (gameSession : Session.t)
    (i1 i2 : nat) (config : option Config.t) : IO (Session.t * Z * Z) :=
  match config with
  | None => throw "TypeError: Cannot read properties of undefined"
  | Some config =>
      let matchTime := MatchBody.matchTime body in
      let pointsEarned := Config.pointsPerMatch config in
      let bonusPoints :=
        match matchTime with
        | Some t =>
            if decide (t ≠ 0 ∧ t < Config.bonusTimeThreshold config)%Z
            then Config.bonusPoints config else 0%Z
        | None => 0%Z
        end in
      let cards :=
        alter (Card.set_isMatched true) i2
          (alter (Card.set_isMatched true) i1 (Session.cards gameSession)) in
      let gameSession := Session.set_cards cards gameSession in
      recordMatch (MatchBody.gameId body) (MatchBody.card1Id body)
        (MatchBody.card2Id body) (default 0%Z matchTime) pointsEarned
        bonusPoints;;
      let* env := ask in
      let gameSession :=
        Session.set_matches
          (Session.matches gameSession ++
           [MatchEvent.mk (MatchBody.card1Id body) (MatchBody.card2Id body)
              (default 0%Z matchTime) pointsEarned bonusPoints (now env)])
          gameSession in
      let gameSession :=
        Session.set_score
          (Session.score gameSession + (pointsEarned + bonusPoints))%Z
          gameSession in
      ret (gameSession, pointsEarned, bonusPoints)
  end.

(** The end of the handler, from the cache update on: three guarded
    steps, then the response. *)
Definition match_finish (body : MatchBody.t) (gameSession : Session.t)
    (isMatch : bool) (pointsEarned bonusPoints : Z) : IO Response :=
  try_catch
    (wrapped (cacheGameSession (MatchBody.gameId body) gameSession))
    (λ cacheError,
      console_log Warn "Cache update failed (non-critical)");;
  try_catch
    (wrapped
       (trackUserActivity (Session.username gameSession) "match_attempt");;
     ret tt)
    (λ activityError,
      console_log Warn "Activity tracking failed (non-critical)");;
  try_catch
    updateGameMetrics
    (λ metricsError,
      console_log Warn "Metrics update failed (non-critical)");;
  let matchedPairs := length (Session.matches gameSession) in
  let isGameComplete :=
    bool_decide (2 * matchedPairs = length (Session.cards gameSession)) in
  ret (mkResponse 200
         (MatchProcessed isMatch (pointsEarned + bonusPoints)%Z
            (Session.score gameSession) (Session.moves gameSession)
            matchedPairs isGameComplete)).

(** The handler once the session has been read from the cache. *)
Definition match_session (body : MatchBody.t) (gameSession : Session.t)
  : IO Response :=
  if Session.isCompleted gameSession
  then failure 400 "Game already completed"
  else
    match find_card (MatchBody.card1Id body) (Session.cards gameSession),
          find_card (MatchBody.card2Id body) (Session.cards gameSession) with
    | Some (i1, card1), Some (i2, card2) =>
        if Card.isMatched card1 || Card.isMatched card2
        then failure 400 "Cards already matched"
        else
          let isMatch := bool_decide (Card.pairId card1 = Card.pairId card2) in
          let config := difficulties !! Session.difficulty gameSession in
          let* (gameSession, pointsEarned, bonusPoints) :=
            if isMatch
            then score_match body gameSession i1 i2 config
            else ret (gameSession, 0%Z, 0%Z) in
          let gameSession :=
            Session.set_moves (Session.moves gameSession + 1)%Z gameSession in
          match_finish body gameSession isMatch pointsEarned bonusPoints
    | _, _ => failure 400 "Invalid card IDs"
    end.

(** What the handlers do with the value read under a session key:
    [null] and [0] are falsy; a value that is not a session has no
    [cards] or [matches] to read. *)
Definition with_session (cached : option CacheValue) (notFound : string)
    (k : Session.t → IO Response) : IO Response :=
  match cached with
  | None => failure 404 notFound
  | Some (VSession gameSession) => k gameSession
  | Some (VNumber n) =>
      if decide (n = 0%Z) then failure 404 notFound
      else throw "TypeError: Cannot read properties of undefined"
  | Some (VJson _) => throw "TypeError: Cannot read properties of undefined"
  end.

Definition match_ (body : MatchBody.t) : IO Response :=
  try_catch
    (let* cached := wrapped (getCachedGameSession (MatchBody.gameId body)) in
     with_session cached "Game session not found" (match_session body))
    (λ error,
      console_log Error "Error processing match";;
      failure 500 "Failed to process match").

(** *** POST /complete *)

(** The object [gameStats] built by the handler, and the session with its
    match list as [calculateConsecutiveMatches] leaves it. *)
Definition completion_stats (gameSession : Session.t) (timeElapsed : Z)
  : GameStats.t * Session.t :=
  let matchCount := Z.of_nat (length (Session.matches gameSession)) in
  let '(consecutiveMatches, sortedMatches) :=
    calculateConsecutiveMatches (Session.matches gameSession) in
  (GameStats.mk matchCount (Session.moves gameSession - matchCount)%Z
     timeElapsed (Some (Session.difficulty gameSession))
     (Some consecutiveMatches),
   Session.set_matches sortedMatches gameSession).

Definition complete_session (body : CompleteBody.t) (gameSession : Session.t)
  : IO Response :=
  if Session.isCompleted gameSession
  then failure 400 "Game already completed"
  else
    let gameId := CompleteBody.gameId body in
    let timeElapsed := CompleteBody.timeElapsed body in
    let '(gameStats, gameSession) := completion_stats gameSession timeElapsed in
    let* scoreBreakdown := lift (calculateScore gameStats) in
    let totalCardsMatched := length (Session.matches gameSession) in
    let* completedGame :=
      completeGame gameId (Score.totalScore scoreBreakdown)
        (Session.moves gameSession) timeElapsed (Z.of_nat totalCardsMatched) in
    let* env := ask in
    let gameSession := Session.set_isCompleted true gameSession in
    let gameSession :=
      Session.set_finalScore (Some (Score.totalScore scoreBreakdown))
        gameSession in
    let gameSession := Session.set_completedAt (Some (now env)) gameSession in
    wrapped (cacheGameSession gameId gameSession);;
    wrapped (redis_del ("user:stats:" +:+ Session.username gameSession));;
    wrapped (redis_del "leaderboard:top");;
    wrapped (trackUserActivity (Session.username gameSession) "game_complete");;
    try_catch
      updateGameMetrics
      (λ metricsError,
        console_log Warn "Game completion metrics failed (non-critical)");;
    ret (mkResponse 200
           (GameCompleted (Score.totalScore scoreBreakdown)
              (Score.breakdown scoreBreakdown) timeElapsed
              (Session.moves gameSession) totalCardsMatched
              (Session.difficulty gameSession))).

Definition complete (body : CompleteBody.t) : IO Response :=
  try_catch
    (let* cached := wrapped (getCachedGameSession (CompleteBody.gameId body)) in
     with_session cached "Game session not found" (complete_session body))
    (λ error,
      console_log Error "Error completing game";;
      failure 500 "Failed to complete game").

(** *** The server as a transition system *)

Inductive Request :=
| Start (body : StartBody.t)
| Match (body : MatchBody.t)
| Complete (body : CompleteBody.t).

Definition route (request : Request) : IO Response :=
  match request with
  | Start body => start body
  | Match body => match_ body
  | Complete body => complete body
  end.

(** The handlers catch everything, so a request always yields a response;
    the catch-all 500 covers the impossible remainder. *)
Definition handle (env : Env) (request : Request) (w : World)
  : Response * World :=
  match route request env w with
  | (Returned response, w') => (response, w')
  | (Thrown _, w') => (mkResponse 500 (Failed "Internal Server Error"), w')
  end.

(** A freshly deployed backend: nothing cached, no game played yet. *)
Definition fresh (w : World) : Prop :=
  redis w = ∅ ∧ Db.games (db w) = ∅ ∧ Db.game_matches (db w) = [].

Inductive reachable : World → Prop :=
| reachable_fresh w : fresh w → reachable w
| reachable_step w env request :
    reachable w → reachable (handle env request w).2.

(** The session cached for a game, if any. *)
Definition cached_session (w : World) (gameId : string) : option Session.t :=
  match redis w !! session_key gameId with
  | Some (VSession s) => Some s
  | _ => None
  end.

End Backend.

(** * Vocabulary of the specification and of the proofs *)

Import GameData Backend.

(** ** The streak, in the words of the specification *)

(** Matches in the order of their timestamps. *)
Definition by_timestamp (a b : MatchEvent.t) : Prop :=
  (MatchEvent.timestamp a ≤ MatchEvent.timestamp b)%Z.

(** The words of the specification: a run is a sequence of matches each of
    which lies within 30000 milliseconds of the one before it. *)
Definition within_gap (a b : MatchEvent.t) : Prop :=
  (Z.abs (MatchEvent.timestamp b - MatchEvent.timestamp a) ≤ 30000)%Z.

Fixpoint is_run (l : list MatchEvent.t) : Prop :=
  match l with
  | [] => True
  | a :: rest =>
      match rest with [] => True | b :: _ => within_gap a b end ∧ is_run rest
  end.

(** [n] is the length of the longest run among the contiguous stretches of
    [l]. *)
Definition longest_run (l : list MatchEvent.t) (n : Z) : Prop :=
  (∃ before run after,
      l = before ++ run ++ after ∧ is_run run ∧ Z.of_nat (length run) = n) ∧
  (∀ before run after,
      l = before ++ run ++ after → is_run run → (Z.of_nat (length run) ≤ n)%Z).

(** ** Numbers

    JavaScript computes in double-precision floating point, the model in
    exact integers and rationals.  The two agree as long as every
    intermediate value is a whole or half number below 2^53.  The score
    calculator multiplies an input by at most 25, by 1.5 and by 3, and adds
    a handful of terms: with inputs of magnitude at most 2^45 every value
    it computes stays below 2^52. *)
Definition within_double_precision (gameStats : GameStats.t) : Prop :=
  (Z.abs (GameStats.matches gameStats) ≤ 2 ^ 45)%Z ∧
  (Z.abs (GameStats.wrongMoves gameStats) ≤ 2 ^ 45)%Z ∧
  (Z.abs (GameStats.timeElapsed gameStats) ≤ 2 ^ 45)%Z ∧
  (Z.abs (default 0%Z (GameStats.consecutiveMatches gameStats)) ≤ 2 ^ 45)%Z.

(** ** Running a request *)

(** [wp m env w Q]: running [m] in world [w] ends in a completion and a
    world that satisfy [Q]. *)
Definition wp {A} (m : IO A) (env : Env) (w : World)
    (Q : Completion A → World → Prop) : Prop :=
  Q (m env w).1 (m env w).2.

(** The counter a key holds, as INCR reads it. *)
Definition counter_at (r : gmap string CacheValue) (key : string) : option Z :=
  match r !! key with
  | None => Some 0%Z
  | Some (VNumber n) => Some n
  | Some _ => None
  end.

(** The row and the tables after a successful completion write. *)
Definition completed_row (old : GameRow.t)
    (score moves timeElapsed cardsMatched : Z) : GameRow.t :=
  GameRow.mk (GameRow.id old) (GameRow.user_id old) (GameRow.username old)
    score moves timeElapsed cardsMatched (GameRow.difficulty_level old) true.

(** ** Reading a session *)

(** The cache answers the lookup of a session: the client is, or gets,
    connected and the GET command goes through. *)
Definition cache_answers (env : Env) (w : World) (gameId : string) : Prop :=
  (isOpen w = true ∨ connect_fails env = false) ∧
  redis_fails env (OpGet (session_key gameId)) = false.

Definition conflict : Response := mkResponse 400 (Failed "Game already completed").

(** The handlers' common beginning: reading the session from the cache. *)
Definition not_read (env : Env) (r : gmap string CacheValue) (o : bool)
    (gameId : string) : Prop :=
  ∀ gameSession,
    o = true ∨ connect_fails env = false →
    redis_fails env (OpGet (session_key gameId)) = false →
    r !! session_key gameId ≠ Some (VSession gameSession).

(** A request on a session whose completion flag is set. *)
Definition targets (request : Request) (gameId : string) : Prop :=
  match request with
  | Start _ => False
  | Match body => MatchBody.gameId body = gameId
  | Complete body => CompleteBody.gameId body = gameId
  end.

Definition completed_in_cache (w : World) (gameId : string) : Prop :=
  ∃ gameSession,
    redis w !! session_key gameId = Some (VSession gameSession) ∧
    Session.isCompleted gameSession = true.

(** ** What a completion request can do *)

Definition activity_key (env : Env) (username action : string) : string :=
  "activity:" +:+ username +:+ ":" +:+ action +:+ ":"
    +:+ String.substring 0 13 (now_iso env).

(** The session as the handler writes it back once the score is stored. *)
Definition finalized (env : Env) (gameSession : Session.t) (total : Z)
  : Session.t :=
  Session.set_completedAt (Some (now env))
    (Session.set_finalScore (Some total)
       (Session.set_isCompleted true gameSession)).

Definition completion_response (body : CompleteBody.t)
    (gameSession : Session.t) (score : Score.t) : Response :=
  mkResponse 200
    (GameCompleted (Score.totalScore score) (Score.breakdown score)
       (CompleteBody.timeElapsed body) (Session.moves gameSession)
       (length (Session.matches gameSession)) (Session.difficulty gameSession)).

(** The cache phase of a completion: the session is written, two
    snapshots are dropped, the activity counter is bumped; the first
    failure ends the request. *)
Inductive cache_phase (env : Env) (gameId : string) (final : Session.t)
    (response : Response) (r : gmap string CacheValue)
  : Completion Response → gmap string CacheValue → Prop :=
| phase_set_fails e :
    redis_fails env (OpSet (session_key gameId)) = true →
    cache_phase env gameId final response r (Thrown e) r
| phase_del_stats_fails e :
    let r1 := <[session_key gameId := VSession final]> r in
    redis_fails env (OpSet (session_key gameId)) = false →
    redis_fails env (OpDel ("user:stats:" +:+ Session.username final)) = true →
    cache_phase env gameId final response r (Thrown e) r1
| phase_del_leaderboard_fails e :
    let r1 := <[session_key gameId := VSession final]> r in
    let r2 := delete ("user:stats:" +:+ Session.username final) r1 in
    redis_fails env (OpSet (session_key gameId)) = false →
    redis_fails env (OpDel ("user:stats:" +:+ Session.username final)) = false →
    redis_fails env (OpDel "leaderboard:top") = true →
    cache_phase env gameId final response r (Thrown e) r2
| phase_tracking_fails e :
    let r1 := <[session_key gameId := VSession final]> r in
    let r2 := delete ("user:stats:" +:+ Session.username final) r1 in
    let r3 := delete "leaderboard:top" r2 in
    let key := activity_key env (Session.username final) "game_complete" in
    redis_fails env (OpSet (session_key gameId)) = false →
    redis_fails env (OpDel ("user:stats:" +:+ Session.username final)) = false →
    redis_fails env (OpDel "leaderboard:top") = false →
    redis_fails env (OpExpire key) = true ∨
    redis_fails env (OpIncr key) = true ∨ counter_at r3 key = None →
    cache_phase env gameId final response r (Thrown e) r3
| phase_done n :
    let r1 := <[session_key gameId := VSession final]> r in
    let r2 := delete ("user:stats:" +:+ Session.username final) r1 in
    let r3 := delete "leaderboard:top" r2 in
    let key := activity_key env (Session.username final) "game_complete" in
    redis_fails env (OpSet (session_key gameId)) = false →
    redis_fails env (OpDel ("user:stats:" +:+ Session.username final)) = false →
    redis_fails env (OpDel "leaderboard:top") = false →
    redis_fails env (OpExpire key) = false →
    redis_fails env (OpIncr key) = false →
    counter_at r3 key = Some n →
    cache_phase env gameId final response r (Returned response)
      (<[key := VNumber (n + 1)]> r3).

(** The outcomes of [complete_session]: completion, final cache and final
    database. *)
Inductive complete_outcome (env : Env) (body : CompleteBody.t)
    (gameSession : Session.t) (r : gmap string CacheValue) (d : Db.t)
  : Completion Response → gmap string CacheValue → Db.t → Prop :=
| outcome_conflict :
    Session.isCompleted gameSession = true →
    complete_outcome env body gameSession r d (Returned conflict) r d
| outcome_score_throws e :
    Session.isCompleted gameSession = false →
    calculateScore
      (completion_stats gameSession (CompleteBody.timeElapsed body)).1
      = Thrown e →
    complete_outcome env body gameSession r d (Thrown e) r d
| outcome_store_fails e score :
    let sorted :=
      (completion_stats gameSession (CompleteBody.timeElapsed body)).2 in
    Session.isCompleted gameSession = false →
    calculateScore
      (completion_stats gameSession (CompleteBody.timeElapsed body)).1
      = Returned score →
    3 ≤ pool_failures env KUpdateGameCompleted ∨
    Db.games d !! CompleteBody.gameId body = None ∨
    pool_execute env
      (UpdateGameCompleted (CompleteBody.gameId body) (Score.totalScore score)
         (Session.moves sorted) (CompleteBody.timeElapsed body)
         (Z.of_nat (length (Session.matches sorted)))) d = None →
    complete_outcome env body gameSession r d (Thrown e) r d
| outcome_stored score old res r' :
    let sorted :=
      (completion_stats gameSession (CompleteBody.timeElapsed body)).2 in
    let new :=
      completed_row old (Score.totalScore score) (Session.moves sorted)
        (CompleteBody.timeElapsed body)
        (Z.of_nat (length (Session.matches sorted))) in
    Session.isCompleted gameSession = false →
    calculateScore
      (completion_stats gameSession (CompleteBody.timeElapsed body)).1
      = Returned score →
    pool_failures env KUpdateGameCompleted < 3 →
    Db.games d !! CompleteBody.gameId body = Some old →
    cache_phase env (CompleteBody.gameId body)
      (finalized env sorted (Score.totalScore score))
      (completion_response body sorted score) r res r' →
    complete_outcome env body gameSession r d res r'
      (Db.mk (update_user_stats old new (Db.users d))
             (<[CompleteBody.gameId body := new]> (Db.games d))
             (Db.game_matches d)).

Definition response_of (fallback : string) (res : Completion Response)
  : Response :=
  match res with
  | Returned response => response
  | Thrown _ => mkResponse 500 (Failed fallback)
  end.

(** ** Invariants of the cached sessions *)

(** A session found under [key]: it sits under its own identifier, has at
    least as many moves as matches, belongs to a stored game of a known
    tier, and if it is marked completed so is its row. *)
Definition session_ok (d : Db.t) (key : string) (s : Session.t) : Prop :=
  key = session_key (Session.gameId s) ∧
  (Z.of_nat (length (Session.matches s)) ≤ Session.moves s)%Z ∧
  is_Some (difficulties !! Session.difficulty s) ∧
  ∃ row, Db.games d !! Session.gameId s = Some row ∧
         (Session.isCompleted s = true → GameRow.game_completed row = true).

Definition cache_ok (r : gmap string CacheValue) (d : Db.t) : Prop :=
  ∀ key value, r !! key = Some value →
    match value with
    | VSession s => session_ok d key s
    | VNumber _ => True
    | VJson _ => False
    end.

(** Completion flags that are set stay set. *)
Definition flags_kept (r r' : gmap string CacheValue) : Prop :=
  ∀ g s, r !! session_key g = Some (VSession s) →
         Session.isCompleted s = true →
         ∃ s', r' !! session_key g = Some (VSession s') ∧
               Session.isCompleted s' = true.

(** Rows are never deleted, and a completed row stays completed. *)
Definition db_grows (d d' : Db.t) : Prop :=
  ∀ g row, Db.games d !! g = Some row →
    ∃ row', Db.games d' !! g = Some row' ∧
            (GameRow.game_completed row = true →
             GameRow.game_completed row' = true).

Definition step_ok (r : gmap string CacheValue) (d : Db.t)
    (r' : gmap string CacheValue) (d' : Db.t) : Prop :=
  cache_ok r d → cache_ok r' d' ∧ flags_kept r r' ∧ db_grows d d'.

(** Postconditions that only look at the cache and the tables. *)
Definition on_state {A} (P : gmap string CacheValue → Db.t → Prop)
  : Completion A → World → Prop :=
  λ _ w', P (redis w') (db w').

(** ** A concrete deployment, for running the routes *)

Definition demo_env : Env :=
  mkEnv (λ _, false) false (λ _, 0) "user-1" "game-1" 1700000000000
        "2023-11-14T22:13:20.000Z" (λ n, Random.mk (7 * n + 3) 10).

Definition blank : World := mkWorld ∅ false (Db.mk ∅ ∅ []) [].

Definition demo_start : Request :=
  Start (StartBody.mk "alice" (Some "easy") None).

Definition demo_complete : CompleteBody.t := CompleteBody.mk "game-1" 60000 None.

(** The world after alice has started game-1, and after she has completed
    it without playing. *)
Definition started : World := (handle demo_env demo_start blank).2.

Definition finished : World := (handle demo_env (Complete demo_complete) started).2.

(** A hand-made world: one session of two cards, the first one matched. *)
Definition tiny_session : Session.t :=
  Session.mk "game-0" "user-0" "bob" "easy"
    [ Card.mk "wink_1" "wink" "😉" "Winking Face" "classic" false true (Some 0);
      Card.mk "wink_2" "wink" "😉" "Winking Face" "classic" false false (Some 1) ]
    1700000000000 [] 0 0 false None None.

Definition tiny_world : World :=
  mkWorld {[ session_key "game-0" := VSession tiny_session ]} true
          (Db.mk ∅ ∅ []) [].

(** The session the cache holds for game-1 once started. *)
Definition started_session : Session.t :=
  Eval vm_compute in default tiny_session (cached_session started "game-1").

(** A played game: alice finds the pair of tacos, then turns two cards
    that do not match, then completes the game. *)
Definition demo_pair : Request :=
  Match (MatchBody.mk "game-1" "taco_1" "taco_2" (Some 5000%Z)).

Definition demo_miss : Request :=
  Match (MatchBody.mk "game-1" "alien_1" "donut_1" None).

Definition played : World :=
  (handle demo_env demo_miss (handle demo_env demo_pair started).2).2.

Definition played_out : World :=
  (handle demo_env (Complete demo_complete) played).2.

(** The session the cache holds for game-1 once played and completed. *)
Definition played_session : Session.t :=
  Eval vm_compute in
    default tiny_session (cached_session played_out "game-1").


Definition tracking_down : Env :=
  mkEnv (λ op, match op with
               | OpIncr key => String.prefix "activity:" key
               | _ => false
               end)
        false (pool_failures demo_env)
        (uuid_user demo_env) (uuid_game demo_env) (now demo_env)
        (now_iso demo_env) (random demo_env).

(** Nothing around the request fails. *)
Definition no_faults (env : Env) : Prop :=
  connect_fails env = false ∧
  (∀ op, redis_fails env op = false) ∧
  pool_failures env KUpdateGameCompleted < 3.

(** The limits within which the completion of a session is stored: the
    body is one the route's validation lets through (an elapsed time of one
    second to thirty minutes and, if a final score is sent, one between 0
    and 1000), the move counter is below 2^24, which keeps the score below
    2^30, and every user's totals are below 2^30 in magnitude, which leaves
    the trigger room for one more game in its INTEGER columns. *)
Definition within_limits (w : World) (body : CompleteBody.t) (s : Session.t)
  : Prop :=
  (1000 ≤ CompleteBody.timeElapsed body ≤ 1800000)%Z ∧
  match CompleteBody.finalScore body with
  | Some finalScore => (0 ≤ finalScore ≤ 1000)%Z
  | None => True
  end ∧
  (Session.moves s < 16777216)%Z ∧
  map_Forall
    (λ _ user,
      (Z.abs (UserRow.total_games user) < 1073741824)%Z ∧
      (Z.abs (UserRow.total_score user) < 1073741824)%Z)
    (Db.users (db w)).

(** * The rest of the game data generator *)

Module Generator.

(** ** successMessages and failureMessages *)

Definition successMessages : list string :=
  [ "🎉 Perfect match! Your memory is on fire! 🔥";
    "💫 Brilliant! You're basically a memory wizard! 🧙‍♂️";
    "🏆 Match made in heaven! Well, actually in your brain! 🧠";
    "⚡ Lightning fast! The cards are trembling! 😱";
    "🎯 Bulls-eye! Your memory skills are legendary! 📜";
    "🚀 To the moon! That match was astronomical! 🌙";
    "🔥 Hot streak! You're unstoppable! 💪";
    "💎 Diamond quality match! Sparkling performance! ✨";
    "🎪 Circus-level skills! The crowd goes wild! 👏";
    "🦸‍♀️ Super match! You're a memory superhero! 🦸‍♂️";
    "🎨 Masterpiece! Picasso would be proud! 🖼️";
    "🍕 Delicious match! Tastier than pizza! (Almost) 😋";
    "🎵 Music to our ears! That match was pitch perfect! 🎶";
    "🌟 Star quality! Hollywood is calling! 📞";
    "🏃‍♂️ Speed demon! Faster than a cheetah! 🐆" ].

Definition failureMessages : list string :=
  [ "🤔 Oops! Those cards are just friends, not twins! 👯‍♀️";
    "😅 So close! But no cigar... or match! 🚭";
    "🙈 Miss! Even the cards are giggling! 🤭";
    "🎯 Almost! You're getting warmer... well, lukewarm! 🌡️";
    "🔍 Detective mode needed! Those cards are hiding! 🕵️‍♀️";
    "🎪 Plot twist! The cards decided to be different! 🎭";
    "🍀 Better luck next flip! The cards are feeling shy! 😊";
    "🎲 Roll again! Fortune favors the persistent! 🔄";
    "🌊 Wave goodbye to that attempt! Next one's the charm! 👋";
    "🎈 Pop! That wasn't a match, but don't deflate! 🎈";
    "🐾 Paws for thought... try a different pair! 🐱";
    "🎨 Abstract art! Beautiful attempt, wrong match! 🖌️";
    "🚂 All aboard the try-again train! Choo choo! 🚂";
    "🌙 Moonshot! Aim for the stars next time! ⭐";
    "🎃 Trick, not treat! But keep going! 🍬" ].

(** [list[Math.floor(Math.random() * list.length)]]: [None] stands for
    [undefined], the value of an index outside the array. *)
Definition random_element {A} (list : list A) (g : Random.rng)
  : option A * Random.rng :=
  let '(r, g) := Random.next g in
  (list !! Random.floor_times r (length list), g).

Definition getRandomSuccessMessage (g : Random.rng)
  : option string * Random.rng :=
  random_element successMessages g.

Definition getRandomFailureMessage (g : Random.rng)
  : option string * Random.rng :=
  random_element failureMessages g.

(** ** getRandomEmojiByCategory *)

Inductive Picked :=
| Null                                   (* [null]: no emoji of the category *)
| Element (emoji : option Emoji.t).      (* the array element read *)

Definition getRandomEmojiByCategory (category : string) (g : Random.rng)
  : Picked * Random.rng :=
  let categoryEmojis :=
    filter (λ emoji, Emoji.category emoji = category) emojiPairs in
  if decide (length categoryEmojis = 0) then (Null, g)
  else
    let '(emoji, g) := random_element categoryEmojis g in
    (Element emoji, g).

(** ** getPerformanceRating

    The percentage is a quotient of whole numbers and is kept exact.  For
    the four tiers and every whole score that a double holds exactly (up to
    2^53 in magnitude) the percentage computed in doubles lies on the same
    side of each of the five thresholds as the exact one. *)

Module Rating.
Record t := mk { level : string; emoji : string; message : string }.
End Rating.

Definition getPerformanceRating (score : Z) (difficulty : string)
  : Completion Rating.t :=
  match difficulties !! difficulty with
  | None => Thrown "TypeError: Cannot read properties of undefined"
  | Some config =>
      let maxPossibleScore :=
        (inject_Z (Z.of_nat (Config.cardCount config)) / 2
           * inject_Z (Config.pointsPerMatch config)
         + inject_Z (Config.bonusPoints config)
         + inject_Z (Scoring.perfectGameBonus scoring))%Q in
      let percentage :=
        Qmin 100 (inject_Z score / maxPossibleScore * 100)%Q in
      Returned
        (if Qle_bool 90 percentage
         then Rating.mk "Legendary" "🏆" "Memory Master!"
         else if Qle_bool 80 percentage
         then Rating.mk "Excellent" "⭐" "Outstanding!"
         else if Qle_bool 70 percentage
         then Rating.mk "Great" "🎯" "Well done!"
         else if Qle_bool 60 percentage
         then Rating.mk "Good" "👍" "Nice job!"
         else if Qle_bool 50 percentage
         then Rating.mk "Average" "😊" "Keep trying!"
         else Rating.mk "Practice" "💪" "You'll get it!")
  end.

(** The [rating] field of the object [calculateScore] returns. *)
Definition score_rating (gameStats : GameStats.t) : Completion Rating.t :=
  match calculateScore gameStats with
  | Returned score =>
      getPerformanceRating (Score.totalScore score)
        (default "easy" (GameStats.difficulty gameStats))
  | Thrown e => Thrown e
  end.

(** ** getCategories *)

(** [[...new Set(array)]]: the distinct elements in the order of their
    first occurrence. *)
Definition distinct (array : list string) : list string :=
  foldl (λ set x, if decide (x ∈ set) then set else set ++ [x]) [] array.

(** [categories.sort()] orders strings by their code units. *)
Definition getCategories : list string :=
  let categories := distinct (Emoji.category <$> emojiPairs) in
  merge_sort String.le categories.

End Generator.

(** ** Vocabulary for the properties of the generator *)

(** The ratings from worst to best. *)
Definition ladder : list string :=
  ["Practice"; "Average"; "Good"; "Great"; "Excellent"; "Legendary"].

Definition maxPossibleScore (config : Config.t) : Q :=
  (inject_Z (Z.of_nat (Config.cardCount config)) / 2
     * inject_Z (Config.pointsPerMatch config)
   + inject_Z (Config.bonusPoints config)
   + inject_Z (Scoring.perfectGameBonus scoring))%Q.

Definition percentage (config : Config.t) (score : Z) : Q :=
  Qmin 100 (inject_Z score / maxPossibleScore config * 100)%Q.

(** The rung of the ladder a percentage reaches. *)
Definition rung (p : Q) : nat :=
  if Qle_bool 90 p then 5
  else if Qle_bool 80 p then 4
  else if Qle_bool 70 p then 3
  else if Qle_bool 60 p then 2
  else if Qle_bool 50 p then 1
  else 0.

(** The emojis that a category filter asks for. *)
Definition requested (categories : option (list string)) : list Emoji.t :=
  match categories with
  | Some (c :: cs) => filter (λ e, Emoji.category e ∈ c :: cs) emojiPairs
  | _ => emojiPairs
  end.

(** * The rest of the game routes *)

Module GameRoutes.

(** ** checkAchievements *)

Module Achievement.
Record t := mk {
  title : string;
  description : string;
  icon : string;
  rarity : string
}.
End Achievement.

(** [achievements.push(...)] under each of the four conditions, in the
    order of the source. *)
Definition checkAchievements (gameSession : Session.t)
    (scoreBreakdown : Score.t) : list Achievement.t :=
  let breakdown := Score.breakdown scoreBreakdown in
  let achievements := [] in
  let achievements :=
    if decide (0 < Breakdown.perfectGameBonus breakdown)%Z
    then achievements ++
         [Achievement.mk "Perfect Memory! 🧠"
            "Completed without any wrong moves!" "🏆" "legendary"]
    else achievements in
  let achievements :=
    if decide (0 < Breakdown.speedBonus breakdown)%Z
    then achievements ++
         [Achievement.mk "Speed Demon! ⚡" "Completed in record time!" "🚀"
            "rare"]
    else achievements in
  let achievements :=
    if decide (0 < Breakdown.streakBonus breakdown)%Z
    then achievements ++
         [Achievement.mk "Streak Master! 🔥" "Amazing consecutive matches!"
            "🌟" "epic"]
    else achievements in
  let achievements :=
    if decide (Session.moves gameSession
               ≤ Z.of_nat (length (Session.matches gameSession)) + 2)%Z
    then achievements ++
         [Achievement.mk "Sharp Mind! 🎯" "Excellent accuracy on this game!"
            "💎" "uncommon"]
    else achievements in
  achievements.

(** The [achievements] field of the response of POST /complete: the
    handler passes the session, its matches sorted by the streak
    calculation, and the score it has just computed. *)
Definition completion_achievements (gameSession : Session.t)
    (timeElapsed : Z) : Completion (list Achievement.t) :=
  let '(gameStats, gameSession) := completion_stats gameSession timeElapsed in
  match calculateScore gameStats with
  | Returned scoreBreakdown =>
      Returned (checkAchievements gameSession scoreBreakdown)
  | Thrown e => Thrown e
  end.

End GameRoutes.

(** * The validation middleware *)

Module Validation.

(** ** createRateLimiter

    The limiter keeps, in the [Map] of its closure, the times of the
    requests it has let through for each key; that map is the state passed
    from one request to the next. *)

Inductive Verdict :=
| Next               (* [next()] *)
| TooManyRequests.   (* the 429 response *)

(** [req.body[identifier] || req.ip], for a body field that is a string or
    is missing. *)
Definition limiter_key (field : option string) (ip : string) : string :=
  match field with
  | Some value => if decide (value = EmptyString) then ip else value
  | None => ip
  end.

Definition rateLimiter (maxRequests windowMs : Z) (key : string) (now : Z)
    (requests : gmap string (list Z)) : Verdict * gmap string (list Z) :=
  let requests :=
    if decide (is_Some (requests !! key)) then requests
    else <[key := []]> requests in
  let userRequests := default [] (requests !! key) in
  let validRequests :=
    filter (λ timestamp, (now - timestamp < windowMs)%Z) userRequests in
  if decide (maxRequests ≤ Z.of_nat (length validRequests))%Z
  then (TooManyRequests, requests)
  else (Next, <[key := validRequests ++ [now]]> requests).

End Validation.

(** The limiter serving a sequence of requests, each with its key and the
    time at which it arrives: the final map and the requests let through,
    in order. *)
Definition limiter_step (maxRequests windowMs : Z)
    (state : gmap string (list Z) * list (string * Z)) (request : string * Z)
  : gmap string (list Z) * list (string * Z) :=
  let '(requests, passed) := state in
  let '(key, now) := request in
  match Validation.rateLimiter maxRequests windowMs key now requests with
  | (Validation.Next, requests) => (requests, passed ++ [request])
  | (Validation.TooManyRequests, requests) => (requests, passed)
  end.

Definition limiter_run (maxRequests windowMs : Z)
    (history : list (string * Z))
  : gmap string (list Z) * list (string * Z) :=
  foldl (limiter_step maxRequests windowMs) (∅, []) history.

(** The requests of [key] among [passed] that lie less than [windowMs]
    before [now]. *)
Definition recent (windowMs : Z) (key : string) (now : Z)
    (passed : list (string * Z)) : list (string * Z) :=
  filter (λ request, request.1 = key ∧ (now - request.2 < windowMs)%Z) passed.

(** ** What a match request leaves behind *)







(** ** What a start request leaves behind *)

(** The row of a user created by [createOrGetUser]. *)
Definition new_user (env : Env) (username : string) : UserRow.t :=
  UserRow.mk (uuid_user env) username username 0 0 0 None.

(** The session cached for a game that has just been started. *)
Definition new_session (env : Env) (user : UserRow.t) (username : string)
    (difficulty : string) (deck : list Card.t) : Session.t :=
  Session.mk (uuid_game env) (UserRow.id user) username difficulty deck
    (now env) [] 0 0 false None None.

(** A card as the start response shows it. *)
Definition public (card : Card.t) : PublicCard.t :=
  PublicCard.mk (Card.id card) (Card.position card) (Card.emoji card)
    (Card.name card) (Card.category card) false false.


(** * Properties of the score calculator *)

Section Score.
Local Open Scope Z_scope.

Lemma difficulties_lookup (difficulty : string) (config : Config.t) :
  difficulties !! difficulty = Some config →
  config = easy ∨ config = medium ∨ config = hard ∨ config = expert.
Proof.
  unfold difficulties. intros Hlookup.
  repeat (rewrite lookup_insert in Hlookup; case_decide;
          [simplify_eq; by auto|]).
  by rewrite lookup_empty in Hlookup.
Qed.

(** The comparison with half the time limit, on integers. *)
Lemma under_half_limit (timeElapsed timeLimit : Z) :
  (inject_Z timeElapsed < inject_Z timeLimit * 0.5)%Q ↔ 2 * timeElapsed < timeLimit.
Proof.
  unfold Qlt, Qmult, inject_Z. simpl. lia.
Qed.

(** [Math.floor(base * 1.5)], on integers. *)
Lemma floor_three_halves (base : Z) :
  Qfloor (inject_Z base * Scoring.speedBonusMultiplier scoring) = (3 * base) `div` 2.
Proof.
  unfold Qfloor, Qmult, inject_Z, scoring. simpl.
  replace (base * 15) with ((3 * base) * 5) by lia.
  change (Z.pos (1 * 10)) with (2 * 5).
  rewrite Z.div_mul_cancel_r by lia. reflexivity.
Qed.

(** The score calculator in closed form. *)
Lemma calculateScore_closed_form (gameStats : GameStats.t) (config : Config.t) :
  difficulties !! default "easy"%string (GameStats.difficulty gameStats)
    = Some config →
  let matchCount := GameStats.matches gameStats in
  let wrongMoveCount := GameStats.wrongMoves gameStats in
  let timeElapsed := GameStats.timeElapsed gameStats in
  let streak := default 0 (GameStats.consecutiveMatches gameStats) in
  ∃ result,
    calculateScore gameStats = Returned result ∧
    let b := Score.breakdown result in
    Breakdown.baseScore b = matchCount * Config.pointsPerMatch config ∧
    Breakdown.speedBonus b
      = (if Qlt_le_dec (inject_Z timeElapsed)
                       (inject_Z (Config.timeLimit config) * 0.5)
         then Qfloor (inject_Z (matchCount * Config.pointsPerMatch config)
                      * Scoring.speedBonusMultiplier scoring)
         else 0) ∧
    Breakdown.perfectGameBonus b
      = (if decide (wrongMoveCount = 0) then 50 else 0) ∧
    Breakdown.streakBonus b
      = (if decide (3 ≤ streak) then Z.min (streak * 3) 30 else 0) ∧
    Breakdown.penalties b = Z.max 0 (wrongMoveCount - 2) * 2 ∧
    Score.totalScore result
      = Z.max 0 (matchCount * Config.pointsPerMatch config
                 + Breakdown.speedBonus b
                 + Breakdown.perfectGameBonus b
                 + Breakdown.streakBonus b
                 - Breakdown.penalties b).
Proof.
  intros Hconfig matchCount wrongMoveCount timeElapsed streak.
  unfold calculateScore. rewrite Hconfig.
  unfold add_speed_bonus, add_perfect_game_bonus, add_streak_bonus,
    subtract_penalties.
  fold matchCount wrongMoveCount timeElapsed streak.
  destruct (Qlt_le_dec _ _); destruct (decide (wrongMoveCount = 0));
    destruct (decide (3 ≤ streak)); simpl;
    (eexists; split; [reflexivity|]); simpl;
    repeat split; try reflexivity; lia.
Qed.

(** C1. For every recognised tier and all inputs of magnitude at most
    2^45 (where the exact arithmetic of the model is the floating-point
    arithmetic of the code), [calculateScore] returns, and its total
    is the sum of base score, speed bonus, perfect-game bonus and streak
    bonus minus the penalty, clamped at zero: the perfect-game bonus is 50
    exactly when there is no wrong move and 0 otherwise, the streak bonus
    is min(streak * 3, 30) exactly when the streak is at least 3 and 0
    otherwise, the penalty is max(0, wrongMoves - 2) * 2, and the total is
    never negative. *)
Theorem calculateScore_total (gameStats : GameStats.t) (config : Config.t) :
  difficulties !! default "easy"%string (GameStats.difficulty gameStats)
    = Some config →
  within_double_precision gameStats →
  let matchCount := GameStats.matches gameStats in
  let wrongMoveCount := GameStats.wrongMoves gameStats in
  let streak := default 0 (GameStats.consecutiveMatches gameStats) in
  ∃ result,
    calculateScore gameStats = Returned result ∧
    let b := Score.breakdown result in
    Breakdown.baseScore b = matchCount * Config.pointsPerMatch config ∧
    Breakdown.perfectGameBonus b
      = (if decide (wrongMoveCount = 0) then 50 else 0) ∧
    Breakdown.streakBonus b
      = (if decide (3 ≤ streak) then Z.min (streak * 3) 30 else 0) ∧
    Breakdown.penalties b = Z.max 0 (wrongMoveCount - 2) * 2 ∧
    Score.totalScore result
      = Z.max 0 (matchCount * Config.pointsPerMatch config
                 + Breakdown.speedBonus b
                 + Breakdown.perfectGameBonus b
                 + Breakdown.streakBonus b
                 - Breakdown.penalties b) ∧
    0 ≤ Score.totalScore result.
Proof.
  intros Hconfig _ matchCount wrongMoveCount streak.
  destruct (calculateScore_closed_form gameStats config Hconfig)
    as (result & Hrun & Hbase & _ & Hperfect & Hstreak & Hpenalty & Htotal).
  exists result. split; [exact Hrun|]. simpl.
  repeat split; try done. rewrite Htotal. lia.
Qed.

Lemma calculateScore_total_witness :
  ∃ result,
    calculateScore (GameStats.mk 8 3 100000 (Some "easy"%string) (Some 4))
      = Returned result ∧
    Score.totalScore result = 80 + 120 + 0 + 12 - 2.
Proof.
  destruct (calculateScore_total
              (GameStats.mk 8 3 100000 (Some "easy"%string) (Some 4)) easy)
    as (result & Hrun & _ & Hperfect & Hstreak & Hpenalty & Htotal & _).
  - reflexivity.
  - unfold within_double_precision. simpl. lia.
  - exists result. split; [exact Hrun|].
    vm_compute in Hrun. injection Hrun as <-. reflexivity.
Defined.

(** C5, as the code has it. For inputs of magnitude at most 2^45 (where
    the exact arithmetic of the model is the floating-point arithmetic of
    the code), the speed bonus is granted exactly when
    [timeElapsed < timeLimit * 0.5]; it is then the FLOOR of
    base * 1.5 (which is (3 * base) div 2), not base * 1.5 itself, and it
    is 0 otherwise; the total contains exactly that amount. *)
Theorem calculateScore_speed_bonus (gameStats : GameStats.t) (config : Config.t) :
  difficulties !! default "easy"%string (GameStats.difficulty gameStats)
    = Some config →
  within_double_precision gameStats →
  let base := GameStats.matches gameStats * Config.pointsPerMatch config in
  let timeElapsed := GameStats.timeElapsed gameStats in
  ∃ result,
    calculateScore gameStats = Returned result ∧
    let b := Score.breakdown result in
    Breakdown.speedBonus b
      = (if Qlt_le_dec (inject_Z timeElapsed)
                       (inject_Z (Config.timeLimit config) * 0.5)
         then Qfloor (inject_Z base * Scoring.speedBonusMultiplier scoring)
         else 0) ∧
    Breakdown.speedBonus b
      = (if decide (2 * timeElapsed < Config.timeLimit config)
         then (3 * base) `div` 2 else 0) ∧
    Score.totalScore result
      = Z.max 0 (base + Breakdown.speedBonus b
                 + Breakdown.perfectGameBonus b
                 + Breakdown.streakBonus b
                 - Breakdown.penalties b).
Proof.
  intros Hconfig _ base timeElapsed.
  destruct (calculateScore_closed_form gameStats config Hconfig)
    as (result & Hrun & _ & Hspeed & _ & _ & _ & Htotal).
  exists result. split; [exact Hrun|]. simpl.
  fold base timeElapsed in Hspeed.
  split; [exact Hspeed|]. split; [|exact Htotal].
  rewrite Hspeed.
  destruct (Qlt_le_dec _ _) as [Hlt|Hge]; case_decide as Hz; try reflexivity.
  - apply floor_three_halves.
  - apply under_half_limit in Hlt. lia.
  - apply Qle_not_lt in Hge. exfalso. apply Hge. by apply under_half_limit.
Qed.

Lemma calculateScore_speed_bonus_witness :
  ∃ result,
    calculateScore (GameStats.mk 1 0 1000 (Some "medium"%string) None)
      = Returned result ∧
    Breakdown.speedBonus (Score.breakdown result) = 22.
Proof.
  destruct (calculateScore_speed_bonus
              (GameStats.mk 1 0 1000 (Some "medium"%string) None) medium)
    as (result & Hrun & _ & Hspeed & _).
  - reflexivity.
  - unfold within_double_precision. simpl. lia.
  - exists result. split; [exact Hrun|]. rewrite Hspeed. reflexivity.
Defined.

(** C5 as stated fails: one match on the medium tier, finished in one
    second, has base 15; the bonus granted is 22, which is not 15 * 1.5. *)
Lemma speed_bonus_is_not_base_times_multiplier :
  ∃ result,
    calculateScore (GameStats.mk 1 0 1000 (Some "medium"%string) None)
      = Returned result ∧
    (inject_Z 1000 < inject_Z (Config.timeLimit medium) * 0.5)%Q ∧
    ¬ (inject_Z (Breakdown.speedBonus (Score.breakdown result))
       == inject_Z (Breakdown.baseScore (Score.breakdown result))
          * Scoring.speedBonusMultiplier scoring)%Q.
Proof.
  eexists. split; [vm_compute; reflexivity|]. split.
  - reflexivity.
  - simpl. unfold Qeq. simpl. lia.
Qed.

End Score.

(** * Properties of the deck generator *)

Section Deck.

(** [Math.floor(Math.random() * n)] is an index below [n]. *)
Lemma floor_times_lt (r : Random.draw) (n : nat) :
  0 < n → Random.floor_times r n < n.
Proof.
  intros Hn. unfold Random.floor_times.
  apply Nat.Div0.div_lt_upper_bound.
  pose proof (Nat.mod_upper_bound (Random.num r) (S (Random.den_pred r))).
  nia.
Qed.

(** The index drawn at step [i] of the shuffle is at most [i]. *)
Lemma shuffle_index_in_range (r : Random.draw) (i : nat) :
  Random.floor_times r (i + 1) ≤ i.
Proof. pose proof (floor_times_lt r (i + 1)). lia. Qed.

(** Inside the array, [swap] is the double assignment of the source. *)
Lemma swap_in_range {A} (l : list A) (i j : nat) :
  i < length l → j < length l →
  ∃ x y, l !! i = Some x ∧ l !! j = Some y ∧
         swap l i j = <[j := x]> (<[i := y]> l).
Proof.
  intros Hi Hj. unfold swap.
  destruct (lookup_lt_is_Some_2 l i Hi) as [x Hx].
  destruct (lookup_lt_is_Some_2 l j Hj) as [y Hy].
  exists x, y. by rewrite Hx, Hy.
Qed.

Lemma swap_Permutation {A} (l : list A) (i j : nat) : swap l i j ≡ₚ l.
Proof.
  unfold swap.
  destruct (l !! i) as [x|] eqn:Hi; [|done].
  destruct (l !! j) as [y|] eqn:Hj; [|done].
  by apply Permutation_insert_swap.
Qed.

Lemma shuffle_loop_Permutation {A} (i : nat) (l : list A) (g : Random.rng) :
  (shuffle_loop i l g).1 ≡ₚ l.
Proof.
  revert l g. induction i as [|i IH]; intros l g; simpl; [done|].
  rewrite IH. apply swap_Permutation.
Qed.

Lemma shuffleArray_Permutation {A} (l : list A) (g : Random.rng) :
  (shuffleArray l g).1 ≡ₚ l.
Proof. apply shuffle_loop_Permutation. Qed.

Lemma emojiPairs_ids_NoDup : NoDup (Emoji.id <$> emojiPairs).
Proof. refine (@bool_decide_unpack _ (NoDup_dec _) _). by vm_compute. Qed.

Lemma pair_of_cards_length (selected : list Emoji.t) :
  length (selected ≫= pair_of_cards) = 2 * length selected.
Proof.
  induction selected as [|e l IH]; [done|].
  rewrite bind_cons, length_app, IH. simpl. lia.
Qed.

Lemma pair_of_cards_pairIds (selected : list Emoji.t) :
  Card.pairId <$> (selected ≫= pair_of_cards)
  = (Emoji.id <$> selected) ≫= (λ p, [p; p]).
Proof.
  induction selected as [|e l IH]; [done|].
  rewrite fmap_cons, !bind_cons, fmap_app, IH. done.
Qed.

Lemma pair_of_cards_fresh (selected : list Emoji.t) :
  Forall (λ c, Card.isFlipped c = false ∧ Card.isMatched c = false)
         (selected ≫= pair_of_cards).
Proof.
  induction selected as [|e l IH]; [constructor|].
  rewrite bind_cons. apply Forall_app. split; [|done].
  repeat constructor.
Qed.

Section Twice.
Context (p : string).

Lemma filter_twice_absent (ids : list string) :
  p ∉ ids → filter (λ q, q = p) (ids ≫= (λ q, [q; q])) = [].
Proof.
  induction ids as [|a ids IH]; intros Hp; [done|].
  apply not_elem_of_cons in Hp as [Hne Hp].
  rewrite bind_cons. simpl.
  rewrite !filter_cons_False by congruence. by apply IH.
Qed.

Lemma filter_twice_present (ids : list string) :
  NoDup ids → p ∈ ids →
  length (filter (λ q, q = p) (ids ≫= (λ q, [q; q]))) = 2.
Proof.
  induction ids as [|a ids IH]; intros Hnodup Hp.
  - by apply elem_of_nil in Hp.
  - apply NoDup_cons in Hnodup as [Ha Hnodup].
    rewrite bind_cons. simpl.
    destruct (decide (a = p)) as [->|Hne].
    + rewrite !filter_cons_True by done.
      by rewrite filter_twice_absent.
    + rewrite !filter_cons_False by done.
      apply elem_of_cons in Hp as [?|Hp]; [congruence|]. by apply IH.
Qed.
End Twice.

Lemma assign_positions_lookup (cards : list Card.t) (i : nat) :
  assign_positions cards !! i = Card.set_position (Some i) <$> cards !! i.
Proof. unfold assign_positions. by rewrite list_lookup_imap. Qed.

Lemma assign_positions_pairIds (cards : list Card.t) :
  Card.pairId <$> assign_positions cards = Card.pairId <$> cards.
Proof.
  apply list_eq. intros i.
  rewrite !list_lookup_fmap, assign_positions_lookup.
  by destruct (cards !! i).
Qed.

Lemma assign_positions_positions (cards : list Card.t) :
  Card.position <$> assign_positions cards = Some <$> seq 0 (length cards).
Proof.
  apply list_eq. intros i.
  rewrite !list_lookup_fmap, assign_positions_lookup.
  destruct (cards !! i) as [c|] eqn:Hi; simpl.
  - apply lookup_lt_Some in Hi. by rewrite lookup_seq_lt.
  - apply lookup_ge_None in Hi. by rewrite lookup_seq_ge.
Qed.

Lemma assign_positions_fresh (cards : list Card.t) :
  Forall (λ c, Card.isFlipped c = false ∧ Card.isMatched c = false) cards →
  Forall (λ c, Card.isFlipped c = false ∧ Card.isMatched c = false)
         (assign_positions cards).
Proof.
  rewrite !Forall_lookup. intros Hcards i c.
  rewrite assign_positions_lookup.
  destruct (cards !! i) as [c'|] eqn:Hi; simpl; [|done].
  intros [= <-]. exact (Hcards i c' Hi).
Qed.

(** The emojis the generator draws from: a duplicate-free part of the
    table that holds at least the pairs the tier needs. *)
Lemma availableEmojis_enough (categories : option (list string))
    (pairCount : nat) :
  pairCount ≤ 15 →
  let filtered :=
    match categories with
    | Some (c :: cs) => filter (λ e, Emoji.category e ∈ c :: cs) emojiPairs
    | _ => emojiPairs
    end in
  let availableEmojis :=
    if decide (length filtered < pairCount) then emojiPairs else filtered in
  pairCount ≤ length availableEmojis ∧ availableEmojis `sublist_of` emojiPairs.
Proof.
  intros Hcount filtered availableEmojis. subst availableEmojis.
  assert (filtered `sublist_of` emojiPairs) as Hsub.
  { subst filtered. destruct categories as [[|c cs]|]; try done.
    apply sublist_filter. }
  case_decide as Hlen.
  - split; [|done]. change (length emojiPairs) with 30. lia.
  - split; [lia|done].
Qed.

Lemma cardCount_even_small (difficulty : string) (config : Config.t) :
  difficulties !! difficulty = Some config →
  2 * (Config.cardCount config / 2) = Config.cardCount config ∧
  Config.cardCount config / 2 ≤ 15.
Proof.
  intros Hconfig.
  destruct (difficulties_lookup _ _ Hconfig) as [-> | [-> | [-> | ->]]];
    vm_compute; lia.
Qed.

(** C4. For every recognised tier and every category filter (absent,
    empty, or selecting too few emojis included), [generateCardSet]
    returns a deck of exactly [cardCount] cards in which every pair
    identifier occurs exactly twice and no card is flipped or matched, and
    whose position fields are 0, 1, ..., cardCount - 1 in this order (so no
    two cards share a position). *)
Theorem generateCardSet_deck (difficulty : option string)
    (categories : option (list string)) (g : Random.rng) (config : Config.t) :
  difficulties !! default "easy" difficulty = Some config →
  ∃ deck g',
    generateCardSet difficulty categories g = Returned (deck, g') ∧
    length deck = Config.cardCount config ∧
    (∀ p, p ∈ Card.pairId <$> deck →
          length (filter (λ q, q = p) (Card.pairId <$> deck)) = 2) ∧
    Forall (λ c, Card.isFlipped c = false ∧ Card.isMatched c = false) deck ∧
    Card.position <$> deck = Some <$> seq 0 (Config.cardCount config) ∧
    NoDup (Card.position <$> deck).
Proof.
  intros Hconfig.
  destruct (cardCount_even_small _ _ Hconfig) as [Heven Hsmall].
  unfold generateCardSet. rewrite Hconfig. cbv zeta.
  set (pairCount := Config.cardCount config / 2) in *.
  destruct (availableEmojis_enough categories pairCount Hsmall)
    as [Henough Hsub].
  set (availableEmojis := if decide _ then emojiPairs else _) in *.
  pose proof (shuffleArray_Permutation availableEmojis g) as Hperm1.
  destruct (shuffleArray availableEmojis g) as [shuffledEmojis g1].
  simpl in Hperm1.
  set (selectedEmojis := take pairCount shuffledEmojis).
  pose proof (shuffleArray_Permutation (selectedEmojis ≫= pair_of_cards) g1)
    as Hperm2.
  destruct (shuffleArray (selectedEmojis ≫= pair_of_cards) g1)
    as [shuffledCards g2].
  simpl in Hperm2.
  assert (length selectedEmojis = pairCount) as Hselected.
  { subst selectedEmojis. rewrite length_take, Hperm1. lia. }
  assert (NoDup (Emoji.id <$> selectedEmojis)) as Hnodup.
  { eapply sublist_NoDup; [|apply fmap_sublist, sublist_take].
    rewrite Hperm1.
    eapply sublist_NoDup; [apply emojiPairs_ids_NoDup|].
    by apply fmap_sublist. }
  assert (length shuffledCards = Config.cardCount config) as Hlength.
  { rewrite Hperm2, pair_of_cards_length, Hselected. exact Heven. }
  exists (assign_positions shuffledCards), g2.
  split; [done|]. split; [|split; [|split; [|split]]].
  - unfold assign_positions. by rewrite length_imap.
  - intros p. rewrite assign_positions_pairIds.
    assert (Card.pairId <$> shuffledCards
            ≡ₚ (Emoji.id <$> selectedEmojis) ≫= (λ q, [q; q])) as ->.
    { by rewrite Hperm2, pair_of_cards_pairIds. }
    intros Hp. apply filter_twice_present; [done|].
    apply list_elem_of_bind in Hp as (q & Hp & Hq).
    apply elem_of_cons in Hp as [->|Hp]; [done|].
    apply elem_of_cons in Hp as [->|Hp]; [done|].
    by apply elem_of_nil in Hp.
  - apply assign_positions_fresh. rewrite Hperm2. apply pair_of_cards_fresh.
  - by rewrite assign_positions_positions, Hlength.
  - rewrite assign_positions_positions.
    apply NoDup_fmap_2; [intros ?? [=]; done|]. apply NoDup_seq.
Qed.

Lemma generateCardSet_deck_witness :
  ∃ deck g',
    generateCardSet (Some "hard") (Some ["food"; "space"])
      (λ n, Random.mk (7 * n + 3) 10) = Returned (deck, g') ∧
    length deck = 24.
Proof.
  destruct (generateCardSet_deck (Some "hard") (Some ["food"; "space"])
              (λ n, Random.mk (7 * n + 3) 10) hard)
    as (deck & g' & Hrun & Hlength & _).
  - reflexivity.
  - exists deck, g'. split; [exact Hrun|exact Hlength].
Defined.

End Deck.

(** * The streak fed to the score calculator *)

Section Streak.
Local Open Scope Z_scope.

Lemma insert_by_timestamp_Permutation (m : MatchEvent.t) (l : list MatchEvent.t) :
  insert_by_timestamp m l ≡ₚ m :: l.
Proof.
  induction l as [|m' l IH]; simpl; [done|].
  case_decide; [done|]. rewrite IH. apply Permutation_swap.
Qed.

Lemma sort_by_timestamp_Permutation (l : list MatchEvent.t) :
  sort_by_timestamp l ≡ₚ l.
Proof.
  induction l as [|m l IH]; simpl; [done|].
  by rewrite insert_by_timestamp_Permutation, IH.
Qed.

Lemma insert_by_timestamp_HdRel (a m : MatchEvent.t) (l : list MatchEvent.t) :
  by_timestamp a m → HdRel by_timestamp a l →
  HdRel by_timestamp a (insert_by_timestamp m l).
Proof.
  intros Ham Hal. destruct l as [|m' l]; simpl; [by constructor|].
  case_decide; constructor; [done|]. by apply HdRel_inv in Hal.
Qed.

Lemma insert_by_timestamp_Sorted (m : MatchEvent.t) (l : list MatchEvent.t) :
  Sorted by_timestamp l → Sorted by_timestamp (insert_by_timestamp m l).
Proof.
  induction 1 as [|m' l Hsorted IH Hhd]; simpl.
  - by repeat constructor.
  - case_decide as Hle.
    + by repeat constructor.
    + constructor; [done|].
      apply insert_by_timestamp_HdRel; [|done]. unfold by_timestamp. lia.
Qed.

Lemma sort_by_timestamp_Sorted (l : list MatchEvent.t) :
  Sorted by_timestamp (sort_by_timestamp l).
Proof.
  induction l as [|m l IH]; simpl; [constructor|].
  by apply insert_by_timestamp_Sorted.
Qed.

(** What the loop returns, read off the part of the array still ahead:
    [previous :: rest], where the run that ends at [previous] has length
    [currentStreak]. *)
Lemma streak_loop_spec (rest : list MatchEvent.t) :
  ∀ (previous : MatchEvent.t) (maxStreak currentStreak : Z),
    Sorted by_timestamp (previous :: rest) →
    1 ≤ currentStreak ≤ maxStreak →
    let r := streak_loop previous rest maxStreak currentStreak in
    maxStreak ≤ r ∧
    (∀ before run after,
        previous :: rest = before ++ run ++ after → is_run run →
        Z.of_nat (length run) ≤ r ∧
        (before = [] → Z.of_nat (length run) + currentStreak - 1 ≤ r)) ∧
    (r = maxStreak ∨
     (∃ run after,
         previous :: rest = run ++ after ∧ is_run run ∧
         r = Z.of_nat (length run) + currentStreak - 1) ∨
     (∃ before run after,
         rest = before ++ run ++ after ∧ is_run run ∧
         r = Z.of_nat (length run))).
Proof.
  induction rest as [|current rest IH];
    intros previous maxStreak currentStreak Hsorted Hstreak; simpl.
  - split; [lia|]. split; [|by left].
    intros before run after Heq _.
    assert (length run ≤ 1)%nat.
    { apply (f_equal length) in Heq. rewrite !length_app in Heq.
      simpl in Heq. lia. }
    lia.
  - apply Sorted_inv in Hsorted as [Hsorted Hhd].
    apply HdRel_inv in Hhd. unfold by_timestamp in Hhd.
    case_decide as Hgap.
    + destruct (IH current (Z.max maxStreak (currentStreak + 1))
                  (currentStreak + 1) Hsorted ltac:(lia))
        as (Hmax & Hupper & Hattained).
      set (r := streak_loop current rest _ _) in *.
      split; [lia|]. split.
      * intros before run after Heq Hrun.
        destruct before as [|b before]; simpl in Heq.
        -- destruct run as [|a run]; [simpl; lia|].
           simpl in Heq. injection Heq as -> Heq.
           destruct run as [|a' run]; [simpl; lia|].
           destruct Hrun as [_ Hrun].
           destruct (Hupper [] (a' :: run) after Heq Hrun) as [_ Hprefix].
           specialize (Hprefix eq_refl).
           rewrite !length_cons, !Nat2Z.inj_succ in *. lia.
        -- injection Heq as -> Heq.
           destruct (Hupper before run after Heq Hrun) as [Hle _].
           split; [lia|done].
      * destruct Hattained as [Hr|[(run & after & Heq & Hrun & Hr)
                                  |(before & run & after & Heq & Hrun & Hr)]].
        -- destruct (decide (maxStreak < currentStreak + 1)).
           ++ right. left. exists [previous; current], rest.
              split; [done|]. split.
              ** simpl. unfold within_gap. split; [lia|done].
              ** simpl. lia.
           ++ left. lia.
        -- destruct run as [|a run]; [simpl in Hr; lia|].
           simpl in Heq. injection Heq as <- ->.
           right. left. exists (previous :: current :: run), after.
           split; [done|]. split.
           ++ split; [unfold within_gap; lia|done].
           ++ rewrite !length_cons, !Nat2Z.inj_succ in *. lia.
        -- right. right. exists (current :: before), run, after.
           by rewrite Heq.
    + destruct (IH current maxStreak 1 Hsorted ltac:(lia))
        as (Hmax & Hupper & Hattained).
      set (r := streak_loop current rest _ _) in *.
      split; [lia|]. split.
      * intros before run after Heq Hrun.
        destruct before as [|b before]; simpl in Heq.
        -- destruct run as [|a run]; [simpl; lia|].
           simpl in Heq. injection Heq as -> Heq.
           destruct run as [|a' run]; [simpl; lia|].
           simpl in Heq. injection Heq as -> Heq.
           destruct Hrun as [Hclose _]. unfold within_gap in Hclose. lia.
        -- injection Heq as -> Heq.
           destruct (Hupper before run after Heq Hrun) as [Hle _].
           split; [lia|done].
      * destruct Hattained as [Hr|[(run & after & Heq & Hrun & Hr)
                                  |(before & run & after & Heq & Hrun & Hr)]].
        -- by left.
        -- right. right. exists [], run, after.
           split; [done|]. split; [done|lia].
        -- right. right. exists (current :: before), run, after.
           by rewrite Heq.
Qed.

Lemma calculateConsecutiveMatches_spec (matches : list MatchEvent.t) :
  let '(streak, sortedMatches) := calculateConsecutiveMatches matches in
  sortedMatches ≡ₚ matches ∧
  Sorted by_timestamp sortedMatches ∧
  longest_run sortedMatches streak ∧
  (matches = [] → streak = 0) ∧
  (matches ≠ [] → 1 ≤ streak).
Proof.
  unfold calculateConsecutiveMatches.
  destruct matches as [|m matches].
  { split; [done|]. split; [constructor|]. split; [|done].
    split.
    - by exists [], [], [].
    - intros before run after Heq _.
      destruct before; [destruct run; [simpl; lia|done]|done]. }
  pose proof (sort_by_timestamp_Permutation (m :: matches)) as Hperm.
  pose proof (sort_by_timestamp_Sorted (m :: matches)) as Hsorted.
  destruct (sort_by_timestamp (m :: matches)) as [|first rest].
  { by apply Permutation_nil_cons in Hperm. }
  destruct (streak_loop_spec rest first 1 1 Hsorted ltac:(lia))
    as (Hmax & Hupper & Hattained).
  set (r := streak_loop first rest 1 1) in *.
  split; [done|]. split; [done|]. split; [|split; [done|intros _; lia]].
  split.
  - destruct Hattained as [Hr|[(run & after & Heq & Hrun & Hr)
                              |(before & run & after & Heq & Hrun & Hr)]].
    + exists [], [first], rest. split; [done|]. split; [by simpl|].
      simpl. lia.
    + exists [], run, after. split; [done|]. split; [done|lia].
    + exists (first :: before), run, after. split; [by rewrite Heq|done].
  - intros before run after Heq Hrun.
    by destruct (Hupper before run after Heq Hrun).
Qed.

(** C8. The streak the complete handler feeds to the score calculator is
    the length of the longest run of the session's matches, taken in the
    order of their timestamps, in which each match is within 30000
    milliseconds of the one before it; it is 0 for a session without
    matches and at least 1 otherwise; and the wrong-move count fed with it
    is the move counter minus the number of matches. *)
Theorem completion_stats_streak (gameSession : Session.t) (timeElapsed : Z) :
  let matches := Session.matches gameSession in
  let gameStats := (completion_stats gameSession timeElapsed).1 in
  let sortedMatches :=
    Session.matches (completion_stats gameSession timeElapsed).2 in
  ∃ streak,
    GameStats.consecutiveMatches gameStats = Some streak ∧
    sortedMatches ≡ₚ matches ∧
    Sorted by_timestamp sortedMatches ∧
    longest_run sortedMatches streak ∧
    (matches = [] → streak = 0) ∧
    (matches ≠ [] → 1 ≤ streak) ∧
    GameStats.wrongMoves gameStats
      = Session.moves gameSession - Z.of_nat (length matches) ∧
    GameStats.matches gameStats = Z.of_nat (length matches).
Proof.
  intros matches gameStats sortedMatches.
  subst gameStats sortedMatches. unfold completion_stats.
  pose proof (calculateConsecutiveMatches_spec matches) as Hspec.
  fold matches.
  destruct (calculateConsecutiveMatches matches) as [streak sorted].
  destruct Hspec as (Hperm & Hsorted & Hlongest & Hnone & Hsome).
  exists streak. simpl. done.
Qed.

End Streak.

(** * Reasoning about requests *)

Section Wp.

Lemma wp_ret {A} (a : A) env w (Q : Completion A → World → Prop) :
  Q (Returned a) w → wp (ret a) env w Q.
Proof. done. Qed.

Lemma wp_throw {A} (e : string) env w (Q : Completion A → World → Prop) :
  Q (Thrown e) w → wp (throw e) env w Q.
Proof. done. Qed.

Lemma wp_lift {A} (v : Completion A) env w (Q : Completion A → World → Prop) :
  Q v w → wp (lift v) env w Q.
Proof. done. Qed.

Lemma wp_bind {A B} (m : IO A) (k : A → IO B) env w
    (Q : Completion B → World → Prop) :
  wp m env w (λ r w',
    match r with
    | Returned a => wp (k a) env w' Q
    | Thrown e => Q (Thrown e) w'
    end) →
  wp (bind m k) env w Q.
Proof. unfold wp, bind. by destruct (m env w) as [[a|e] w']. Qed.

Lemma wp_try_catch {A} (body : IO A) (handler : string → IO A) env w
    (Q : Completion A → World → Prop) :
  wp body env w (λ r w',
    match r with
    | Returned a => Q (Returned a) w'
    | Thrown e => wp (handler e) env w' Q
    end) →
  wp (try_catch body handler) env w Q.
Proof. unfold wp, try_catch. by destruct (body env w) as [[a|e] w']. Qed.

Lemma wp_mono {A} (m : IO A) env w (Q Q' : Completion A → World → Prop) :
  (∀ r w', Q r w' → Q' r w') → wp m env w Q → wp m env w Q'.
Proof. unfold wp. auto. Qed.

Lemma wp_ask env w (Q : Completion Env → World → Prop) :
  Q (Returned env) w → wp ask env w Q.
Proof. done. Qed.

Lemma wp_console_log level text env r o d c
    (Q : Completion unit → World → Prop) :
  Q (Returned tt) (mkWorld r o d (c ++ [(level, text)])) →
  wp (console_log level text) env (mkWorld r o d c) Q.
Proof. done. Qed.

(** ** The cache *)

Lemma wp_wrapped {A} (m : IO A) env r o d c (Q : Completion A → World → Prop) :
  (o = true ∨ connect_fails env = false → wp m env (mkWorld r true d c) Q) →
  (o = false → connect_fails env = true →
   ∀ c', Q (Thrown "Redis connection failed") (mkWorld r o d c')) →
  wp (wrapped m) env (mkWorld r o d c) Q.
Proof.
  intros Hok Hfail.
  unfold wp, wrapped, ensureConnection, redis_connect, bind, try_catch,
    get_world, ask, set_isOpen, console_log, throw, ret. simpl.
  destruct o; simpl; [apply Hok; by left|].
  destruct (connect_fails env) eqn:Hconnect; simpl.
  - by apply Hfail.
  - apply Hok. by right.
Qed.

Lemma wp_redis_set key value env r o d c (Q : Completion unit → World → Prop) :
  (redis_fails env (OpSet key) = false →
   Q (Returned tt) (mkWorld (<[key := value]> r) o d c)) →
  (redis_fails env (OpSet key) = true →
   ∀ c', Q (Thrown "Redis command failed") (mkWorld r o d c')) →
  wp (redis_set key value) env (mkWorld r o d c) Q.
Proof.
  intros Hok Hfail.
  unfold wp, redis_set, client_command, bind, try_catch, get_world, ask,
    set_redis, console_log, throw, ret. simpl.
  destruct (redis_fails env (OpSet key)) eqn:Hfault; simpl; auto.
Qed.

Lemma wp_redis_get key env r o d c
    (Q : Completion (option CacheValue) → World → Prop) :
  (redis_fails env (OpGet key) = false →
   Q (Returned (r !! key)) (mkWorld r o d c)) →
  (redis_fails env (OpGet key) = true →
   ∀ c', Q (Returned None) (mkWorld r o d c')) →
  wp (redis_get key) env (mkWorld r o d c) Q.
Proof.
  intros Hok Hfail.
  unfold wp, redis_get, client_command, bind, try_catch, get_world, ask,
    console_log, throw, ret. simpl.
  destruct (redis_fails env (OpGet key)) eqn:Hfault; simpl; auto.
Qed.

Lemma wp_redis_del key env r o d c (Q : Completion unit → World → Prop) :
  (redis_fails env (OpDel key) = false →
   Q (Returned tt) (mkWorld (delete key r) o d c)) →
  (redis_fails env (OpDel key) = true →
   ∀ c', Q (Thrown "Redis command failed") (mkWorld r o d c')) →
  wp (redis_del key) env (mkWorld r o d c) Q.
Proof.
  intros Hok Hfail.
  unfold wp, redis_del, client_command, bind, try_catch, get_world, ask,
    set_redis, console_log, throw, ret. simpl.
  destruct (redis_fails env (OpDel key)) eqn:Hfault; simpl; auto.
Qed.

Lemma wp_redis_expire key env r o d c (Q : Completion unit → World → Prop) :
  (redis_fails env (OpExpire key) = false →
   Q (Returned tt) (mkWorld r o d c)) →
  (redis_fails env (OpExpire key) = true →
   ∀ c', Q (Thrown "Redis command failed") (mkWorld r o d c')) →
  wp (redis_expire key) env (mkWorld r o d c) Q.
Proof.
  intros Hok Hfail.
  unfold wp, redis_expire, client_command, bind, try_catch, ask,
    console_log, throw, ret. simpl.
  destruct (redis_fails env (OpExpire key)) eqn:Hfault; simpl; auto.
Qed.

Lemma wp_redis_incr key env r o d c (Q : Completion Z → World → Prop) :
  (∀ n, redis_fails env (OpIncr key) = false → counter_at r key = Some n →
   Q (Returned (n + 1)%Z) (mkWorld (<[key := VNumber (n + 1)]> r) o d c)) →
  (∀ e c', redis_fails env (OpIncr key) = true ∨ counter_at r key = None →
   Q (Thrown e) (mkWorld r o d c')) →
  wp (redis_incr key) env (mkWorld r o d c) Q.
Proof.
  intros Hok Hfail.
  unfold wp, redis_incr, client_command, bind, try_catch, get_world, ask,
    set_redis, console_log, throw, ret. simpl.
  destruct (redis_fails env (OpIncr key)) eqn:Hfault; simpl.
  { apply Hfail. by left. }
  unfold counter_at in *.
  destruct (r !! key) as [[s|n|t]|] eqn:Hkey; simpl.
  - apply Hfail. by right.
  - by apply Hok.
  - apply Hfail. by right.
  - by apply (Hok 0%Z).
Qed.

(** ** The database *)

Lemma wp_query q env r o d c (Q : Completion Rows → World → Prop) :
  (∀ rows d' c',
      pool_failures env (sql_kind q) < 3 →
      pool_execute env q d = Some (rows, d') →
      Q (Returned rows) (mkWorld r o d' c')) →
  (∀ e c',
      3 ≤ pool_failures env (sql_kind q) ∨ pool_execute env q d = None →
      Q (Thrown e) (mkWorld r o d c')) →
  wp (query q) env (mkWorld r o d c) Q.
Proof.
  intros Hok Hfail.
  unfold wp, query, maxRetries. simpl.
  unfold pool_query, try_catch, bind, ask, get_world, set_db, console_log,
    throw, ret, maxRetries. simpl.
  destruct (pool_execute env q d) as [[rows d']|] eqn:Hexec;
    repeat (first [progress rewrite Hexec | case_decide]; simpl);
    first [ apply Hok; [lia|done]
          | apply Hfail; by right
          | apply Hfail; left; lia
          | lia ].
Qed.

Lemma wp_createOrGetUser username env r o d c
    (Q : Completion UserRow.t → World → Prop) :
  (∀ user d' c',
      Db.games d' = Db.games d → Db.game_matches d' = Db.game_matches d →
      Q (Returned user) (mkWorld r o d' c')) →
  (∀ e c', Q (Thrown e) (mkWorld r o d c')) →
  wp (createOrGetUser username) env (mkWorld r o d c) Q.
Proof.
  intros Hok Hfail. unfold createOrGetUser.
  apply wp_try_catch, wp_bind, wp_query.
  - intros rows d' c' _ Hexec. simpl in Hexec. injection Hexec as <- <-.
    simpl. destruct (Db.users d !! username) as [user|]; simpl.
    { apply wp_ret. by apply Hok. }
    apply wp_bind, wp_query.
    + intros rows d' c'' _ Hexec. simpl in Hexec.
      destruct (Db.users d !! username); [done|].
      injection Hexec as <- <-. simpl. apply wp_ret. by apply Hok.
    + intros e c'' _. apply wp_bind, wp_console_log, wp_throw, Hfail.
  - intros e c' _. apply wp_bind, wp_console_log, wp_throw, Hfail.
Qed.

Lemma wp_createGame userId username difficulty env r o d c
    (Q : Completion GameRow.t → World → Prop) :
  (∀ c',
      Db.games d !! uuid_game env = None →
      let game :=
        GameRow.mk (uuid_game env) userId username 0 0 0 0 difficulty false in
      Q (Returned game)
        (mkWorld r o
           (Db.mk (Db.users d) (<[uuid_game env := game]> (Db.games d))
                  (Db.game_matches d)) c')) →
  (∀ e c', Q (Thrown e) (mkWorld r o d c')) →
  wp (createGame userId username difficulty) env (mkWorld r o d c) Q.
Proof.
  intros Hok Hfail. unfold createGame.
  apply wp_try_catch, wp_bind, wp_query.
  - intros rows d' c' _ Hexec. simpl in Hexec.
    destruct (Db.games d !! uuid_game env) eqn:Hfresh; [done|].
    injection Hexec as <- <-. simpl. apply wp_ret. by apply Hok.
  - intros e c' _. apply wp_bind, wp_console_log, wp_throw, Hfail.
Qed.

Lemma wp_completeGame gameId score moves timeElapsed cardsMatched env r o d c
    (Q : Completion GameRow.t → World → Prop) :
  (∀ old c',
      pool_failures env KUpdateGameCompleted < 3 →
      Db.games d !! gameId = Some old →
      let new := completed_row old score moves timeElapsed cardsMatched in
      Q (Returned new)
        (mkWorld r o
           (Db.mk (update_user_stats old new (Db.users d))
                  (<[gameId := new]> (Db.games d)) (Db.game_matches d)) c')) →
  (∀ e c',
      3 ≤ pool_failures env KUpdateGameCompleted ∨
      Db.games d !! gameId = None ∨
      pool_execute env
        (UpdateGameCompleted gameId score moves timeElapsed cardsMatched) d
        = None →
      Q (Thrown e) (mkWorld r o d c')) →
  wp (completeGame gameId score moves timeElapsed cardsMatched) env
     (mkWorld r o d c) Q.
Proof.
  intros Hok Hfail. unfold completeGame.
  apply wp_try_catch, wp_bind, wp_query.
  - intros rows d' c' Hpool Hexec. simpl in Hexec, Hpool.
    case_decide as Hfits; [|done].
    destruct (Db.games d !! gameId) as [old|] eqn:Hrow.
    + case_decide as Hstats; [|done].
      injection Hexec as <- <-; simpl.
      apply wp_ret. by apply Hok.
    + injection Hexec as <- <-; simpl.
      apply wp_throw, wp_bind, wp_console_log, wp_throw, Hfail. auto.
  - intros e c' [Hpool|Hexec]; apply wp_bind, wp_console_log, wp_throw, Hfail.
    + by left.
    + auto.
Qed.

Lemma wp_recordMatch gameId card1Id card2Id matchTime points bonusPoints
    env r o d c (Q : Completion unit → World → Prop) :
  (∀ c',
      is_Some (Db.games d !! gameId) →
      Q (Returned tt)
        (mkWorld r o
           (Db.mk (Db.users d) (Db.games d)
              (Db.game_matches d ++
               [MatchRow.mk gameId card1Id card2Id matchTime points
                  bonusPoints])) c')) →
  (∀ e c',
      3 ≤ pool_failures env KInsertMatch ∨
      Db.games d !! gameId = None ∨
      ¬ (fits_integer matchTime ∧ fits_integer points ∧
         fits_integer bonusPoints) →
      Q (Thrown e) (mkWorld r o d c')) →
  wp (recordMatch gameId card1Id card2Id matchTime points bonusPoints) env
     (mkWorld r o d c) Q.
Proof.
  intros Hok Hfail. unfold recordMatch.
  apply wp_try_catch, wp_bind, wp_query.
  - intros rows d' c' _ Hexec. simpl in Hexec.
    case_decide as Hfits; [|done].
    destruct (Db.games d !! gameId) eqn:Hrow; [|done].
    injection Hexec as <- <-. apply wp_ret. by apply Hok.
  - intros e c' Hwhy. apply wp_bind, wp_console_log, wp_throw, Hfail.
    destruct Hwhy as [Hpool|Hexec]; [by left|right].
    simpl in Hexec. case_decide as Hfits; [|by right].
    left. by destruct (Db.games d !! gameId).
Qed.

Lemma wp_updateLastPlayed userId env r o d c
    (Q : Completion unit → World → Prop) :
  (∀ c', Q (Returned tt) (mkWorld r o d c')) →
  (∀ e c', Q (Thrown e) (mkWorld r o d c')) →
  wp (updateLastPlayed userId) env (mkWorld r o d c) Q.
Proof.
  intros Hok Hfail. unfold updateLastPlayed.
  apply wp_try_catch, wp_bind, wp_query.
  - intros rows d' c' _ Hexec. simpl in Hexec. injection Hexec as <- <-.
    apply wp_ret, Hok.
  - intros e c' _. apply wp_bind, wp_console_log, wp_throw, Hfail.
Qed.

(** ** The counters *)

(** [redis.expire(key)] followed by [redis.incr(key)]. *)
Lemma wp_expire_incr key env r o d c (Q : Completion Z → World → Prop) :
  (∀ n, counter_at r key = Some n →
        redis_fails env (OpExpire key) = false →
        redis_fails env (OpIncr key) = false →
        Q (Returned (n + 1)%Z) (mkWorld (<[key := VNumber (n + 1)]> r) o d c)) →
  (∀ e c',
      redis_fails env (OpExpire key) = true ∨
      redis_fails env (OpIncr key) = true ∨ counter_at r key = None →
      Q (Thrown e) (mkWorld r o d c')) →
  wp (redis_expire key;; redis_incr key) env (mkWorld r o d c) Q.
Proof.
  intros Hok Hfail. apply wp_bind, wp_redis_expire.
  - intros Hexpire. apply wp_redis_incr.
    + intros n Hincr Hn. by apply Hok.
    + intros e c' [?|?]; apply Hfail; auto.
  - intros Hexpire c'. apply Hfail. by left.
Qed.

End Wp.

(** * Properties of the session routes *)

Section Routes.

Lemma handle_wp request env w (Q : Response → World → Prop) :
  wp (route request) env w (λ r w',
    match r with
    | Returned response => Q response w'
    | Thrown _ => Q (mkResponse 500 (Failed "Internal Server Error")) w'
    end) →
  Q (handle env request w).1 (handle env request w).2.
Proof.
  unfold wp, handle. by destruct (route request env w) as [[response|e] w'].
Qed.

Lemma wp_any {A} (m : IO A) env w (Q : Completion A → World → Prop) :
  (∀ r w', Q r w') → wp m env w Q.
Proof. unfold wp. auto. Qed.

Lemma wp_failure code error env w (Q : Completion Response → World → Prop) :
  Q (Returned (mkResponse code (Failed error))) w →
  wp (failure code error) env w Q.
Proof. done. Qed.

Lemma find_card_Some cardId cards i card :
  find_card cardId cards = Some (i, card) →
  cards !! i = Some card ∧ Card.id card = cardId.
Proof. unfold find_card. intros H. by apply list_find_Some in H as (? & ? & _). Qed.

Lemma find_card_None cardId cards :
  find_card cardId cards = None ↔ cardId ∉ Card.id <$> cards.
Proof.
  unfold find_card. rewrite list_find_None, Forall_forall.
  split.
  - intros Hall Hin. apply list_elem_of_fmap in Hin as (card & -> & Hcard).
    by apply (Hall card).
  - intros Hnot card Hcard Hid. apply Hnot.
    apply list_elem_of_fmap. by exists card.
Qed.

(** C2. For an in-progress cached session, a match submission naming a
    card identifier that is not in the deck is answered 400 "Invalid card
    IDs"; one whose two cards are found, one of them already matched, is
    answered 400 "Cards already matched"; and in both cases the cache (hence
    the session's score, move counter, card flags and match list) and the
    database are exactly as before. *)
Theorem match_rejection_changes_nothing (env : Env) (w : World)
    (body : MatchBody.t) (gameSession : Session.t) :
  cache_answers env w (MatchBody.gameId body) →
  redis w !! session_key (MatchBody.gameId body) = Some (VSession gameSession) →
  Session.isCompleted gameSession = false →
  let cards := Session.cards gameSession in
  let response := (handle env (Match body) w).1 in
  let w' := (handle env (Match body) w).2 in
  (MatchBody.card1Id body ∉ Card.id <$> cards ∨
   MatchBody.card2Id body ∉ Card.id <$> cards →
   response = mkResponse 400 (Failed "Invalid card IDs") ∧
   redis w' = redis w ∧ db w' = db w ∧
   cached_session w' (MatchBody.gameId body) = Some gameSession) ∧
  (∀ i1 card1 i2 card2,
     find_card (MatchBody.card1Id body) cards = Some (i1, card1) →
     find_card (MatchBody.card2Id body) cards = Some (i2, card2) →
     Card.isMatched card1 = true ∨ Card.isMatched card2 = true →
     response = mkResponse 400 (Failed "Cards already matched") ∧
     redis w' = redis w ∧ db w' = db w ∧
     cached_session w' (MatchBody.gameId body) = Some gameSession).
Proof.
  intros [Hconnect Hget] Hcached Hprogress cards response w'.
  subst response w'.
  assert (∀ w' : World, redis w' = redis w →
            cached_session w' (MatchBody.gameId body) = Some gameSession)
    as Hsame.
  { intros w' Hw'. unfold cached_session. by rewrite Hw', Hcached. }
  apply handle_wp. destruct w as [r o d c]. simpl in *.
  unfold match_. apply wp_try_catch, wp_bind, wp_wrapped.
  2: { intros -> Hfails. destruct Hconnect; congruence. }
  intros _. unfold getCachedGameSession. apply wp_redis_get.
  2: { intros Hfails. congruence. }
  intros _. rewrite Hcached. simpl. unfold match_session.
  rewrite Hprogress. fold cards.
  destruct (find_card (MatchBody.card1Id body) cards) as [[i1 card1]|] eqn:H1;
    [destruct (find_card (MatchBody.card2Id body) cards) as [[i2 card2]|] eqn:H2|].
  - apply find_card_Some in H1 as H1'. apply find_card_Some in H2 as H2'.
    assert (¬ (MatchBody.card1Id body ∉ Card.id <$> cards ∨
               MatchBody.card2Id body ∉ Card.id <$> cards)) as Hfound.
    { intros [Hnot|Hnot]; apply Hnot; apply list_elem_of_fmap.
      - exists card1. split; [by destruct H1'|].
        eapply list_elem_of_lookup_2. apply H1'.
      - exists card2. split; [by destruct H2'|].
        eapply list_elem_of_lookup_2. apply H2'. }
    destruct (Card.isMatched card1 || Card.isMatched card2) eqn:Hmatched.
    + apply wp_failure. split; [done|].
      intros ???? [= <- <-] [= <- <-] _. auto.
    + apply wp_any. intros res w'.
      assert (¬ (Card.isMatched card1 = true ∨ Card.isMatched card2 = true)).
      { apply orb_false_iff in Hmatched as [-> ->]. intros [|]; done. }
      destruct res; (split; [done|]); intros ???? [= <- <-] [= <- <-]; done.
  - apply wp_failure. split; [auto|]. intros ???? _ [=].
  - apply wp_failure. split; [auto|]. intros ???? [=].
Qed.

(** ** Keys of the cache *)

Lemma session_key_inj (g g' : string) : session_key g = session_key g' → g = g'.
Proof. unfold session_key, String.app. simpl. congruence. Qed.

Lemma user_stats_key_ne (username g : string) :
  "user:stats:" +:+ username ≠ session_key g.
Proof. unfold session_key, String.app. simpl. congruence. Qed.

Lemma leaderboard_key_ne (g : string) : "leaderboard:top" ≠ session_key g.
Proof. unfold session_key, String.app. simpl. congruence. Qed.

Lemma activity_key_ne (rest g : string) : "activity:" +:+ rest ≠ session_key g.
Proof. unfold session_key, String.app. simpl. congruence. Qed.

Lemma analytics_key_ne (rest g : string) :
  "analytics:daily_games:" +:+ rest ≠ session_key g.
Proof. unfold session_key, String.app. simpl. congruence. Qed.

Lemma wp_read_session (gameId notFound : string)
    (k : Session.t → IO Response) env r o d c
    (Q : Completion Response → World → Prop) :
  (∀ o' c', not_read env r o gameId →
            Q (Returned (mkResponse 404 (Failed notFound))) (mkWorld r o' d c')) →
  (∀ e o' c', not_read env r o gameId → Q (Thrown e) (mkWorld r o' d c')) →
  (∀ gameSession,
      o = true ∨ connect_fails env = false →
      redis_fails env (OpGet (session_key gameId)) = false →
      r !! session_key gameId = Some (VSession gameSession) →
      wp (k gameSession) env (mkWorld r true d c) Q) →
  wp (let* cached := wrapped (getCachedGameSession gameId) in
      with_session cached notFound k) env (mkWorld r o d c) Q.
Proof.
  intros Hnone Hthrow Hsession.
  apply wp_bind, wp_wrapped.
  2: { intros -> Hfails c'. apply Hthrow. intros s [|]; congruence. }
  intros Hconnect. unfold getCachedGameSession. apply wp_redis_get.
  - intros Hget. destruct (r !! session_key gameId) as [[s|n|t]|] eqn:Hkey;
      simpl.
    + by apply Hsession.
    + case_decide; [apply wp_failure, Hnone|apply wp_throw, Hthrow];
        intros s _ _; congruence.
    + apply wp_throw, Hthrow. intros s _ _; congruence.
    + apply wp_failure, Hnone. intros s _ _; congruence.
  - intros Hget c'. simpl. apply wp_failure, Hnone. intros s _; congruence.
Qed.

Lemma completed_session_conflict env w request gameId :
  targets request gameId →
  cache_answers env w gameId →
  completed_in_cache w gameId →
  (handle env request w).1 = conflict ∧
  redis (handle env request w).2 = redis w ∧
  db (handle env request w).2 = db w.
Proof.
  intros Htargets [Hconnect Hget] (gameSession & Hcached & Hcompleted).
  apply handle_wp. destruct w as [r o d c]. simpl in *.
  destruct request as [body|body|body]; [done|..]; simpl in Htargets;
    subst gameId; simpl; [unfold match_|unfold complete];
    apply wp_try_catch, wp_read_session.
  1,4: intros o' c' Hnot; exfalso; by eapply (Hnot gameSession).
  1,3: intros e o' c' Hnot; exfalso; by eapply (Hnot gameSession).
  all: intros s _ _ Hs; rewrite Hcached in Hs; injection Hs as <-.
  - unfold match_session. rewrite Hcompleted. by apply wp_failure.
  - unfold complete_session. rewrite Hcompleted. by apply wp_failure.
Qed.

Lemma activity_key_not_session env username action g :
  activity_key env username action ≠ session_key g.
Proof. apply activity_key_ne. Qed.

Lemma wp_trackUserActivity username action env r o d c
    (Q : Completion Z → World → Prop) :
  let key := activity_key env username action in
  (∀ n, counter_at r key = Some n →
        redis_fails env (OpExpire key) = false →
        redis_fails env (OpIncr key) = false →
        Q (Returned (n + 1)%Z) (mkWorld (<[key := VNumber (n + 1)]> r) o d c)) →
  (∀ e c',
      redis_fails env (OpExpire key) = true ∨
      redis_fails env (OpIncr key) = true ∨ counter_at r key = None →
      Q (Thrown e) (mkWorld r o d c')) →
  wp (trackUserActivity username action) env (mkWorld r o d c) Q.
Proof.
  intros key Hok Hfail. unfold trackUserActivity.
  apply wp_bind, wp_ask. by apply wp_expire_incr.
Qed.

Lemma wp_updateGameMetrics (warning : string) env r o d c
    (Q : Completion unit → World → Prop) :
  Q (Returned tt) (mkWorld r o d (c ++ [(Warn, warning)])) →
  wp (try_catch updateGameMetrics (λ _, console_log Warn warning)) env
     (mkWorld r o d c) Q.
Proof. done. Qed.

Lemma complete_session_outcome body gameSession env r d c :
  wp (complete_session body gameSession) env (mkWorld r true d c)
     (λ res w',
        complete_outcome env body gameSession r d res (redis w') (db w')).
Proof.
  unfold complete_session.
  destruct (Session.isCompleted gameSession) eqn:Hprogress.
  { apply wp_failure. by constructor. }
  destruct (completion_stats gameSession (CompleteBody.timeElapsed body))
    as [gameStats sorted] eqn:Hstats.
  apply wp_bind, wp_lift.
  destruct (calculateScore gameStats) as [score|e] eqn:Hscore.
  2: { apply outcome_score_throws; [done|]. by rewrite Hstats. }
  apply wp_bind, wp_completeGame.
  2: { intros e c' Hfails. simpl.
       pose proof (outcome_store_fails env body gameSession r d e score)
         as Hfailed.
       rewrite Hstats in Hfailed. by apply Hfailed. }
  intros old c' Hpool Hrow new.
  assert (∀ res r',
    cache_phase env (CompleteBody.gameId body)
      (finalized env sorted (Score.totalScore score))
      (completion_response body sorted score) r res r' →
    complete_outcome env body gameSession r d res r'
      (Db.mk (update_user_stats old new (Db.users d))
             (<[CompleteBody.gameId body := new]> (Db.games d))
             (Db.game_matches d))) as Hphase.
  { intros res r' Hres.
    pose proof (outcome_stored env body gameSession r d score old res r')
      as Hstored.
    rewrite Hstats in Hstored. simpl in Hstored. by apply Hstored. }
  apply wp_bind, wp_ask.
  fold (finalized env sorted (Score.totalScore score)).
  set (final := finalized env sorted (Score.totalScore score)) in *.
  apply wp_bind, wp_wrapped; [intros _|done].
  unfold cacheGameSession. apply wp_redis_set.
  2: { intros Hset c''. simpl. apply Hphase. by apply phase_set_fails. }
  intros Hset.
  apply wp_bind, wp_wrapped; [intros _|done]. apply wp_redis_del.
  2: { intros Hdel c''. simpl. apply Hphase.
       by apply phase_del_stats_fails. }
  intros Hdel1.
  apply wp_bind, wp_wrapped; [intros _|done]. apply wp_redis_del.
  2: { intros Hdel c''. simpl. apply Hphase.
       by apply (phase_del_leaderboard_fails env _ final). }
  intros Hdel2.
  apply wp_bind, wp_wrapped; [intros _|done]. apply wp_trackUserActivity.
  2: { intros e c'' Hfails. simpl. apply Hphase.
       by apply (phase_tracking_fails env _ final). }
  intros n Hn Hexpire Hincr.
  apply wp_bind, wp_updateGameMetrics, wp_ret. simpl.
  apply Hphase. by apply (phase_done env _ final).
Qed.

(** Every run of the complete handler: either no session is read and
    nothing changes, or the run is an outcome of [complete_session]. *)
Lemma complete_cases env body w :
  let gameId := CompleteBody.gameId body in
  let response := (handle env (Complete body) w).1 in
  let w' := (handle env (Complete body) w).2 in
  (not_read env (redis w) (isOpen w) gameId ∧
   redis w' = redis w ∧ db w' = db w ∧ status response ≠ 200) ∨
  (∃ gameSession res,
     cache_answers env w gameId ∧
     redis w !! session_key gameId = Some (VSession gameSession) ∧
     complete_outcome env body gameSession (redis w) (db w) res
       (redis w') (db w') ∧
     response = response_of "Failed to complete game" res).
Proof.
  intros gameId response w'. subst response w'.
  apply handle_wp. destruct w as [r o d c]. simpl.
  unfold complete. apply wp_try_catch, wp_read_session.
  - intros o' c' Hnot. left. by simpl.
  - intros e o' c' Hnot. apply wp_bind, wp_console_log, wp_failure.
    left. by simpl.
  - intros gameSession Hconnect Hget Hcached.
    eapply wp_mono; [|apply complete_session_outcome].
    intros [response|e] [r' o' d' c'] Houtcome; simpl in Houtcome.
    + right. exists gameSession, (Returned response). by simpl.
    + apply wp_bind, wp_console_log, wp_failure.
      right. exists gameSession, (Thrown e). by simpl.
Qed.


(** ** Invariants of the cached sessions *)

Lemma db_grows_refl d : db_grows d d.
Proof. intros g row Hrow. by exists row. Qed.

Lemma db_grows_trans d1 d2 d3 : db_grows d1 d2 → db_grows d2 d3 → db_grows d1 d3.
Proof.
  intros H12 H23 g row Hrow.
  destruct (H12 g row Hrow) as (row2 & Hrow2 & Hflag2).
  destruct (H23 g row2 Hrow2) as (row3 & Hrow3 & Hflag3).
  exists row3. split; [done|]. auto.
Qed.

Lemma db_grows_same_games d d' : Db.games d' = Db.games d → db_grows d d'.
Proof. intros Hgames g row Hrow. exists row. by rewrite Hgames. Qed.

Lemma db_grows_insert_fresh users matches d g row :
  Db.games d !! g = None →
  db_grows d (Db.mk users (<[g := row]> (Db.games d)) matches).
Proof.
  intros Hfresh g' row' Hrow'. exists row'. simpl.
  rewrite lookup_insert_ne; [done|]. congruence.
Qed.

Lemma db_grows_completed users matches d g old score moves timeElapsed cards :
  Db.games d !! g = Some old →
  db_grows d
    (Db.mk users
       (<[g := completed_row old score moves timeElapsed cards]> (Db.games d))
       matches).
Proof.
  intros Hold g' row' Hrow'. simpl.
  destruct (decide (g = g')) as [<-|Hne].
  - rewrite lookup_insert_eq. eexists. split; [done|]. done.
  - rewrite lookup_insert_ne by done. by exists row'.
Qed.

Lemma session_ok_db d d' key s :
  db_grows d d' → session_ok d key s → session_ok d' key s.
Proof.
  intros Hgrows (Hkey & Hmoves & Htier & row & Hrow & Hflag).
  destruct (Hgrows _ _ Hrow) as (row' & Hrow' & Hflag').
  repeat split; try done. exists row'. auto.
Qed.

Lemma cache_ok_db r d d' : db_grows d d' → cache_ok r d → cache_ok r d'.
Proof.
  intros Hgrows Hok key value Hvalue. specialize (Hok key value Hvalue).
  destruct value; try done. by eapply session_ok_db.
Qed.

Lemma cache_ok_delete r d key : cache_ok r d → cache_ok (delete key r) d.
Proof.
  intros Hok key' value Hvalue.
  apply lookup_delete_Some in Hvalue as [_ Hvalue]. by apply Hok.
Qed.

Lemma cache_ok_number r d key n :
  cache_ok r d → cache_ok (<[key := VNumber n]> r) d.
Proof.
  intros Hok key' value Hvalue.
  apply lookup_insert_Some in Hvalue as [[_ <-]|[_ Hvalue]]; [done|].
  by apply Hok.
Qed.

Lemma cache_ok_session r d g s :
  cache_ok r d → session_ok d (session_key g) s →
  cache_ok (<[session_key g := VSession s]> r) d.
Proof.
  intros Hok Hs key' value Hvalue.
  apply lookup_insert_Some in Hvalue as [[<- <-]|[_ Hvalue]]; [done|].
  by apply Hok.
Qed.

Lemma flags_kept_refl r : flags_kept r r.
Proof. intros g s Hs Hflag. by exists s. Qed.

Lemma flags_kept_trans r1 r2 r3 :
  flags_kept r1 r2 → flags_kept r2 r3 → flags_kept r1 r3.
Proof.
  intros H12 H23 g s Hs Hflag.
  destruct (H12 g s Hs Hflag) as (s2 & Hs2 & Hflag2).
  by apply (H23 g s2).
Qed.

Lemma flags_kept_delete r key :
  (∀ g, key ≠ session_key g) → flags_kept r (delete key r).
Proof.
  intros Hkey g s Hs Hflag. exists s. split; [|done].
  rewrite lookup_delete_ne; [done|apply Hkey].
Qed.

Lemma flags_kept_number r key n :
  (∀ g, key ≠ session_key g) → flags_kept r (<[key := VNumber n]> r).
Proof.
  intros Hkey g s Hs Hflag. exists s. split; [|done].
  rewrite lookup_insert_ne; [done|apply Hkey].
Qed.

Lemma flags_kept_session r g s' :
  (∀ s, r !! session_key g = Some (VSession s) →
        Session.isCompleted s = true → Session.isCompleted s' = true) →
  flags_kept r (<[session_key g := VSession s']> r).
Proof.
  intros Hflag g' s Hs Hcompleted.
  destruct (decide (session_key g = session_key g')) as [Heq|Hne].
  - rewrite <- Heq in *. exists s'. rewrite lookup_insert_eq.
    split; [done|]. by apply (Hflag s).
  - exists s. by rewrite lookup_insert_ne.
Qed.

(** A counter key never holds anything but a number. *)
Lemma counter_at_ok r d key :
  cache_ok r d → (∀ g, key ≠ session_key g) → counter_at r key ≠ None.
Proof.
  intros Hok Hkey. unfold counter_at.
  destruct (r !! key) as [[s|n|t]|] eqn:Hvalue; try done.
  - destruct (Hok _ _ Hvalue) as [Hs _]. by destruct (Hkey (Session.gameId s)).
  - by destruct (Hok _ _ Hvalue).
Qed.

Lemma step_ok_refl r d : step_ok r d r d.
Proof.
  intros Hok. split; [done|]. split; [apply flags_kept_refl|apply db_grows_refl].
Qed.

Lemma step_ok_trans r1 d1 r2 d2 r3 d3 :
  step_ok r1 d1 r2 d2 → step_ok r2 d2 r3 d3 → step_ok r1 d1 r3 d3.
Proof.
  intros H12 H23 Hok.
  destruct (H12 Hok) as (Hok2 & Hflags2 & Hdb2).
  destruct (H23 Hok2) as (Hok3 & Hflags3 & Hdb3).
  split; [done|]. split.
  - by eapply flags_kept_trans.
  - by eapply db_grows_trans.
Qed.

Lemma step_ok_db r d d' : db_grows d d' → step_ok r d r d'.
Proof.
  intros Hgrows Hok. split; [by eapply cache_ok_db|].
  split; [apply flags_kept_refl|done].
Qed.

Lemma step_ok_delete r d key :
  (∀ g, key ≠ session_key g) → step_ok r d (delete key r) d.
Proof.
  intros Hkey Hok. split; [by apply cache_ok_delete|].
  split; [by apply flags_kept_delete|apply db_grows_refl].
Qed.

Lemma step_ok_number r d key n :
  (∀ g, key ≠ session_key g) → step_ok r d (<[key := VNumber n]> r) d.
Proof.
  intros Hkey Hok. split; [by apply cache_ok_number|].
  split; [by apply flags_kept_number|apply db_grows_refl].
Qed.

Lemma step_ok_session r d g s' :
  (cache_ok r d →
   session_ok d (session_key g) s' ∧
   ∀ s, r !! session_key g = Some (VSession s) →
        Session.isCompleted s = true → Session.isCompleted s' = true) →
  step_ok r d (<[session_key g := VSession s']> r) d.
Proof.
  intros Hs Hok. destruct (Hs Hok) as [Hs' Hflag].
  split; [by apply cache_ok_session|].
  split; [by apply flags_kept_session|apply db_grows_refl].
Qed.

Lemma wp_rebase {A} (m : IO A) env r d r1 o1 d1 c1 :
  step_ok r d r1 d1 →
  wp m env (mkWorld r1 o1 d1 c1) (on_state (step_ok r1 d1)) →
  wp m env (mkWorld r1 o1 d1 c1) (on_state (step_ok r d)).
Proof.
  intros Hstep. apply wp_mono. intros res w'. unfold on_state.
  by apply step_ok_trans.
Qed.

(** The catch-all of a handler leaves cache and tables alone. *)
Lemma wp_handler (body : IO Response) (logged fallback : string) env w
    (P : gmap string CacheValue → Db.t → Prop) :
  wp body env w (on_state P) →
  wp (try_catch body
        (λ error, console_log Error logged;; failure 500 fallback))
     env w (on_state P).
Proof.
  intros Hbody. apply wp_try_catch. eapply wp_mono; [|exact Hbody].
  intros [response|e] [r' o' d' c']; unfold on_state; simpl; [done|].
  intros HP. by apply wp_bind, wp_console_log, wp_failure.
Qed.

Lemma handle_on_state request env w
    (P : gmap string CacheValue → Db.t → Prop) :
  wp (route request) env w (on_state P) →
  P (redis (handle env request w).2) (db (handle env request w).2).
Proof.
  intros Hwp. apply (handle_wp request env w (λ _ w', P (redis w') (db w'))).
  eapply wp_mono; [|exact Hwp]. by intros [response|e] w'.
Qed.

(** *** Complete *)

Lemma completion_stats_session s timeElapsed :
  ∃ sorted,
    (completion_stats s timeElapsed).2 = Session.set_matches sorted s ∧
    sorted ≡ₚ Session.matches s.
Proof.
  unfold completion_stats.
  pose proof (calculateConsecutiveMatches_spec (Session.matches s)) as Hspec.
  destruct (calculateConsecutiveMatches (Session.matches s))
    as [streak sorted].
  exists sorted. simpl. split; [done|]. by destruct Hspec.
Qed.

Lemma cache_phase_step env g final response r d res r' :
  session_ok d (session_key g) final →
  Session.isCompleted final = true →
  cache_phase env g final response r res r' →
  step_ok r d r' d.
Proof.
  intros Hfinal Hflag Hphase.
  assert (step_ok r d (<[session_key g := VSession final]> r) d) as Hset.
  { apply step_ok_session. intros _. by split. }
  assert (∀ r0, step_ok r0 d
            (delete ("user:stats:" +:+ Session.username final) r0) d) as Hdel1.
  { intros r0. apply step_ok_delete. apply user_stats_key_ne. }
  assert (∀ r0, step_ok r0 d (delete "leaderboard:top" r0) d) as Hdel2.
  { intros r0. apply step_ok_delete. apply leaderboard_key_ne. }
  destruct Hphase.
  - apply step_ok_refl.
  - done.
  - eapply step_ok_trans; [exact Hset|apply Hdel1].
  - eapply step_ok_trans; [exact Hset|].
    eapply step_ok_trans; [apply Hdel1|apply Hdel2].
  - eapply step_ok_trans; [exact Hset|].
    eapply step_ok_trans; [apply Hdel1|].
    eapply step_ok_trans; [apply Hdel2|].
    apply step_ok_number. apply activity_key_not_session.
Qed.

Lemma cache_phase_done env g final response r x r' :
  cache_phase env g final response r (Returned x) r' →
  x = response ∧ r' !! session_key g = Some (VSession final).
Proof.
  inversion 1; subst. split; [done|].
  rewrite lookup_insert_ne by apply activity_key_not_session.
  subst r3 r2 r1.
  rewrite lookup_delete_ne by apply leaderboard_key_ne.
  rewrite lookup_delete_ne by apply user_stats_key_ne.
  apply lookup_insert_eq.
Qed.

Lemma finalized_session_ok env body s sorted total old d :
  (completion_stats s (CompleteBody.timeElapsed body)).2 = sorted →
  session_ok d (session_key (CompleteBody.gameId body)) s →
  let final := finalized env sorted total in
  let new :=
    completed_row old total (Session.moves sorted)
      (CompleteBody.timeElapsed body)
      (Z.of_nat (length (Session.matches sorted))) in
  session_ok
    (Db.mk (update_user_stats old new (Db.users d))
           (<[CompleteBody.gameId body := new]> (Db.games d))
           (Db.game_matches d))
    (session_key (CompleteBody.gameId body)) final
  ∧ Session.isCompleted final = true.
Proof.
  intros Hsorted (Hkey & Hmoves & Htier & row & Hrow & Hflag) final new.
  destruct (completion_stats_session s (CompleteBody.timeElapsed body))
    as (matches' & Hstats & Hperm).
  subst final new sorted. rewrite Hstats.
  split; [|done]. unfold session_ok, finalized. simpl.
  split; [done|]. split; [by rewrite Hperm|]. split; [done|].
  apply session_key_inj in Hkey. rewrite <- Hkey.
  eexists. by rewrite lookup_insert_eq.
Qed.

Lemma complete_outcome_ok env body s r d res r' d' :
  r !! session_key (CompleteBody.gameId body) = Some (VSession s) →
  complete_outcome env body s r d res r' d' →
  step_ok r d r' d'.
Proof.
  intros Hcached Houtcome.
  destruct Houtcome
    as [Hflag|e Hflag Hscore|e score Hflag Hscore Hstore
       |score old res r' sorted new Hflag Hscore Hpool Hrow Hphase];
    try apply step_ok_refl.
  intros Hok.
  pose proof (Hok _ _ Hcached) as Hs. simpl in Hs.
  destruct (finalized_session_ok env body s sorted (Score.totalScore score)
              old d eq_refl Hs) as [Hfinal Hcompleted].
  fold new in Hfinal.
  eapply step_ok_trans; [|by eapply cache_phase_step| exact Hok].
  apply step_ok_db. by apply db_grows_completed.
Qed.

Lemma complete_outcome_success env body s r d x r' d' :
  complete_outcome env body s r d (Returned x) r' d' →
  status x = 200 →
  ∃ score final,
    calculateScore (completion_stats s (CompleteBody.timeElapsed body)).1
      = Returned score ∧
    x = completion_response body
          (completion_stats s (CompleteBody.timeElapsed body)).2 score ∧
    r' !! session_key (CompleteBody.gameId body) = Some (VSession final) ∧
    Session.isCompleted final = true.
Proof.
  inversion 1 as [Hflag| | |score old res r'' sorted new Hflag Hscore Hpool
                              Hrow Hphase]; subst; [done|].
  intros _. apply cache_phase_done in Hphase as [-> Hfinal].
  exists score. eexists. split; [done|]. split; [done|]. split; [done|]. done.
Qed.

(** *** Match *)

(** The end of the match handler never throws: whatever fails in it, the
    answer is the 200 response, and the cache holds the old or the new
    session, with or without the bumped activity counter. *)
Lemma wp_match_finish body s' isMatch pointsEarned bonusPoints env r d c
    (Q : Completion Response → World → Prop) :
  let key := session_key (MatchBody.gameId body) in
  let counter := activity_key env (Session.username s') "match_attempt" in
  (∀ r1 r' c',
      r1 = r ∨ r1 = <[key := VSession s']> r →
      r' = r1 ∨ (∃ n, r' = <[counter := VNumber n]> r1) →
      Q (Returned
           (mkResponse 200
              (MatchProcessed isMatch (pointsEarned + bonusPoints)%Z
                 (Session.score s') (Session.moves s')
                 (length (Session.matches s'))
                 (bool_decide (2 * length (Session.matches s')
                               = length (Session.cards s'))))))
        (mkWorld r' true d c')) →
  wp (match_finish body s' isMatch pointsEarned bonusPoints) env
     (mkWorld r true d c) Q.
Proof.
  intros key counter HQ. unfold match_finish.
  assert (∀ r1 c1, r1 = r ∨ r1 = <[key := VSession s']> r →
    wp (try_catch
          (wrapped (trackUserActivity (Session.username s') "match_attempt");;
           ret tt)
          (λ _, console_log Warn "Activity tracking failed (non-critical)");;
        try_catch updateGameMetrics
          (λ _, console_log Warn "Metrics update failed (non-critical)");;
        ret (mkResponse 200
               (MatchProcessed isMatch (pointsEarned + bonusPoints)%Z
                  (Session.score s') (Session.moves s')
                  (length (Session.matches s'))
                  (bool_decide (2 * length (Session.matches s')
                                = length (Session.cards s'))))))
       env (mkWorld r1 true d c1) Q) as Hrest.
  { intros r1 c1 Hr1.
    apply wp_bind, wp_try_catch, wp_bind, wp_wrapped; [intros _|done].
    apply wp_trackUserActivity.
    - intros n Hn _ _. apply wp_ret.
      apply wp_bind, wp_updateGameMetrics, wp_ret.
      apply (HQ r1); [done|]. right. by eexists.
    - intros e c' _. apply wp_console_log.
      apply wp_bind, wp_updateGameMetrics, wp_ret.
      apply (HQ r1); [done|]. by left. }
  apply wp_bind, wp_try_catch, wp_wrapped; [intros _|done].
  unfold cacheGameSession. apply wp_redis_set.
  - intros _. apply Hrest. by right.
  - intros _ c'. apply wp_console_log, Hrest. by left.
Qed.

Lemma match_finish_step body s s' isMatch pointsEarned bonusPoints env r d c :
  r !! session_key (MatchBody.gameId body) = Some (VSession s) →
  Session.isCompleted s = false →
  (session_ok d (session_key (MatchBody.gameId body)) s →
   session_ok d (session_key (MatchBody.gameId body)) s') →
  wp (match_finish body s' isMatch pointsEarned bonusPoints) env
     (mkWorld r true d c) (on_state (step_ok r d)).
Proof.
  intros Hcached Hprogress Hs'. apply wp_match_finish.
  intros r1 r' c' Hr1 Hr'. unfold on_state. simpl.
  assert (step_ok r d r1 d) as Hstep1.
  { destruct Hr1 as [->| ->]; [apply step_ok_refl|].
    apply step_ok_session. intros Hok. split.
    - apply Hs'. exact (Hok _ _ Hcached).
    - intros s0 Hs0. congruence. }
  destruct Hr' as [->|[n ->]]; [done|].
  eapply step_ok_trans; [exact Hstep1|].
  apply step_ok_number, activity_key_not_session.
Qed.

Lemma match_session_step body s env r d c :
  r !! session_key (MatchBody.gameId body) = Some (VSession s) →
  wp (match_session body s) env (mkWorld r true d c) (on_state (step_ok r d)).
Proof.
  intros Hcached. unfold match_session.
  destruct (Session.isCompleted s) eqn:Hprogress.
  { apply wp_failure, step_ok_refl. }
  destruct (find_card (MatchBody.card1Id body) (Session.cards s))
    as [[i1 card1]|]; [|apply wp_failure, step_ok_refl].
  destruct (find_card (MatchBody.card2Id body) (Session.cards s))
    as [[i2 card2]|]; [|apply wp_failure, step_ok_refl].
  destruct (Card.isMatched card1 || Card.isMatched card2).
  { apply wp_failure, step_ok_refl. }
  apply wp_bind.
  destruct (bool_decide (Card.pairId card1 = Card.pairId card2)).
  - unfold score_match.
    destruct (difficulties !! Session.difficulty s) as [config|].
    2: { apply wp_throw, step_ok_refl. }
    apply wp_bind, wp_recordMatch.
    2: { intros e c' _. apply step_ok_refl. }
    intros c' Hrow. apply wp_bind, wp_ask, wp_ret.
    apply wp_rebase.
    { apply step_ok_db. by apply db_grows_same_games. }
    apply (match_finish_step body s); [done|done|].
    intros (Hkey & Hmoves & Htier & Hstored). unfold session_ok. simpl.
    split; [done|]. split; [|done].
    rewrite length_app. simpl. lia.
  - apply wp_ret. apply (match_finish_step body s); [done|done|].
    intros (Hkey & Hmoves & Htier & Hstored). unfold session_ok. simpl.
    split; [done|]. split; [lia|done].
Qed.

Lemma match_step env body r o d c :
  wp (match_ body) env (mkWorld r o d c) (on_state (step_ok r d)).
Proof.
  unfold match_. apply wp_handler, wp_read_session.
  - intros. apply step_ok_refl.
  - intros. apply step_ok_refl.
  - intros s _ _ Hcached. by apply match_session_step.
Qed.

Lemma complete_step env body r o d c :
  wp (complete body) env (mkWorld r o d c) (on_state (step_ok r d)).
Proof.
  unfold complete. apply wp_handler, wp_read_session.
  - intros. apply step_ok_refl.
  - intros. apply step_ok_refl.
  - intros s _ _ Hcached.
    eapply wp_mono; [|apply complete_session_outcome].
    intros res w' Houtcome. unfold on_state.
    eapply complete_outcome_ok; [exact Hcached|exact Houtcome].
Qed.

(** *** Start *)

Lemma generateCardSet_Returned difficulty categories g deck g' :
  generateCardSet (Some difficulty) categories g = Returned (deck, g') →
  is_Some (difficulties !! difficulty).
Proof.
  unfold generateCardSet. simpl.
  by destruct (difficulties !! difficulty).
Qed.

Lemma step_ok_new_session r d g row s users matches :
  Db.games d !! g = None →
  let d' := Db.mk users (<[g := row]> (Db.games d)) matches in
  session_ok d' (session_key g) s →
  step_ok r d (<[session_key g := VSession s]> r) d'.
Proof.
  intros Hfresh d' Hs Hok.
  assert (db_grows d d') as Hgrows by by apply db_grows_insert_fresh.
  split; [|split; [|done]].
  - apply cache_ok_session; [|done]. by eapply cache_ok_db.
  - apply flags_kept_session. intros s0 Hs0 _. exfalso.
    destruct (Hok _ _ Hs0) as (Hkey & _ & _ & row0 & Hrow0 & _).
    apply session_key_inj in Hkey. congruence.
Qed.

Lemma start_step env body r o d c :
  wp (start body) env (mkWorld r o d c) (on_state (step_ok r d)).
Proof.
  unfold start. apply wp_handler.
  apply wp_bind, wp_createOrGetUser.
  2: { intros. apply step_ok_refl. }
  intros user d1 c1 Hgames _.
  apply wp_rebase.
  { apply step_ok_db. by apply db_grows_same_games. }
  apply wp_bind, wp_ask, wp_bind, wp_lift.
  destruct (generateCardSet _ _ _) as [[cards g']|e] eqn:Hcards.
  2: { apply step_ok_refl. }
  apply generateCardSet_Returned in Hcards as Htier.
  apply wp_bind, wp_createGame.
  2: { intros. apply step_ok_refl. }
  intros c2 Hfresh game. simpl.
  assert (step_ok r d1 r
            (Db.mk (Db.users d1) (<[uuid_game env := game]> (Db.games d1))
                   (Db.game_matches d1))) as Hstored.
  { apply step_ok_db. by apply db_grows_insert_fresh. }
  apply wp_bind, wp_wrapped.
  2: { intros. exact Hstored. }
  intros _. unfold cacheGameSession. apply wp_redis_set.
  2: { intros. exact Hstored. }
  intros _. apply wp_rebase.
  { apply step_ok_new_session; [done|].
    unfold session_ok. simpl. split; [done|]. split; [done|].
    split; [done|]. exists game. by rewrite lookup_insert_eq. }
  apply wp_bind, wp_wrapped; [intros _|done].
  unfold incrementDailyGames. apply wp_bind, wp_ask, wp_expire_incr.
  2: { intros. apply step_ok_refl. }
  intros n _ _ _. apply wp_rebase.
  { apply step_ok_number, analytics_key_ne. }
  apply wp_bind, wp_wrapped; [intros _|done].
  apply wp_trackUserActivity.
  2: { intros. apply step_ok_refl. }
  intros n' _ _ _. apply wp_rebase.
  { apply step_ok_number, activity_key_not_session. }
  apply wp_bind, wp_updateLastPlayed.
  - intros. apply wp_ret, step_ok_refl.
  - intros. apply step_ok_refl.
Qed.

(** Every request takes a well-formed cache to a well-formed cache, keeps
    the completion flags that are set and deletes no row. *)
Lemma handle_step_ok env request w :
  step_ok (redis w) (db w)
    (redis (handle env request w).2) (db (handle env request w).2).
Proof.
  apply handle_on_state. destruct w as [r o d c].
  destruct request; simpl;
    [apply start_step|apply match_step|apply complete_step].
Qed.

Lemma reachable_cache_ok w : reachable w → cache_ok (redis w) (db w).
Proof.
  induction 1 as [w (Hredis & _ & _)|w env request Hreach IH].
  - intros key value. by rewrite Hredis, lookup_empty.
  - by destruct (handle_step_ok env request w IH).
Qed.

Lemma reachable_started : reachable started.
Proof. apply reachable_step, reachable_fresh. by repeat split. Qed.


Lemma match_rejection_witness :
  (handle demo_env (Match (MatchBody.mk "game-0" "nope_1" "wink_2" None))
     tiny_world).1
  = mkResponse 400 (Failed "Invalid card IDs").
Proof.
  refine (proj1 (proj1 (match_rejection_changes_nothing demo_env tiny_world
            (MatchBody.mk "game-0" "nope_1" "wink_2" None) tiny_session
            _ _ _) _)).
  - split; [by left|reflexivity].
  - reflexivity.
  - reflexivity.
  - left. apply (bool_decide_unpack _). by vm_compute.
Defined.

(** ** Completed sessions *)

Lemma cached_session_Some w g s :
  cached_session w g = Some s ↔ redis w !! session_key g = Some (VSession s).
Proof.
  unfold cached_session.
  destruct (redis w !! session_key g) as [[s'| |]|]; naive_solver.
Qed.

Lemma complete_success_sets_flag env body w :
  status (handle env (Complete body) w).1 = 200 →
  completed_in_cache (handle env (Complete body) w).2 (CompleteBody.gameId body).
Proof.
  intros Hstatus.
  destruct (complete_cases env body w)
    as [(_ & _ & _ & Hnot)
       |(s & res & _ & Hcached & Houtcome & Hresponse)]; [done|].
  rewrite Hresponse in Hstatus. destruct res as [x|e]; [|done].
  destruct (complete_outcome_success _ _ _ _ _ _ _ _ Houtcome Hstatus)
    as (score & final & _ & _ & Hfinal & Hflag).
  by exists final.
Qed.

(** C3. Once a session's completion flag is set in the cache (in
    particular after a Complete request on it has succeeded), every Match
    or Complete request for that session that reads it is answered 400
    "Game already completed", and leaves the cache and the database
    unchanged: a second Complete yields the conflict, not a second
    score. *)
Theorem completed_session_rejects_requests (env : Env) (w : World)
    (request : Request) (gameId : string) :
  targets request gameId →
  cache_answers env w gameId →
  completed_in_cache w gameId ∨
  (∃ env0 w0 body0,
      CompleteBody.gameId body0 = gameId ∧
      status (handle env0 (Complete body0) w0).1 = 200 ∧
      w = (handle env0 (Complete body0) w0).2) →
  (handle env request w).1 = conflict ∧
  redis (handle env request w).2 = redis w ∧
  db (handle env request w).2 = db w.
Proof.
  intros Htargets Hanswers Hcompleted.
  apply completed_session_conflict with gameId; [done|done|].
  destruct Hcompleted as [Hflag|(env0 & w0 & body0 & <- & Hstatus & ->)];
    [done|].
  by apply complete_success_sets_flag.
Qed.

Lemma completed_session_rejects_requests_witness :
  (handle demo_env (Complete demo_complete) finished).1 = conflict.
Proof.
  refine (proj1 (completed_session_rejects_requests demo_env finished
                   (Complete demo_complete) "game-1" _ _ _)).
  - reflexivity.
  - split; [by right|reflexivity].
  - right. exists demo_env, started, demo_complete.
    split; [reflexivity|]. split; [by vm_compute|reflexivity].
Defined.

(** ** The session invariants *)

(** C9. In every world reachable by Start, Match and Complete requests,
    each cached session has at least as many moves as matches, and no
    request ever turns a set completion flag back: a session that is
    completed is still cached, and completed, after any request. *)
Theorem session_invariants (w : World) :
  reachable w →
  (∀ key s,
     redis w !! key = Some (VSession s) →
     (Z.of_nat (length (Session.matches s)) ≤ Session.moves s)%Z) ∧
  (∀ env request g s,
     cached_session w g = Some s →
     Session.isCompleted s = true →
     ∃ s', cached_session (handle env request w).2 g = Some s' ∧
           Session.isCompleted s' = true).
Proof.
  intros Hreach. pose proof (reachable_cache_ok w Hreach) as Hok. split.
  - intros key s Hs. by destruct (Hok _ _ Hs) as (_ & Hmoves & _).
  - intros env request g s Hs Hflag. apply cached_session_Some in Hs.
    destruct (handle_step_ok env request w Hok) as (_ & Hflags & _).
    destruct (Hflags g s Hs Hflag) as (s' & Hs' & Hflag').
    exists s'. by rewrite cached_session_Some.
Qed.

Lemma session_invariants_witness :
  Session.moves played_session = 2%Z ∧
  length (Session.matches played_session) = 1 ∧
  Session.isCompleted played_session = true ∧
  (Z.of_nat (length (Session.matches played_session))
   ≤ Session.moves played_session)%Z ∧
  (∃ s', cached_session (handle demo_env demo_pair played_out).2 "game-1"
           = Some s' ∧
         Session.isCompleted s' = true) ∧
  (∃ s', cached_session
           (handle demo_env (Complete demo_complete) played_out).2 "game-1"
           = Some s' ∧
         Session.isCompleted s' = true).
Proof.
  destruct (session_invariants played_out) as [Hmoves Hflag].
  { unfold played_out, played. do 3 apply reachable_step.
    exact reachable_started. }
  split; [reflexivity|]. split; [reflexivity|]. split; [reflexivity|].
  split; [|split].
  - apply (Hmoves (session_key "game-1") played_session). by vm_compute.
  - apply (Hflag demo_env demo_pair "game-1" played_session);
      [by vm_compute | reflexivity].
  - apply (Hflag demo_env (Complete demo_complete) "game-1" played_session);
      [by vm_compute | reflexivity].
Defined.

(** ** Completing early *)

Lemma completion_stats_fields s timeElapsed :
  let gameStats := (completion_stats s timeElapsed).1 in
  GameStats.matches gameStats = Z.of_nat (length (Session.matches s)) ∧
  GameStats.wrongMoves gameStats
    = (Session.moves s - Z.of_nat (length (Session.matches s)))%Z ∧
  GameStats.timeElapsed gameStats = timeElapsed ∧
  GameStats.difficulty gameStats = Some (Session.difficulty s) ∧
  GameStats.consecutiveMatches gameStats
    = Some (calculateConsecutiveMatches (Session.matches s)).1.
Proof.
  unfold completion_stats.
  by destruct (calculateConsecutiveMatches (Session.matches s)).
Qed.

(** The score of a game with [matches] pairs found is at most
    63 * matches + 80. *)
Lemma calculateScore_bound (gameStats : GameStats.t) (config : Config.t)
    (score : Score.t) :
  difficulties !! default "easy" (GameStats.difficulty gameStats)
    = Some config →
  (0 ≤ GameStats.matches gameStats)%Z →
  calculateScore gameStats = Returned score →
  (0 ≤ Score.totalScore score ≤ 63 * GameStats.matches gameStats + 80)%Z.
Proof.
  intros Hconfig Hmatches Hrun.
  destruct (calculateScore_closed_form gameStats config Hconfig)
    as (score' & Hrun' & _ & Hspeed & Hperfect & Hstreak & Hpenalty & Htotal).
  rewrite Hrun in Hrun'. injection Hrun' as <-.
  rewrite Htotal, Hspeed, Hperfect, Hstreak, Hpenalty, floor_three_halves.
  set (base := (GameStats.matches gameStats * Config.pointsPerMatch config)%Z).
  assert (0 ≤ base ≤ 25 * GameStats.matches gameStats)%Z as Hbase.
  { unfold base.
    apply difficulties_lookup in Hconfig as [-> | [-> | [-> | ->]]];
      simpl; lia. }
  pose proof (Z.mul_div_le (3 * base) 2 eq_refl) as Hhalf.
  assert (0 ≤ (3 * base) `div` 2)%Z as Hpos by (apply Z.div_pos; lia).
  destruct (Qlt_le_dec _ _); repeat case_decide; lia.
Qed.

(** The write of a completion within the limits is accepted. *)
Lemma completion_fits env w body s row score :
  within_limits w body s →
  session_ok (db w) (session_key (CompleteBody.gameId body)) s →
  Db.games (db w) !! CompleteBody.gameId body = Some row →
  calculateScore (completion_stats s (CompleteBody.timeElapsed body)).1
    = Returned score →
  let sorted := (completion_stats s (CompleteBody.timeElapsed body)).2 in
  pool_execute env
    (UpdateGameCompleted (CompleteBody.gameId body) (Score.totalScore score)
       (Session.moves sorted) (CompleteBody.timeElapsed body)
       (Z.of_nat (length (Session.matches sorted)))) (db w) ≠ None.
Proof.
  intros (Htime & _ & Hcounter & Htotals) (_ & Hmoves & [config Hconfig] & _)
    Hrow Hrun sorted.
  destruct (completion_stats_fields s (CompleteBody.timeElapsed body))
    as (Hmatches & _ & _ & Hdifficulty & _).
  destruct (calculateScore_bound
              (completion_stats s (CompleteBody.timeElapsed body)).1
              config score) as [Hlow Hhigh];
    [by rewrite Hdifficulty | rewrite Hmatches; lia | exact Hrun |].
  rewrite Hmatches in Hhigh.
  destruct (completion_stats_session s (CompleteBody.timeElapsed body))
    as (matches & Hsorted & Hperm).
  apply Permutation_length in Hperm.
  subst sorted. rewrite Hsorted. simpl.
  rewrite decide_True by (unfold fits_integer; lia).
  rewrite Hrow. rewrite decide_True; [done|].
  intros _ name user Huser _. simpl.
  destruct (Htotals name user Huser). unfold fits_integer. lia.
Qed.

(** Without faults and within the limits, a cached in-progress session of
    a reachable world is completed by the handler. *)
Lemma complete_succeeds env w body s :
  reachable w → no_faults env → within_limits w body s →
  redis w !! session_key (CompleteBody.gameId body) = Some (VSession s) →
  Session.isCompleted s = false →
  ∃ score,
    calculateScore (completion_stats s (CompleteBody.timeElapsed body)).1
      = Returned score ∧
    (handle env (Complete body) w).1
      = completion_response body
          (completion_stats s (CompleteBody.timeElapsed body)).2 score ∧
    completed_in_cache (handle env (Complete body) w).2
      (CompleteBody.gameId body).
Proof.
  intros Hreach (Hconnect & Hredis & Hpool) Hlimits Hcached Hprogress.
  pose proof (reachable_cache_ok w Hreach) as Hok.
  pose proof (Hok _ _ Hcached) as Hs. simpl in Hs.
  pose proof Hs as (Hkey & Hmoves & [config Hconfig] & row & Hrow & _).
  apply session_key_inj in Hkey.
  destruct (completion_stats_fields s (CompleteBody.timeElapsed body))
    as (_ & _ & _ & Hdifficulty & _).
  destruct (calculateScore_closed_form
              (completion_stats s (CompleteBody.timeElapsed body)).1 config)
    as (score & Hrun & _).
  { by rewrite Hdifficulty. }
  exists score. split; [exact Hrun|].
  rewrite <- Hkey in Hrow.
  pose proof (completion_fits env w body s row score Hlimits Hs Hrow Hrun)
    as Hfits.
  pose proof (complete_cases env body w) as Hcases. cbv zeta in Hcases.
  destruct (handle env (Complete body) w) as [response [r' o' d' c']].
  destruct w as [r o d c]. simpl in *.
  destruct Hcases
    as [(Hnot & _)|(s' & res & _ & Hcached' & Houtcome & ->)].
  { exfalso. eapply Hnot; [by right|apply Hredis|exact Hcached]. }
  rewrite Hcached in Hcached'. injection Hcached' as <-.
  destruct Houtcome
    as [Hflag|e Hflag Hscore|e score' sorted Hflag Hscore Hstore
       |score' old res r'' sorted new Hflag Hscore Hpool' Hrow' Hphase];
    try congruence.
  { exfalso. rewrite Hrun in Hscore. injection Hscore as <-.
    destruct Hstore as [Hstore|[Hstore|Hstore]]; [lia|congruence|done]. }
  rewrite Hrun in Hscore. injection Hscore as <-.
  destruct (finalized_session_ok env body s sorted (Score.totalScore score)
              old d eq_refl Hs) as [Hfinal Hcompleted].
  fold new in Hfinal.
  set (final := finalized env sorted (Score.totalScore score)) in *.
  destruct Hphase as [e Hf|e r1 _ Hf|e r1 r2 _ _ Hf|e r1 r2 r3 key _ _ _ Hf
                     |n r1 r2 r3 key _ _ _ _ _ Hcounter];
    try (rewrite Hredis in Hf; discriminate).
  - exfalso. destruct Hf as [Hf|[Hf|Hf]];
      try (rewrite Hredis in Hf; discriminate).
    revert Hf. eapply counter_at_ok; [|apply activity_key_not_session].
    subst r3 r2 r1. apply cache_ok_delete, cache_ok_delete.
    apply cache_ok_session; [|exact Hfinal].
    eapply cache_ok_db; [|exact Hok]. by apply db_grows_completed.
  - split; [done|]. exists final. split; [|done]. simpl.
    rewrite lookup_insert_ne by apply activity_key_not_session.
    subst r3 r2 r1.
    rewrite lookup_delete_ne by apply leaderboard_key_ne.
    rewrite lookup_delete_ne by apply user_stats_key_ne.
    apply lookup_insert_eq.
Qed.

(** C10. Complete does not ask for a finished board: in a reachable world,
    without faults and within the limits of what is validated and can be
    stored (an elapsed time of 1000 to 1800000 ms, a final score, if sent,
    of 0 to 1000, a move counter below 2^24, user totals below 2^30 in
    magnitude), any cached in-progress session is
    completed with the 200 response carrying the calculator's score,
    however many pairs are matched.  A session with no move made has no
    match either; its wrong-move count is 0, the perfect-game bonus is
    granted, base score and speed bonus are 0, and the final score is 50. *)
Theorem complete_without_full_board (env : Env) (w : World)
    (body : CompleteBody.t) (s : Session.t) :
  reachable w → no_faults env →
  cached_session w (CompleteBody.gameId body) = Some s →
  Session.isCompleted s = false →
  within_limits w body s →
  let gameStats := (completion_stats s (CompleteBody.timeElapsed body)).1 in
  ∃ score,
    calculateScore gameStats = Returned score ∧
    (handle env (Complete body) w).1
      = mkResponse 200
          (GameCompleted (Score.totalScore score) (Score.breakdown score)
             (CompleteBody.timeElapsed body) (Session.moves s)
             (length (Session.matches s)) (Session.difficulty s)) ∧
    completed_in_cache (handle env (Complete body) w).2
      (CompleteBody.gameId body) ∧
    (Session.moves s = 0%Z →
     Session.matches s = [] ∧
     GameStats.matches gameStats = 0%Z ∧
     GameStats.wrongMoves gameStats = 0%Z ∧
     Breakdown.baseScore (Score.breakdown score) = 0%Z ∧
     Breakdown.speedBonus (Score.breakdown score) = 0%Z ∧
     Breakdown.perfectGameBonus (Score.breakdown score) = 50%Z ∧
     Score.totalScore score = 50%Z).
Proof.
  intros Hreach Hfaults Hcached Hprogress Hlimits gameStats. subst gameStats.
  apply cached_session_Some in Hcached.
  destruct (complete_succeeds env w body s Hreach Hfaults Hlimits Hcached
              Hprogress)
    as (score & Hrun & Hresponse & Hflag).
  exists score. split; [exact Hrun|]. split; [|split; [exact Hflag|]].
  { rewrite Hresponse. unfold completion_response.
    destruct (completion_stats_session s (CompleteBody.timeElapsed body))
      as (sorted & -> & Hperm). simpl. by rewrite Hperm. }
  intros Hmoves.
  destruct (reachable_cache_ok w Hreach _ _ Hcached)
    as (_ & Hle & [config Hconfig] & _).
  assert (Session.matches s = []) as Hnone.
  { destruct (Session.matches s); [done|]. simpl in Hle. lia. }
  destruct (completion_stats_fields s (CompleteBody.timeElapsed body))
    as (Hmatches & Hwrong & _ & Hdifficulty & Hstreak).
  rewrite Hnone in Hmatches, Hwrong, Hstreak. simpl in *.
  destruct (calculateScore_closed_form
              (completion_stats s (CompleteBody.timeElapsed body)).1 config)
    as (score' & Hrun' & Hbase & Hspeed & Hperfect & Hbonus & Hpenalty & Htotal).
  { by rewrite Hdifficulty. }
  rewrite Hrun in Hrun'. injection Hrun' as <-.
  rewrite Hmatches in Hbase, Hspeed, Htotal.
  rewrite Hwrong, Hmoves in Hperfect, Hpenalty.
  rewrite Hstreak in Hbonus. simpl in Hbase, Hperfect, Hbonus, Hpenalty.
  assert (Breakdown.speedBonus (Score.breakdown score) = 0%Z) as Hzero.
  { rewrite Hspeed. by destruct (Qlt_le_dec _ _). }
  rewrite Hzero, Hperfect, Hbonus, Hpenalty in Htotal.
  repeat split; try done. by rewrite Hwrong, Hmoves.
Qed.

Lemma complete_without_full_board_witness :
  ∃ score,
    (handle demo_env (Complete demo_complete) started).1
      = mkResponse 200
          (GameCompleted 50 (Score.breakdown score) 60000 0 0 "easy").
Proof.
  destruct (complete_without_full_board demo_env started demo_complete
              started_session)
    as (score & _ & Hresponse & _ & Hzero).
  - exact reachable_started.
  - split; [reflexivity|]. split; [intros op; reflexivity|]. simpl. lia.
  - by vm_compute.
  - reflexivity.
  - split; [simpl; lia|]. split; [exact I|]. split; [simpl; lia|].
    apply (bool_decide_unpack _). by vm_compute.
  - exists score. rewrite Hresponse.
    destruct (Hzero eq_refl) as (_ & _ & _ & _ & _ & _ & ->). reflexivity.
Defined.

(** ** Failures on the non-critical paths *)

(** The match handler swallows them: once the session is read and the
    cards are playable (and, for a pair, the match can be stored), the answer
    is the 200 response whatever Redis does to the cache update and to
    the activity counter. *)
Lemma match_swallows_cache_failures (env : Env) (w : World)
    (body : MatchBody.t) (s : Session.t) i1 card1 i2 card2 :
  cache_answers env w (MatchBody.gameId body) →
  redis w !! session_key (MatchBody.gameId body) = Some (VSession s) →
  Session.isCompleted s = false →
  find_card (MatchBody.card1Id body) (Session.cards s) = Some (i1, card1) →
  find_card (MatchBody.card2Id body) (Session.cards s) = Some (i2, card2) →
  Card.isMatched card1 = false → Card.isMatched card2 = false →
  (Card.pairId card1 = Card.pairId card2 →
   is_Some (difficulties !! Session.difficulty s) ∧
   pool_failures env KInsertMatch < 3 ∧
   is_Some (Db.games (db w) !! MatchBody.gameId body) ∧
   fits_integer (default 0%Z (MatchBody.matchTime body))) →
  status (handle env (Match body) w).1 = 200.
Proof.
  intros [Hconnect Hget] Hcached Hprogress Hcard1 Hcard2 Hm1 Hm2 Hstore.
  apply (handle_wp (Match body) env w (λ response _, status response = 200)).
  destruct w as [r o d c]. simpl in *.
  unfold match_. apply wp_try_catch, wp_read_session.
  1: intros o' c' Hnot; exfalso; by eapply (Hnot s).
  1: intros e o' c' Hnot; exfalso; by eapply (Hnot s).
  intros s' _ _ Hs'. rewrite Hcached in Hs'. injection Hs' as <-.
  unfold match_session. rewrite Hprogress, Hcard1, Hcard2, Hm1, Hm2. simpl.
  apply wp_bind. case_bool_decide as Hpair.
  - destruct (Hstore Hpair) as ([config Hconfig] & Hpool & [row Hrow] & Hfits).
    unfold score_match. rewrite Hconfig.
    apply wp_bind, wp_recordMatch.
    + intros c' _. apply wp_bind, wp_ask, wp_ret, wp_match_finish. done.
    + intros e c' [?|[?|Hno]]; [lia|congruence|].
      exfalso. apply Hno. split; [exact Hfits|].
      apply difficulties_lookup in Hconfig as [-> | [-> | [-> | ->]]];
        destruct (MatchBody.matchTime body) as [t|]; simpl;
        repeat case_decide; unfold fits_integer; lia.
  - apply wp_ret, wp_match_finish. done.
Qed.

(** C6 fails on the code for Start and Complete, whose activity tracking
    is not guarded: with Redis refusing to bump activity counters, Start
    answers 500 although the game row is stored and the session cached,
    and Complete answers 500 although the score is stored and the session
    marked completed; the same failure in Match is logged as a warning and
    the request answers 200. *)
Theorem tracking_failure_breaks_start_and_complete :
  (handle tracking_down demo_start blank).1
    = mkResponse 500 (Failed "Failed to start game") ∧
  is_Some (cached_session (handle tracking_down demo_start blank).2 "game-1") ∧
  (handle tracking_down (Complete demo_complete) started).1
    = mkResponse 500 (Failed "Failed to complete game") ∧
  completed_in_cache
    (handle tracking_down (Complete demo_complete) started).2 "game-1" ∧
  (∃ row,
     Db.games (db (handle tracking_down (Complete demo_complete) started).2)
       !! "game-1" = Some row ∧
     GameRow.game_completed row = true ∧ GameRow.score row = 50%Z) ∧
  status
    (handle tracking_down
       (Match (MatchBody.mk "game-1" "taco_1" "taco_2" (Some 5000%Z)))
       started).1 = 200 ∧
  (Warn, "Activity tracking failed (non-critical)")
    ∈ console
        (handle tracking_down
           (Match (MatchBody.mk "game-1" "taco_1" "taco_2" (Some 5000%Z)))
           started).2.
Proof.
  split; [by vm_compute|].
  split; [apply (bool_decide_unpack _); by vm_compute|].
  split; [by vm_compute|].
  split; [eexists; split; [vm_compute; reflexivity|reflexivity]|].
  split; [eexists; split; [vm_compute; reflexivity|by split]|].
  split; [by vm_compute|].
  apply (bool_decide_unpack _). by vm_compute.
Qed.

End Routes.

(** * Properties of the rest of the code *)

Section ScoreOrder.
Local Open Scope Z_scope.

Lemma pointsPerMatch_pos difficulty config :
  difficulties !! difficulty = Some config → 0 < Config.pointsPerMatch config.
Proof. by intros [-> | [-> | [-> | ->]]]%difficulties_lookup. Qed.

(** X1. Playing better never scores less: on the same tier and for inputs
    of magnitude at most 2^45, a game with at least as many matches, at
    most as many wrong moves, at most as much time and at least as long a
    streak has at least the total of the other. *)
Theorem calculateScore_monotone (worse better : GameStats.t)
    (config : Config.t) :
  difficulties !! default "easy"%string (GameStats.difficulty worse)
    = Some config →
  GameStats.difficulty better = GameStats.difficulty worse →
  within_double_precision worse → within_double_precision better →
  0 ≤ GameStats.matches worse ≤ GameStats.matches better →
  0 ≤ GameStats.wrongMoves better ≤ GameStats.wrongMoves worse →
  GameStats.timeElapsed better ≤ GameStats.timeElapsed worse →
  default 0 (GameStats.consecutiveMatches worse)
    ≤ default 0 (GameStats.consecutiveMatches better) →
  ∃ low high,
    calculateScore worse = Returned low ∧
    calculateScore better = Returned high ∧
    Score.totalScore low ≤ Score.totalScore high.
Proof.
  intros Hworse Hsame _ _ Hmatches Hwrong Htime Hstreak.
  assert (difficulties !! default "easy"%string (GameStats.difficulty better)
          = Some config) as Hbetter by by rewrite Hsame.
  destruct (calculateScore_closed_form worse config Hworse)
    as (low & Hlow & _ & Hs1 & Hp1 & Hk1 & Hn1 & Ht1).
  destruct (calculateScore_closed_form better config Hbetter)
    as (high & Hhigh & _ & Hs2 & Hp2 & Hk2 & Hn2 & Ht2).
  exists low, high. split; [done|]. split; [done|].
  rewrite Ht1, Ht2, Hs1, Hs2, Hp1, Hp2, Hk1, Hk2, Hn1, Hn2.
  rewrite !floor_three_halves.
  pose proof (pointsPerMatch_pos _ _ Hworse) as Hpoints.
  set (base1 := GameStats.matches worse * Config.pointsPerMatch config).
  set (base2 := GameStats.matches better * Config.pointsPerMatch config).
  assert (0 ≤ base1 ≤ base2) as Hbase by (unfold base1, base2; nia).
  assert (0 ≤ (3 * base1) `div` 2 ≤ (3 * base2) `div` 2) as Hspeed.
  { split; [apply Z.div_pos; lia | apply Z.div_le_mono; lia]. }
  destruct (Qlt_le_dec (inject_Z (GameStats.timeElapsed worse)) _) as [Hf1|Hf1];
    destruct (Qlt_le_dec (inject_Z (GameStats.timeElapsed better)) _)
      as [Hf2|Hf2];
    try apply under_half_limit in Hf1; try apply under_half_limit in Hf2;
    try (apply Qle_not_lt in Hf2; exfalso; apply Hf2, under_half_limit; lia);
    repeat case_decide; lia.
Qed.

Lemma calculateScore_monotone_witness :
  ∃ low high,
    calculateScore (GameStats.mk 5 4 200000 (Some "hard"%string) (Some 2))
      = Returned low ∧
    calculateScore (GameStats.mk 6 1 100000 (Some "hard"%string) (Some 3))
      = Returned high ∧
    Score.totalScore low ≤ Score.totalScore high.
Proof.
  apply (calculateScore_monotone _ _ hard);
    unfold within_double_precision; simpl; first [reflexivity | lia].
Defined.

End ScoreOrder.

Section GeneratorRest.
Import Generator.

(** [Math.floor(Math.random() * length)] is an index of the array. *)
Lemma random_element_Some {A} (l : list A) g :
  l ≠ [] → ∃ x, (random_element l g).1 = Some x ∧ x ∈ l.
Proof.
  intros Hl. unfold random_element. simpl.
  destruct (lookup_lt_is_Some_2 l (Random.floor_times (g 0) (length l)))
    as [x Hx].
  { apply floor_times_lt. destruct l; [done|simpl; lia]. }
  exists x. split; [done|]. by eapply list_elem_of_lookup_2.
Qed.

Lemma random_element_rng {A} (l : list A) g :
  (random_element l g).2 = (Random.next g).2.
Proof. done. Qed.

(** X4. [getRandomEmojiByCategory] answers [null], without drawing a
    random number, exactly for a category that no emoji of the table has;
    for every other category it draws once and returns an emoji of the
    table that has this category, never [undefined]. *)
Theorem getRandomEmojiByCategory_spec (category : string) (g : Random.rng) :
  (category ∉ Emoji.category <$> emojiPairs →
   getRandomEmojiByCategory category g = (Null, g)) ∧
  (category ∈ Emoji.category <$> emojiPairs →
   ∃ emoji,
     getRandomEmojiByCategory category g
       = (Element (Some emoji), (Random.next g).2) ∧
     emoji ∈ emojiPairs ∧ Emoji.category emoji = category).
Proof.
  unfold getRandomEmojiByCategory.
  set (l := filter _ emojiPairs).
  split.
  - intros Hno. destruct l as [|e l'] eqn:Hl; [done|].
    exfalso. apply Hno.
    assert (e ∈ l) as He by (rewrite Hl; left).
    apply list_elem_of_filter in He as [<- He].
    by apply list_elem_of_fmap_2.
  - intros (e & -> & He)%list_elem_of_fmap.
    assert (e ∈ l) as Hin by by apply list_elem_of_filter.
    assert (l ≠ []) as Hne by (intros Heq; rewrite Heq in Hin; inversion Hin).
    destruct (random_element_Some l g Hne) as (x & Hx & Hxl).
    case_decide as Hlen; [by destruct l|].
    pose proof (random_element_rng l g) as Hg.
    destruct (random_element l g) as [picked g']. simpl in *. subst.
    exists x. split; [done|].
    by apply list_elem_of_filter in Hxl as [? ?].
Qed.

(** X5. [getRandomSuccessMessage] and [getRandomFailureMessage] draw once
    and always return a message of their table, never [undefined]. *)
Theorem random_messages_defined (g : Random.rng) :
  (∃ m, getRandomSuccessMessage g = (Some m, (Random.next g).2) ∧
        m ∈ successMessages) ∧
  (∃ m, getRandomFailureMessage g = (Some m, (Random.next g).2) ∧
        m ∈ failureMessages).
Proof.
  split.
  - destruct (random_element_Some successMessages g) as (m & Hm & Hin); [done|].
    exists m. split; [|done]. unfold getRandomSuccessMessage.
    pose proof (random_element_rng successMessages g).
    destruct (random_element successMessages g); simpl in *; congruence.
  - destruct (random_element_Some failureMessages g) as (m & Hm & Hin); [done|].
    exists m. split; [|done]. unfold getRandomFailureMessage.
    pose proof (random_element_rng failureMessages g).
    destruct (random_element failureMessages g); simpl in *; congruence.
Qed.
End GeneratorRest.

Section Ratings.
Import Generator.
Local Open Scope Z_scope.

Lemma maxPossibleScore_pos difficulty config :
  difficulties !! difficulty = Some config → (0 < maxPossibleScore config)%Q.
Proof.
  intros [-> | [-> | [-> | ->]]]%difficulties_lookup; reflexivity.
Qed.

Lemma percentage_mono difficulty config s1 s2 :
  difficulties !! difficulty = Some config →
  s1 ≤ s2 → (percentage config s1 <= percentage config s2)%Q.
Proof.
  intros Hconfig Hle. unfold percentage.
  apply Q.min_le_compat_l.
  apply Qmult_le_compat_r; [|done].
  unfold Qdiv. apply Qmult_le_compat_r.
  - by rewrite <- Zle_Qle.
  - apply Qlt_le_weak, Qinv_lt_0_compat.
    by eapply maxPossibleScore_pos.
Qed.

Lemma rung_mono p1 p2 : (p1 <= p2)%Q → (rung p1 ≤ rung p2)%nat.
Proof.
  intros Hle.
  assert (∀ t, Qle_bool t p1 = true → Qle_bool t p2 = true) as Hup.
  { intros t Ht%Qle_bool_iff. apply Qle_bool_iff.
    eapply Qle_trans; eassumption. }
  unfold rung.
  repeat match goal with
         | |- context [Qle_bool ?t p1] =>
             destruct (Qle_bool t p1) eqn:?;
             [match goal with
              | H : Qle_bool t p1 = true |- _ => rewrite (Hup _ H)
              end; repeat destruct (Qle_bool _ p2); simpl; lia|]
         end.
  lia.
Qed.

Lemma getPerformanceRating_rung score difficulty config :
  difficulties !! difficulty = Some config →
  ∃ rating,
    getPerformanceRating score difficulty = Returned rating ∧
    ladder !! rung (percentage config score) = Some (Rating.level rating).
Proof.
  intros Hconfig. unfold getPerformanceRating. rewrite Hconfig.
  fold (maxPossibleScore config). fold (percentage config score).
  unfold rung. eexists. split; [reflexivity|].
  repeat (destruct (Qle_bool _ _); [reflexivity|]). reflexivity.
Qed.

(** X2. For every recognised tier [getPerformanceRating] returns, and a
    higher score is never rated lower: the ratings of two whole scores (of
    magnitude at most 2^53, which doubles hold exactly) stand on the ladder
    Practice, Average, Good, Great, Excellent, Legendary in the order of
    the scores. *)
Theorem getPerformanceRating_monotone (difficulty : string) (s1 s2 : Z)
    (config : Config.t) :
  difficulties !! difficulty = Some config →
  Z.abs s1 ≤ 2 ^ 53 → Z.abs s2 ≤ 2 ^ 53 →
  s1 ≤ s2 →
  ∃ r1 r2 i j,
    getPerformanceRating s1 difficulty = Returned r1 ∧
    getPerformanceRating s2 difficulty = Returned r2 ∧
    ladder !! i = Some (Rating.level r1) ∧
    ladder !! j = Some (Rating.level r2) ∧
    (i ≤ j)%nat.
Proof.
  intros Hconfig _ _ Hle.
  destruct (getPerformanceRating_rung s1 _ _ Hconfig) as (r1 & Hr1 & Hl1).
  destruct (getPerformanceRating_rung s2 _ _ Hconfig) as (r2 & Hr2 & Hl2).
  exists r1, r2, (rung (percentage config s1)), (rung (percentage config s2)).
  repeat split; try done.
  apply rung_mono. by eapply percentage_mono.
Qed.

Lemma getPerformanceRating_monotone_witness :
  ∃ r1 r2 i j,
    getPerformanceRating 100 "easy" = Returned r1 ∧
    getPerformanceRating 130 "easy" = Returned r2 ∧
    ladder !! i = Some (Rating.level r1) ∧
    ladder !! j = Some (Rating.level r2) ∧
    (i ≤ j)%nat.
Proof.
  apply (getPerformanceRating_monotone "easy" 100 130 easy);
    [reflexivity | lia | lia | lia].
Defined.

End Ratings.

Section RatingOfScore.
Import Generator.
Local Open Scope Z_scope.

Lemma rung_le_5 p : (rung p ≤ 5)%nat.
Proof. unfold rung. repeat destruct (Qle_bool _ p); lia. Qed.

Lemma score_rating_rung gameStats config :
  difficulties !! default "easy"%string (GameStats.difficulty gameStats)
    = Some config →
  ∃ score rating,
    calculateScore gameStats = Returned score ∧
    score_rating gameStats = Returned rating ∧
    ladder !! rung (percentage config (Score.totalScore score))
      = Some (Rating.level rating).
Proof.
  intros Hconfig.
  destruct (calculateScore_closed_form gameStats config Hconfig)
    as (score & Hrun & _).
  destruct (getPerformanceRating_rung (Score.totalScore score) _ _ Hconfig)
    as (rating & Hrating & Hlevel).
  exists score, rating. unfold score_rating. by rewrite Hrun.
Qed.

(** X3. The rating that [calculateScore] attaches to its result, for
    inputs of magnitude at most 2^45: a full board without a wrong move is
    Legendary on every tier, whatever the time and the streak; a game
    without a match and without a streak of three is Practice, even when it
    earns the perfect-game bonus. *)
Theorem score_rating_extremes (gameStats : GameStats.t) (config : Config.t) :
  difficulties !! default "easy"%string (GameStats.difficulty gameStats)
    = Some config →
  within_double_precision gameStats →
  ∃ rating,
    score_rating gameStats = Returned rating ∧
    (GameStats.matches gameStats = Z.of_nat (Config.cardCount config) / 2 →
     GameStats.wrongMoves gameStats = 0 →
     Rating.level rating = "Legendary"%string) ∧
    (GameStats.matches gameStats = 0 →
     default 0 (GameStats.consecutiveMatches gameStats) < 3 →
     Rating.level rating = "Practice"%string).
Proof.
  intros Hconfig _.
  destruct (score_rating_rung gameStats config Hconfig)
    as (score & rating & Hscore & Hrating & Hlevel).
  destruct (calculateScore_closed_form gameStats config Hconfig)
    as (score' & Hscore' & _ & Hspeed & Hperfect & Hstreak & Hpenalty & Htotal).
  rewrite Hscore in Hscore'. injection Hscore' as <-.
  exists rating. split; [done|].
  rewrite Hpenalty, Hperfect, Hstreak, Hspeed in Htotal.
  rewrite floor_three_halves in Htotal.
  split.
  - intros Hmatches Hperfect0.
    set (full := Z.of_nat (Config.cardCount config) / 2
                 * Config.pointsPerMatch config + 50).
    assert (rung (percentage config full) = 5%nat) as Hfull.
    { by apply difficulties_lookup in Hconfig as [-> | [-> | [-> | ->]]]. }
    assert (full ≤ Score.totalScore score) as Hle.
    { rewrite Htotal, Hmatches, Hperfect0. unfold full.
      apply difficulties_lookup in Hconfig as [-> | [-> | [-> | ->]]]; simpl;
        repeat case_decide; destruct (Qlt_le_dec _ _);
        repeat match goal with
               | |- context [?n `div` 2] =>
                   let half := eval vm_compute in (n `div` 2) in
                   progress change (n `div` 2) with half
               end; lia. }
    apply (percentage_mono _ _ _ _ Hconfig), rung_mono in Hle.
    pose proof (rung_le_5 (percentage config (Score.totalScore score))).
    replace (rung (percentage config (Score.totalScore score))) with 5%nat
      in Hlevel by lia.
    by injection Hlevel as <-.
  - intros Hmatches Hstreak0.
    assert (rung (percentage config 50) = 0%nat) as Hnone.
    { by apply difficulties_lookup in Hconfig as [-> | [-> | [-> | ->]]]. }
    assert (Score.totalScore score ≤ 50) as Hle.
    { rewrite Htotal, Hmatches, !Z.mul_0_l, Z.mul_0_r.
      change (0 `div` 2) with 0.
      repeat case_decide; destruct (Qlt_le_dec _ _); lia. }
    apply (percentage_mono _ _ _ _ Hconfig), rung_mono in Hle.
    replace (rung (percentage config (Score.totalScore score))) with 0%nat
      in Hlevel by lia.
    by injection Hlevel as <-.
Qed.

Lemma score_rating_extremes_witness :
  ∃ rating,
    score_rating (GameStats.mk 8 0 200000 (Some "easy"%string) (Some 2))
      = Returned rating ∧
    Rating.level rating = "Legendary"%string.
Proof.
  destruct (score_rating_extremes
              (GameStats.mk 8 0 200000 (Some "easy"%string) (Some 2)) easy)
    as (rating & Hrating & Hfull & _);
    [reflexivity | unfold within_double_precision; simpl; lia |].
  exists rating. split; [exact Hrating|]. by apply Hfull.
Defined.

End RatingOfScore.

Section Categories.
Import Generator.

Lemma distinct_loop (array set : list string) :
  NoDup set →
  let result :=
    foldl (λ set x, if decide (x ∈ set) then set else set ++ [x]) set array in
  NoDup result ∧ ∀ x, x ∈ result ↔ x ∈ set ∨ x ∈ array.
Proof.
  revert set. induction array as [|a array IH]; intros set Hset; simpl.
  - split; [done|]. intros x. rewrite elem_of_nil. tauto.
  - case_decide as Ha.
    + destruct (IH set Hset) as [Hnodup Hin]. split; [done|].
      intros x. rewrite Hin, elem_of_cons. split; [tauto|].
      intros [?|[->|?]]; auto.
    + destruct (IH (set ++ [a])) as [Hnodup Hin].
      { apply NoDup_app. split; [done|]. split; [|apply NoDup_singleton].
        intros x Hx ->%list_elem_of_singleton. done. }
      split; [done|]. intros x.
      rewrite Hin, elem_of_app, list_elem_of_singleton, elem_of_cons. tauto.
Qed.

(** X6. [getCategories] lists exactly the categories of the emoji table,
    each once, in ascending order. *)
Theorem getCategories_spec :
  StronglySorted String.le getCategories ∧
  NoDup getCategories ∧
  ∀ category,
    category ∈ getCategories ↔
    ∃ emoji, emoji ∈ emojiPairs ∧ Emoji.category emoji = category.
Proof.
  unfold getCategories.
  destruct (distinct_loop (Emoji.category <$> emojiPairs) [] (NoDup_nil_2))
    as [Hnodup Hin].
  fold (distinct (Emoji.category <$> emojiPairs)) in Hnodup, Hin.
  split; [apply StronglySorted_merge_sort; apply _|].
  split; [by rewrite merge_sort_Permutation|].
  intros category. rewrite merge_sort_Permutation, Hin, elem_of_nil.
  rewrite list_elem_of_fmap. split.
  - intros [[]|(e & -> & He)]. by exists e.
  - intros (e & He & <-). right. by exists e.
Qed.

End Categories.

Section DeckCards.

Lemma card_ids_NoDup : NoDup (Card.id <$> (emojiPairs ≫= pair_of_cards)).
Proof. refine (@bool_decide_unpack _ (NoDup_dec _) _). by vm_compute. Qed.

Lemma assign_positions_elem (cards : list Card.t) (card : Card.t) :
  card ∈ assign_positions cards →
  ∃ i original, cards !! i = Some original ∧
                card = Card.set_position (Some i) original.
Proof.
  unfold assign_positions. intros (i & original & -> & Hi)%elem_of_lookup_imap.
  by exists i, original.
Qed.

Lemma assign_positions_ids (cards : list Card.t) :
  Card.id <$> assign_positions cards = Card.id <$> cards.
Proof.
  apply list_eq. intros i.
  rewrite !list_lookup_fmap, assign_positions_lookup.
  by destruct (cards !! i).
Qed.

(** The deck is the shuffled pairs of emojis selected among the available
    ones. *)
Lemma generateCardSet_selected difficulty categories g config :
  difficulties !! default "easy" difficulty = Some config →
  let pairCount := Config.cardCount config / 2 in
  let available :=
    if decide (length (requested categories) < pairCount)
    then emojiPairs else requested categories in
  ∃ selected shuffledCards g',
    generateCardSet difficulty categories g
      = Returned (assign_positions shuffledCards, g') ∧
    shuffledCards ≡ₚ selected ≫= pair_of_cards ∧
    selected ⊆+ available ∧
    available `sublist_of` emojiPairs.
Proof.
  intros Hconfig pairCount available.
  destruct (cardCount_even_small _ _ Hconfig) as [_ Hsmall].
  destruct (availableEmojis_enough categories pairCount Hsmall) as [_ Hsub].
  unfold generateCardSet. rewrite Hconfig. cbv zeta.
  fold (requested categories). fold pairCount. fold available.
  pose proof (shuffleArray_Permutation available g) as Hperm1.
  destruct (shuffleArray available g) as [shuffledEmojis g1]. simpl in Hperm1.
  pose proof (shuffleArray_Permutation
                (take pairCount shuffledEmojis ≫= pair_of_cards) g1) as Hperm2.
  destruct (shuffleArray (take pairCount shuffledEmojis ≫= pair_of_cards) g1)
    as [shuffledCards g2]. simpl in Hperm2.
  exists (take pairCount shuffledEmojis), shuffledCards, g2.
  split; [done|]. split; [done|]. split; [|done].
  rewrite <- Hperm1. apply sublist_submseteq, sublist_take.
Qed.

(** X7. The cards of a deck: their identifiers are distinct; each card is
    one of the two copies (suffix _1 or _2) of an emoji of the table and
    carries its emoji, name and category; when the requested categories
    have enough emojis for the tier every card belongs to one of them, and
    when they have too few the filter is dropped altogether. *)
Theorem generateCardSet_cards (difficulty : option string)
    (categories : option (list string)) (g : Random.rng) (config : Config.t) :
  difficulties !! default "easy" difficulty = Some config →
  ∃ deck g',
    generateCardSet difficulty categories g = Returned (deck, g') ∧
    NoDup (Card.id <$> deck) ∧
    (∀ card, card ∈ deck →
       ∃ emoji,
         emoji ∈ emojiPairs ∧
         (Card.id card = Emoji.id emoji +:+ "_1" ∨
          Card.id card = Emoji.id emoji +:+ "_2") ∧
         Card.pairId card = Emoji.id emoji ∧
         Card.emoji card = Emoji.emoji emoji ∧
         Card.name card = Emoji.name emoji ∧
         Card.category card = Emoji.category emoji) ∧
    (∀ wanted,
       categories = Some wanted →
       Config.cardCount config / 2
         ≤ length (filter (λ e, Emoji.category e ∈ wanted) emojiPairs) →
       ∀ card, card ∈ deck → Card.category card ∈ wanted) ∧
    (length (requested categories) < Config.cardCount config / 2 →
     generateCardSet difficulty categories g
       = generateCardSet difficulty None g).
Proof.
  intros Hconfig.
  destruct (generateCardSet_selected difficulty categories g config Hconfig)
    as (selected & shuffledCards & g' & Hrun & Hperm & Hselected & Hsub).
  set (available := if decide _ then emojiPairs else _) in *.
  assert (∀ card, card ∈ assign_positions shuffledCards →
            ∃ emoji suffix,
              emoji ∈ available ∧ (suffix = "_1" ∨ suffix = "_2") ∧
              Card.id card = Emoji.id emoji +:+ suffix ∧
              Card.pairId card = Emoji.id emoji ∧
              Card.emoji card = Emoji.emoji emoji ∧
              Card.name card = Emoji.name emoji ∧
              Card.category card = Emoji.category emoji) as Hcards.
  { intros card (i & original & Hi & ->)%assign_positions_elem.
    apply list_elem_of_lookup_2 in Hi. rewrite Hperm in Hi.
    apply list_elem_of_bind in Hi as (emoji & Hcard & Hemoji).
    exists emoji.
    apply elem_of_cons in Hcard as [->|Hcard];
      [exists "_1"|apply list_elem_of_singleton in Hcard as ->; exists "_2"];
      (split; [by eapply elem_of_submseteq|]); simpl; auto 10. }
  exists (assign_positions shuffledCards), g'.
  split; [done|]. split; [|split; [|split]].
  - rewrite assign_positions_ids, Hperm.
    assert (Card.id <$> (selected ≫= pair_of_cards)
            ⊆+ Card.id <$> (emojiPairs ≫= pair_of_cards)) as Hids.
    { apply fmap_submseteq, bind_submseteq.
      etrans; [exact Hselected|]. by apply sublist_submseteq. }
    apply submseteq_sublist_r in Hids as (ids & -> & Hids).
    eapply sublist_NoDup; [apply card_ids_NoDup|done].
  - intros card (emoji & suffix & He & Hsuffix & Hid & ?)%Hcards.
    exists emoji. split.
    { eapply elem_of_submseteq; [exact He|]. by apply sublist_submseteq. }
    split; [|done]. destruct Hsuffix as [-> | ->]; auto.
  - intros wanted -> Henough card
      (emoji & suffix & He & _ & _ & _ & _ & _ & ->)%Hcards.
    subst available. unfold requested in He.
    destruct wanted as [|c cs].
    { simpl in Henough.
      destruct (cardCount_even_small _ _ Hconfig) as [Heven _].
      apply difficulties_lookup in Hconfig as [-> | [-> | [-> | ->]]];
        simpl in Henough; lia. }
    case_decide as Hlen; [lia|].
    by apply list_elem_of_filter in He as [? _].
  - intros Hfew. unfold generateCardSet. rewrite Hconfig. cbv zeta.
    fold (requested categories).
    rewrite (decide_True _ _ Hfew).
    destruct (decide (length emojiPairs < Config.cardCount config / 2));
      reflexivity.
Qed.

Lemma generateCardSet_cards_witness :
  ∃ deck g',
    generateCardSet (Some "easy") (Some ["food"; "space"; "classic"])
      (λ n, Random.mk (7 * n + 3) 10) = Returned (deck, g') ∧
    NoDup (Card.id <$> deck).
Proof.
  destruct (generateCardSet_cards (Some "easy")
              (Some ["food"; "space"; "classic"])
              (λ n, Random.mk (7 * n + 3) 10) easy)
    as (deck & g' & Hrun & Hids & _); [reflexivity|].
  exists deck, g'. split; [exact Hrun|exact Hids].
Defined.

End DeckCards.

Section Achievements.
Import GameRoutes.
Local Open Scope Z_scope.

Lemma elem_of_when {A} (P : Prop) `{Decision P} (t u : A) :
  t ∈ (if decide P then [u] else []) ↔ P ∧ t = u.
Proof.
  case_decide.
  - rewrite list_elem_of_singleton. tauto.
  - rewrite elem_of_nil. tauto.
Qed.

Lemma checkAchievements_titles gameSession scoreBreakdown :
  let breakdown := Score.breakdown scoreBreakdown in
  Achievement.title <$> checkAchievements gameSession scoreBreakdown
  = (if decide (0 < Breakdown.perfectGameBonus breakdown)
     then ["Perfect Memory! 🧠"%string] else []) ++
    (if decide (0 < Breakdown.speedBonus breakdown)
     then ["Speed Demon! ⚡"%string] else []) ++
    (if decide (0 < Breakdown.streakBonus breakdown)
     then ["Streak Master! 🔥"%string] else []) ++
    (if decide (Session.moves gameSession
                ≤ Z.of_nat (length (Session.matches gameSession)) + 2)
     then ["Sharp Mind! 🎯"%string] else []).
Proof. unfold checkAchievements. by repeat case_decide. Qed.

(** X8. The achievements of a completed game, for a session of a
    recognised tier with numbers of magnitude at most 2^45: Perfect Memory
    exactly when every move was a match, Speed Demon exactly when the game
    took less than half the time limit and at least one pair was found,
    Streak Master exactly when the streak is at least 3, Sharp Mind
    exactly when at most two moves were wrong. *)
Theorem completion_achievements_spec (gameSession : Session.t)
    (timeElapsed : Z) (config : Config.t) :
  difficulties !! Session.difficulty gameSession = Some config →
  within_double_precision (completion_stats gameSession timeElapsed).1 →
  let pairs := Z.of_nat (length (Session.matches gameSession)) in
  ∃ achievements,
    completion_achievements gameSession timeElapsed = Returned achievements ∧
    let titles := Achievement.title <$> achievements in
    ("Perfect Memory! 🧠"%string ∈ titles ↔
       Session.moves gameSession = pairs) ∧
    ("Speed Demon! ⚡"%string ∈ titles ↔
       2 * timeElapsed < Config.timeLimit config ∧ 0 < pairs) ∧
    ("Streak Master! 🔥"%string ∈ titles ↔
       3 ≤ (calculateConsecutiveMatches (Session.matches gameSession)).1) ∧
    ("Sharp Mind! 🎯"%string ∈ titles ↔
       Session.moves gameSession ≤ pairs + 2).
Proof.
  intros Hconfig _ pairs.
  destruct (completion_stats_fields gameSession timeElapsed)
    as (Hmatches & Hwrong & Htime & Hdifficulty & Hstreak).
  destruct (completion_stats_session gameSession timeElapsed)
    as (sorted & Hsorted & Hperm).
  destruct (calculateScore_closed_form
              (completion_stats gameSession timeElapsed).1 config)
    as (score & Hrun & _ & Hspeed & Hperfect & Hbonus & _).
  { by rewrite Hdifficulty. }
  rewrite floor_three_halves, Hmatches, Htime in Hspeed.
  rewrite Hwrong in Hperfect. rewrite Hstreak in Hbonus.
  fold pairs in Hspeed, Hperfect. cbn [default from_option id] in Hbonus.
  set (streak := (calculateConsecutiveMatches (Session.matches gameSession)).1)
    in *.
  apply Permutation_length in Hperm.
  pose proof (pointsPerMatch_pos _ _ Hconfig) as Hpoints.
  assert (0 ≤ pairs) as Hpairs by (unfold pairs; lia).
  assert (0 < Breakdown.perfectGameBonus (Score.breakdown score)
          ↔ Session.moves gameSession = pairs) as Hp.
  { rewrite Hperfect. destruct (decide (_ = 0)); lia. }
  assert (0 < Breakdown.speedBonus (Score.breakdown score)
          ↔ 2 * timeElapsed < Config.timeLimit config ∧ 0 < pairs) as Hs.
  { rewrite Hspeed. destruct (Qlt_le_dec _ _) as [Hfast|Hslow].
    - apply under_half_limit in Hfast. split.
      + intros Hgain. split; [done|].
        destruct (decide (pairs = 0)) as [Hzero|]; [|lia].
        rewrite Hzero in Hgain. by vm_compute in Hgain.
      + intros [_ ?]. apply Z.div_str_pos. nia.
    - split; [lia|]. intros [Hfast%under_half_limit _].
      by apply Qle_not_lt in Hslow. }
  assert (0 < Breakdown.streakBonus (Score.breakdown score) ↔ 3 ≤ streak)
    as Hk.
  { rewrite Hbonus. destruct (decide (3 ≤ streak)); lia. }
  unfold completion_achievements.
  destruct (completion_stats gameSession timeElapsed) as [gameStats s'].
  cbn [fst snd] in *. subst s'. rewrite Hrun.
  eexists. split; [reflexivity|].
  cbv zeta. rewrite checkAchievements_titles. cbv zeta.
  cbn [Session.set_matches Session.moves Session.matches].
  rewrite Hperm. fold pairs.
  rewrite !elem_of_app, !elem_of_when, Hp, Hs, Hk.
  repeat split; intros; try tauto;
    repeat match goal with
           | H : _ ∨ _ |- _ => destruct H
           | H : _ ∧ _ |- _ => destruct H
           end; try discriminate; try tauto; auto 10.
Qed.

Lemma completion_achievements_spec_witness :
  ∃ achievements,
    completion_achievements played_session 60000 = Returned achievements ∧
    "Sharp Mind! 🎯"%string ∈ Achievement.title <$> achievements.
Proof.
  destruct (completion_achievements_spec played_session 60000 easy)
    as (achievements & Hrun & _ & _ & _ & Hsharp).
  - reflexivity.
  - unfold within_double_precision. simpl. lia.
  - exists achievements. split; [exact Hrun|]. apply Hsharp. simpl. lia.
Defined.

End Achievements.

Section RateLimiter.
Import Validation.
Local Open Scope Z_scope.

Lemma filter_window_narrow (windowMs earlier now : Z) (l : list Z) :
  earlier ≤ now →
  filter (λ timestamp, now - timestamp < windowMs)
    (filter (λ timestamp, earlier - timestamp < windowMs) l)
  = filter (λ timestamp, now - timestamp < windowMs) l.
Proof.
  intros Hle. induction l as [|t l IH]; [done|].
  rewrite !filter_cons.
  destruct (decide (earlier - t < windowMs));
    destruct (decide (now - t < windowMs));
    rewrite ?filter_cons; repeat case_decide; try lia; by rewrite ?IH.
Qed.

(** What the map remembers of a key agrees, inside every later window,
    with the requests let through. *)
Lemma limiter_run_window (maxRequests windowMs : Z)
    (history : list (string * Z)) (key : string) (now : Z) :
  StronglySorted Z.le (history.*2 ++ [now]) →
  filter (λ timestamp, now - timestamp < windowMs)
    (default [] ((limiter_run maxRequests windowMs history).1 !! key))
  = (recent windowMs key now (limiter_run maxRequests windowMs history).2).*2.
Proof.
  revert key now.
  induction history as [|[key0 t0] history IH] using rev_ind;
    intros key now Hsorted.
  { unfold limiter_run. simpl. by rewrite lookup_empty. }
  rewrite fmap_app in Hsorted. simpl in Hsorted.
  assert (t0 ≤ now) as Hlast.
  { eapply (StronglySorted_app_1_elem_of _ _ _ _ _ Hsorted);
      [apply elem_of_app; right|]; by apply list_elem_of_singleton. }
  apply StronglySorted_app_1_l in Hsorted.
  assert (StronglySorted Z.le (history.*2 ++ [now])) as Hnow.
  { apply StronglySorted_app_2.
    - intros t1 t2 Ht1 ->%list_elem_of_singleton.
      etrans; [|exact Hlast].
      eapply (StronglySorted_app_1_elem_of _ _ _ _ _ Hsorted);
        [done|by apply list_elem_of_singleton].
    - by apply StronglySorted_app_1_l in Hsorted.
    - repeat constructor. }
  pose proof (IH key now Hnow) as IHnow.
  pose proof (IH key0 t0 Hsorted) as IHt0.
  unfold limiter_run in *. rewrite foldl_app. simpl.
  destruct (foldl (limiter_step maxRequests windowMs) (∅, []) history)
    as [requests passed].
  simpl in IHnow, IHt0.
  unfold limiter_step, rateLimiter. cbv zeta.
  set (requests' := if decide (is_Some (requests !! key0)) then requests
                    else <[key0 := []]> requests).
  assert (∀ k, default [] (requests' !! k) = default [] (requests !! k))
    as Hsame.
  { intros k. subst requests'. case_decide as Hhas; [done|].
    destruct (decide (k = key0)) as [->|].
    - rewrite lookup_insert_eq.
      destruct (requests !! key0) eqn:Hk; [|done].
      destruct Hhas. by eexists.
    - by rewrite lookup_insert_ne. }
  case_decide as Hfull; simpl.
  - by rewrite Hsame.
  - unfold recent. rewrite filter_app, fmap_app.
    destruct (decide (key = key0)) as [->|Hother].
    + rewrite lookup_insert_eq. simpl.
      rewrite filter_app, Hsame. rewrite (filter_window_narrow _ t0 now _ Hlast).
      f_equal; [exact IHnow|].
      rewrite !filter_cons, !filter_nil. simpl.
      destruct (decide (now - t0 < windowMs)) as [Hin|Hout].
      * by rewrite decide_True.
      * rewrite decide_False; [done|]. by intros [_ ?].
    + rewrite (lookup_insert_ne _ _ _ _ (not_eq_sym Hother)), Hsame, IHnow.
      rewrite filter_cons, filter_nil. simpl.
      rewrite decide_False by (by intros [-> _]). by rewrite app_nil_r.
Qed.

(** X9. The sliding window of the rate limiter: with a clock that never
    goes back (times are those of [Date.now()], whole milliseconds from 0
    to below 2^53), a request is let through exactly when fewer than
    [maxRequests] requests of the same key were let through less than
    [windowMs] before it; refused requests do not count. *)
Theorem rateLimiter_sliding_window (maxRequests windowMs : Z)
    (history : list (string * Z)) (key : string) (now : Z) :
  Sorted Z.le (history.*2 ++ [now]) →
  Forall (λ time, 0 ≤ time < 2 ^ 53) (history.*2 ++ [now]) →
  let served := limiter_run maxRequests windowMs history in
  (rateLimiter maxRequests windowMs key now served.1).1 = Next ↔
  Z.of_nat (length (recent windowMs key now served.2)) < maxRequests.
Proof.
  intros Hsorted%(Sorted_StronglySorted _) _ served.
  pose proof (limiter_run_window maxRequests windowMs history key now Hsorted)
    as Hwindow.
  fold served in Hwindow.
  destruct served as [requests passed]. simpl in *.
  unfold rateLimiter.
  set (requests' := if decide (is_Some (requests !! key)) then requests
                    else <[key := []]> requests).
  assert (default [] (requests' !! key) = default [] (requests !! key))
    as ->.
  { subst requests'. case_decide as Hhas; [done|].
    rewrite lookup_insert_eq.
    destruct (requests !! key) eqn:Hk; [|done]. destruct Hhas. by eexists. }
  rewrite Hwindow, length_fmap.
  case_decide; simpl; split; intros; try done; lia.
Qed.

Lemma rateLimiter_sliding_window_witness :
  (rateLimiter 2 60000 "alice" 60005
     (limiter_run 2 60000
        [("alice", 0); ("bob", 10); ("alice", 20); ("alice", 30)]).1).1
  = Next.
Proof.
  apply (rateLimiter_sliding_window 2 60000
           [("alice", 0); ("bob", 10); ("alice", 20); ("alice", 30)]
           "alice" 60005).
  - simpl. repeat constructor; lia.
  - simpl. repeat constructor; lia.
  - by vm_compute.
Defined.

End RateLimiter.

Section Turns.
Local Open Scope Z_scope.















End Turns.

Section Outcomes.
Local Open Scope Z_scope.

Lemma activity_key_not_leaderboard env username action :
  activity_key env username action ≠ "leaderboard:top".
Proof. unfold activity_key, String.app. simpl. congruence. Qed.

Lemma activity_key_not_user_stats env username action name :
  activity_key env username action ≠ "user:stats:" +:+ name.
Proof. unfold activity_key, String.app. simpl. congruence. Qed.

Lemma leaderboard_not_user_stats name :
  "leaderboard:top" ≠ "user:stats:" +:+ name.
Proof. unfold String.app. simpl. congruence. Qed.

(** X14. A completion that answers 200 has read a cached session in
    progress and has stored the score it reports: the game row holds that
    score, the moves, the time and the number of matches and is marked
    completed, the trigger has run on the users, the cached session is
    marked completed with the same score, and the leaderboard and the
    player's statistics are no longer in the cache. *)
Theorem complete_success (env : Env) (w : World) (body : CompleteBody.t) :
  status (handle env (Complete body) w).1 = 200%nat →
  let gameId := CompleteBody.gameId body in
  let timeElapsed := CompleteBody.timeElapsed body in
  let w' := (handle env (Complete body) w).2 in
  ∃ s score old,
    cached_session w gameId = Some s ∧
    Session.isCompleted s = false ∧
    calculateScore (completion_stats s timeElapsed).1 = Returned score ∧
    Db.games (db w) !! gameId = Some old ∧
    let sorted := (completion_stats s timeElapsed).2 in
    let total := Score.totalScore score in
    let new :=
      completed_row old total (Session.moves s) timeElapsed
        (Z.of_nat (length (Session.matches s))) in
    (handle env (Complete body) w).1 = completion_response body sorted score ∧
    Db.games (db w') = <[gameId := new]> (Db.games (db w)) ∧
    Db.users (db w') = update_user_stats old new (Db.users (db w)) ∧
    Db.game_matches (db w') = Db.game_matches (db w) ∧
    cached_session w' gameId = Some (finalized env sorted total) ∧
    redis w' !! "leaderboard:top" = None ∧
    redis w' !! ("user:stats:" +:+ Session.username s) = None.
Proof.
  intros Hstatus gameId timeElapsed w'. subst gameId timeElapsed w'.
  pose proof (complete_cases env body w) as Hcases. cbv zeta in Hcases.
  destruct (handle env (Complete body) w) as [response [r' o' d' c']].
  destruct w as [r o d c]. simpl in *.
  destruct Hcases
    as [(_ & _ & _ & Hno)|(s & res & _ & Hcached & Houtcome & ->)]; [done|].
  destruct Houtcome
    as [Hflag|e Hflag Hscore|e score sorted Hflag Hscore Hstore
       |score old res r'' sorted new Hflag Hscore Hpool Hrow Hphase];
    try discriminate Hstatus.
  destruct (completion_stats_session s (CompleteBody.timeElapsed body))
    as (matches & Hsorted & Hperm).
  apply Permutation_length in Hperm.
  exists s, score, old.
  split; [unfold cached_session; simpl; by rewrite Hcached|].
  split; [done|]. split; [done|]. split; [done|]. cbv zeta.
  assert (new = completed_row old (Score.totalScore score) (Session.moves s)
                  (CompleteBody.timeElapsed body)
                  (Z.of_nat (length (Session.matches s)))) as Hnew.
  { subst new sorted. rewrite Hsorted. simpl. by rewrite Hperm. }
  rewrite <- Hnew.
  assert (Session.username sorted = Session.username s) as Hname.
  { subst sorted. by rewrite Hsorted. }
  destruct Hphase as [e Hf|e r1 _ Hf|e r1 r2 _ _ Hf|e r1 r2 r3 key _ _ _ Hf
                     |n r1 r2 r3 key _ _ _ _ _ Hcounter];
    try discriminate Hstatus.
  split; [done|]. split; [done|]. split; [done|]. split; [done|].
  unfold cached_session. simpl. subst key r3 r2 r1.
  split; [|split].
  - rewrite lookup_insert_ne by apply activity_key_not_session.
    rewrite lookup_delete_ne by apply leaderboard_key_ne.
    rewrite lookup_delete_ne by apply user_stats_key_ne.
    by rewrite lookup_insert_eq.
  - rewrite lookup_insert_ne by apply activity_key_not_leaderboard.
    apply lookup_delete_eq.
  - rewrite lookup_insert_ne by apply activity_key_not_user_stats.
    rewrite lookup_delete_ne by apply leaderboard_not_user_stats.
    simpl. rewrite Hname. apply lookup_delete_eq.
Qed.

Lemma complete_success_witness :
  ∃ s,
    cached_session (handle demo_env (Complete demo_complete) played).2 "game-1"
      = Some s ∧
    Session.finalScore s = Some 25.
Proof.
  destruct (complete_success demo_env played demo_complete)
    as (s & score & old & Hs & _ & Hscore & _ & _ & _ & _ & _ & Hfinal & _).
  - reflexivity.
  - eexists. split; [exact Hfinal|].
    vm_compute in Hs. injection Hs as <-.
    vm_compute in Hscore. injection Hscore as <-. reflexivity.
Defined.

End Outcomes.

Section Users.
Local Open Scope nat_scope.

(** Looking a user up, or creating the row, with the reason of a failure. *)
Lemma wp_createOrGetUser_exact username env r o d c
    (Q : Completion UserRow.t → World → Prop) :
  (∀ user c',
      pool_failures env KSelectUser < 3 →
      Db.users d !! username = Some user →
      Q (Returned user) (mkWorld r o d c')) →
  (∀ c',
      pool_failures env KSelectUser < 3 →
      pool_failures env KInsertUser < 3 →
      Db.users d !! username = None →
      Q (Returned (new_user env username))
        (mkWorld r o
           (Db.mk (<[username := new_user env username]> (Db.users d))
                  (Db.games d) (Db.game_matches d)) c')) →
  (∀ e c',
      3 ≤ pool_failures env KSelectUser ∨
      Db.users d !! username = None ∧ 3 ≤ pool_failures env KInsertUser →
      Q (Thrown e) (mkWorld r o d c')) →
  wp (createOrGetUser username) env (mkWorld r o d c) Q.
Proof.
  intros Hold Hnew Hfail. unfold createOrGetUser.
  apply wp_try_catch, wp_bind, wp_query.
  - intros rows d' c' Hselect Hexec. simpl in Hexec, Hselect.
    injection Hexec as <- <-.
    simpl. destruct (Db.users d !! username) as [user|] eqn:Huser; simpl.
    { apply wp_ret. by apply Hold. }
    apply wp_bind, wp_query.
    + intros rows d' c'' Hinsert Hexec. simpl in Hexec, Hinsert.
      rewrite Huser in Hexec.
      injection Hexec as <- <-. simpl. apply wp_ret. by apply Hnew.
    + intros e c'' [Hinsert|Hexec]; simpl in *.
      * apply wp_bind, wp_console_log, wp_throw, Hfail. auto.
      * by rewrite Huser in Hexec.
  - intros e c' [Hselect|Hexec]; simpl in *; [|done].
    apply wp_bind, wp_console_log, wp_throw, Hfail. auto.
Qed.

(** X16. [createOrGetUser] keeps one row per name: the row it returns is
    the one stored under the name afterwards; a name that already has a row
    leaves the tables as they are; no other user and no game is touched;
    and asking again, with fewer than three failed attempts, returns the
    same row and changes nothing. *)
Theorem createOrGetUser_one_row (username : string) (env env' : Env)
    (w : World) (user : UserRow.t) :
  (createOrGetUser username env w).1 = Returned user →
  pool_failures env' KSelectUser < 3 →
  let w1 := (createOrGetUser username env w).2 in
  Db.users (db w1) !! username = Some user ∧
  (is_Some (Db.users (db w) !! username) → db w1 = db w) ∧
  (∀ name, name ≠ username →
           Db.users (db w1) !! name = Db.users (db w) !! name) ∧
  Db.games (db w1) = Db.games (db w) ∧
  (createOrGetUser username env' w1).1 = Returned user ∧
  db (createOrGetUser username env' w1).2 = db w1.
Proof.
  intros Hfirst Hselect w1. subst w1.
  assert (Db.users (db (createOrGetUser username env w).2) !! username
            = Some user ∧
          (is_Some (Db.users (db w) !! username) →
           db (createOrGetUser username env w).2 = db w) ∧
          (∀ name, name ≠ username →
             Db.users (db (createOrGetUser username env w).2) !! name
             = Db.users (db w) !! name) ∧
          Db.games (db (createOrGetUser username env w).2) = Db.games (db w))
    as (Hstored & Hsame & Hothers & Hgames).
  { revert Hfirst. destruct w as [r o d c].
    apply (wp_createOrGetUser_exact username env r o d c
      (λ res w1,
         res = Returned user →
         Db.users (db w1) !! username = Some user ∧
         (is_Some (Db.users d !! username) → db w1 = d) ∧
         (∀ name, name ≠ username →
            Db.users (db w1) !! name = Db.users d !! name) ∧
         Db.games (db w1) = Db.games d)).
    - intros user' c' _ Huser [= ->]. simpl. auto.
    - intros c' _ _ Hnone [= <-]. simpl.
      split; [apply lookup_insert_eq|].
      split; [intros [? ?]; congruence|].
      split; [|done]. intros name Hname. by rewrite lookup_insert_ne.
    - intros e c' _ [=]. }
  split; [done|]. split; [done|]. split; [done|]. split; [done|].
  destruct (createOrGetUser username env w).2 as [r1 o1 d1 c1].
  simpl in Hstored.
  apply (wp_createOrGetUser_exact username env' r1 o1 d1 c1
    (λ res w2, res = Returned user ∧ db w2 = d1)).
  - intros user' c' _ Huser. simpl. split; [congruence|done].
  - intros c' _ _ Hnone. congruence.
  - intros e c' [?|[Hnone _]]; [lia|congruence].
Qed.

Lemma createOrGetUser_one_row_witness :
  (createOrGetUser "alice" demo_env
     (createOrGetUser "alice" demo_env blank).2).1
  = Returned (new_user demo_env "alice").
Proof.
  apply (createOrGetUser_one_row "alice" demo_env demo_env blank
           (new_user demo_env "alice")).
  - by vm_compute.
  - simpl. lia.
Defined.

End Users.

Section Starting.
Local Open Scope Z_scope.

(** A handler that catches everything: to know what holds when it answers
    [code], it is enough to follow the runs of its body that return. *)
Lemma wp_handler_success (body : IO Response) (logged fallback : string)
    env w (code : nat) (P : Response → World → Prop) :
  code ≠ 500%nat →
  wp body env w (λ res w',
    match res with
    | Returned response => status response = code → P response w'
    | Thrown _ => True
    end) →
  wp (try_catch body
        (λ error, console_log Error logged;; failure 500 fallback)) env w
     (λ res w',
        match res with
        | Returned response => status response = code → P response w'
        | Thrown _ =>
            status (mkResponse 500 (Failed "Internal Server Error")) = code →
            P (mkResponse 500 (Failed "Internal Server Error")) w'
        end).
Proof.
  intros Hcode Hbody. apply wp_try_catch. eapply wp_mono; [|exact Hbody].
  intros [response|e] [r' o' d' c']; simpl; [done|].
  intros _. apply wp_bind, wp_console_log, wp_failure. simpl.
  intros Hstatus. by destruct Hcode.
Qed.

(** X15. A start that answers 201 has found or created the row of the
    player, stored a new game row under an identifier that was free, and
    cached under that identifier a session with the generated deck, no
    match, no move, score 0 and the completion flag unset; the response
    shows the cards of that deck. *)
Theorem start_success (env : Env) (w : World) (body : StartBody.t) :
  status (handle env (Start body) w).1 = 201%nat →
  let username := StartBody.username body in
  let difficulty := default "easy" (StartBody.difficulty body) in
  let gameId := uuid_game env in
  let w' := (handle env (Start body) w).2 in
  ∃ user deck g',
    generateCardSet (Some difficulty) (StartBody.categories body) (random env)
      = Returned (deck, g') ∧
    (Db.users (db w) !! username = Some user ∨
     Db.users (db w) !! username = None ∧ user = new_user env username) ∧
    Db.users (db w') !! username = Some user ∧
    Db.games (db w) !! gameId = None ∧
    Db.games (db w')
      = <[gameId :=
            GameRow.mk gameId (UserRow.id user) username 0 0 0 0 difficulty
              false]> (Db.games (db w)) ∧
    Db.game_matches (db w') = Db.game_matches (db w) ∧
    cached_session w' gameId
      = Some (new_session env user username difficulty deck) ∧
    (handle env (Start body) w).1
      = mkResponse 201
          (GameStarted gameId difficulty (public <$> deck)
             (difficulties !! difficulty)).
Proof.
  intros Hstatus username difficulty gameId w'.
  subst w'. revert Hstatus.
  apply (handle_wp (Start body) env w
    (λ response w',
       status response = 201%nat →
       ∃ user deck g',
         generateCardSet (Some difficulty) (StartBody.categories body)
           (random env) = Returned (deck, g') ∧
         (Db.users (db w) !! username = Some user ∨
          Db.users (db w) !! username = None ∧ user = new_user env username) ∧
         Db.users (db w') !! username = Some user ∧
         Db.games (db w) !! gameId = None ∧
         Db.games (db w')
           = <[gameId :=
                 GameRow.mk gameId (UserRow.id user) username 0 0 0 0
                   difficulty false]> (Db.games (db w)) ∧
         Db.game_matches (db w') = Db.game_matches (db w) ∧
         cached_session w' gameId
           = Some (new_session env user username difficulty deck) ∧
         response
           = mkResponse 201
               (GameStarted gameId difficulty (public <$> deck)
                  (difficulties !! difficulty)))).
  destruct w as [r o d c]. simpl.
  unfold start. fold username difficulty.
  apply (wp_handler_success _ _ _ env (mkWorld r o d c) 201
    (λ response w',
       ∃ user deck g',
         generateCardSet (Some difficulty) (StartBody.categories body)
           (random env) = Returned (deck, g') ∧
         (Db.users d !! username = Some user ∨
          Db.users d !! username = None ∧ user = new_user env username) ∧
         Db.users (db w') !! username = Some user ∧
         Db.games d !! gameId = None ∧
         Db.games (db w')
           = <[gameId :=
                 GameRow.mk gameId (UserRow.id user) username 0 0 0 0
                   difficulty false]> (Db.games d) ∧
         Db.game_matches (db w') = Db.game_matches d ∧
         cached_session w' gameId
           = Some (new_session env user username difficulty deck) ∧
         response
           = mkResponse 201
               (GameStarted gameId difficulty (public <$> deck)
                  (difficulties !! difficulty)))); [done|].
  assert (∀ user d1 c1,
    (Db.users d !! username = Some user ∨
     Db.users d !! username = None ∧ user = new_user env username) →
    Db.users d1 !! username = Some user →
    Db.games d1 = Db.games d → Db.game_matches d1 = Db.game_matches d →
    wp (let* env0 := ask in
        let* (cards, _) :=
          lift (generateCardSet (Some difficulty) (StartBody.categories body)
                  (random env0)) in
        let* game := createGame (UserRow.id user) username difficulty in
        wrapped
          (cacheGameSession (GameRow.id game)
             (Session.mk (GameRow.id game) (UserRow.id user) username
                difficulty cards (now env0) [] 0 0 false None None));;
        wrapped incrementDailyGames;;
        wrapped (trackUserActivity username "game_start");;
        updateLastPlayed (UserRow.id user);;
        ret (mkResponse 201
               (GameStarted (GameRow.id game) difficulty
                  ((λ card,
                     PublicCard.mk (Card.id card) (Card.position card)
                       (Card.emoji card) (Card.name card) (Card.category card)
                       false false) <$> cards)
                  (difficulties !! difficulty))))
       env (mkWorld r o d1 c1)
       (λ res w',
          match res with
          | Returned response =>
              status response = 201%nat →
              ∃ user deck g',
                generateCardSet (Some difficulty) (StartBody.categories body)
                  (random env) = Returned (deck, g') ∧
                (Db.users d !! username = Some user ∨
                 Db.users d !! username = None ∧
                 user = new_user env username) ∧
                Db.users (db w') !! username = Some user ∧
                Db.games d !! gameId = None ∧
                Db.games (db w')
                  = <[gameId :=
                        GameRow.mk gameId (UserRow.id user) username 0 0 0 0
                          difficulty false]> (Db.games d) ∧
                Db.game_matches (db w') = Db.game_matches d ∧
                cached_session w' gameId
                  = Some (new_session env user username difficulty deck) ∧
                response
                  = mkResponse 201
                      (GameStarted gameId difficulty (public <$> deck)
                         (difficulties !! difficulty))
          | Thrown _ => True
          end)) as Hrest.
  { intros user d1 c1 Hwho Huser Hgames Hmatches.
    apply wp_bind, wp_ask, wp_bind, wp_lift.
    destruct (generateCardSet _ _ _) as [[deck g']|e] eqn:Hdeck; [|done].
    apply wp_bind, wp_createGame; [|done].
    intros c2 Hfresh game. simpl.
    apply wp_bind, wp_wrapped; [intros _|done].
    unfold cacheGameSession. apply wp_redis_set; [intros _|done].
    apply wp_bind, wp_wrapped; [intros _|done].
    unfold incrementDailyGames. apply wp_bind, wp_ask, wp_expire_incr; [|done].
    intros n _ _ _.
    apply wp_bind, wp_wrapped; [intros _|done].
    apply wp_trackUserActivity; [|done].
    intros n' _ _ _.
    apply wp_bind, wp_updateLastPlayed; [|done].
    intros c3. apply wp_ret. intros _.
    exists user, deck, g'. simpl.
    rewrite Hgames in Hfresh.
    split; [done|]. split; [done|]. split; [done|]. split; [done|].
    split; [by rewrite Hgames|]. split; [done|]. split; [|done].
    unfold cached_session. simpl.
    rewrite lookup_insert_ne by apply activity_key_not_session.
    rewrite lookup_insert_ne by apply analytics_key_ne.
    by rewrite lookup_insert_eq. }
  apply wp_bind, wp_createOrGetUser_exact.
  - intros user c1 _ Huser. apply Hrest; auto.
  - intros c1 _ _ Hnone. apply Hrest; simpl; auto.
    apply lookup_insert_eq.
  - done.
Qed.

Lemma start_success_witness :
  ∃ deck,
    cached_session started "game-1"
      = Some (new_session demo_env (new_user demo_env "alice") "alice" "easy"
                deck) ∧
    length deck = 16%nat.
Proof.
  destruct (start_success demo_env blank
              (StartBody.mk "alice" (Some "easy") None))
    as (user & deck & g' & Hdeck & [Hold|[_ ->]] & _ & _ & _ & _ & Hcached & _).
  - by vm_compute.
  - vm_compute in Hold. discriminate Hold.
  - exists deck. split; [exact Hcached|].
    vm_compute in Hdeck. injection Hdeck as <- _. reflexivity.
Defined.

End Starting.
